(** * Resume / job-description matching engine (utils.py, resumebot.py)

    A shallow embedding of the deterministic matching core of the
    repository: the regular-expression based extractors
    ([extract_emails], [extract_years_experience],
    [extract_skills_from_text]), the scorer
    ([calculate_similarity_score], [get_resonant_skill]) and the ranking
    step ([sorted(..., key=score, reverse=True)]).

    Modelling conventions.
    - A Python [str] is a [string]; its characters are the code points
      below 256.  The one character above them that a pattern names, the
      en dash of the date pattern, is carried by its three UTF-8 bytes.
    - A Python [float] is an exact rational ([Q]); [round(x, 1)] is a
      parameter [round1] of the experience extractor.
    - A naive [datetime] is an integer number of microseconds on the time
      line; [dateutil.parser.parse] and [datetime.now()] are parameters:
      [parse] returns a naive datetime or raises, and [now] is one
      instant for all the ranges of a call.
    - Python exceptions are explicit: fallible operations return [res].
    - [list(set(...))] is a finite set ([gset]): Python leaves the order
      of the list unspecified. *)

From Stdlib Require Import List String Ascii ZArith QArith Qround Bool Lia Permutation Sorted.
From Stdlib Require Import DecimalString DecimalPos DecimalZ.
From stdpp Require Import gmap strings.
Import ListNotations.

Local Open Scope string_scope.
Local Open Scope list_scope.

(** ** Python strings *)

Module PyStr.

Definition chars := list ascii.

Definition code (c : ascii) : N := N_of_ascii c.

Definition in_range (lo hi : N) (c : ascii) : bool :=
  (lo <=? code c)%N && (code c <=? hi)%N.

(** [str.isspace] / [\s] on code points below 256. *)
Definition is_space (c : ascii) : bool :=
  in_range 9 13 c || in_range 28 32 c || (code c =? 133)%N || (code c =? 160)%N.

(** [\d] on code points below 256. *)
Definition is_digit (c : ascii) : bool := in_range 48 57 c.

Definition is_upper_ascii (c : ascii) : bool := in_range 65 90 c.
Definition is_lower_ascii (c : ascii) : bool := in_range 97 122 c.
Definition is_alpha_ascii (c : ascii) : bool := is_upper_ascii c || is_lower_ascii c.

(** [str.lower] on one code point below 256: A-Z and the Latin-1
    capitals (0xC0-0xDE except the multiplication sign) move by 32. *)
Definition lower_char (c : ascii) : ascii :=
  if is_upper_ascii c || (in_range 192 222 c && negb (code c =? 215)%N)
  then ascii_of_N (code c + 32) else c.

Definition lower_chars (s : chars) : chars := map lower_char s.

Definition lower (s : string) : string :=
  string_of_list_ascii (lower_chars (list_ascii_of_string s)).

(** [s.startswith(p)]. *)
Fixpoint starts_with (p s : chars) : bool :=
  match p, s with
  | [], _ => true
  | _ :: _, [] => false
  | a :: p', b :: s' => Ascii.eqb a b && starts_with p' s'
  end.

(** [s.count(sub)] for a non-empty [sub]: occurrences counted left to
    right without overlap; [skip] is the number of characters still
    covered by the occurrence just counted. *)
Fixpoint count_skip (sub s : chars) (skip : nat) : nat :=
  match s with
  | [] => 0
  | _ :: s' =>
      match skip with
      | S k => count_skip sub s' k
      | O => if starts_with sub s
             then S (count_skip sub s' (length sub - 1))
             else count_skip sub s' 0
      end
  end.

(** [s.count(sub)]; the empty string occurs [len(s) + 1] times. *)
Definition count_chars (s sub : chars) : nat :=
  match sub with
  | [] => S (length s)
  | _ :: _ => count_skip sub s 0
  end.

Definition count (s sub : string) : nat :=
  count_chars (list_ascii_of_string s) (list_ascii_of_string sub).

(** [sub in s]. *)
Fixpoint contains_chars (sub s : chars) : bool :=
  starts_with sub s ||
  match s with
  | [] => false
  | _ :: s' => contains_chars sub s'
  end.

(** [s.split()]: maximal runs of non-whitespace characters; [cur] is the
    run being read. *)
Fixpoint split_ws (s cur : chars) : list chars :=
  match s with
  | [] => match cur with [] => [] | _ :: _ => [cur] end
  | c :: s' =>
      if is_space c
      then match cur with
           | [] => split_ws s' []
           | _ :: _ => cur :: split_ws s' []
           end
      else split_ws s' (cur ++ [c])
  end.

(** [sep.join(parts)]. *)
Fixpoint join (sep : chars) (parts : list chars) : chars :=
  match parts with
  | [] => []
  | [p] => p
  | p :: ps => p ++ sep ++ join sep ps
  end.

(** [re.split] on a one-character class: every delimiter cuts, empty
    pieces are kept. *)
Fixpoint split_on (d : ascii -> bool) (s cur : chars) : list chars :=
  match s with
  | [] => [cur]
  | c :: s' => if d c then cur :: split_on d s' [] else split_on d s' (cur ++ [c])
  end.

Fixpoint drop_while (p : ascii -> bool) (s : chars) : chars :=
  match s with
  | [] => []
  | c :: s' => if p c then drop_while p s' else s
  end.

(** [s.lstrip()]. *)
Definition lstrip (s : chars) : chars := drop_while is_space s.

(** [s.strip()]. *)
Definition strip (s : chars) : chars := rev (lstrip (rev (lstrip s))).

(** [re.sub(r'\s+', '', s)]. *)
Definition remove_ws (s : chars) : chars := List.filter (fun c => negb (is_space c)) s.

End PyStr.

(** ** A backtracking matcher for the [re] patterns of utils.py *)

Module Re.
Import PyStr.

Inductive regex : Type :=
| Eps                              (* the empty pattern *)
| Chr (p : ascii -> bool)          (* one character: literal, class, \d, \s, . *)
| Seq (r1 r2 : regex)              (* r1 r2 *)
| Alt (r1 r2 : regex)              (* r1|r2, r1 tried first *)
| Star (r : regex)                 (* r*, greedy *)
| Grp (i : nat) (r : regex).       (* capturing group number i *)

Definition caps := list (nat * chars).
Definition outcome := option (chars * caps).
Definition cont := chars -> caps -> outcome.

(** [rmatch r s cs k]: match [r] at the head of [s], then continue with
    [k] on what is left; the first success in backtracking order wins.
    An iteration of a star must consume a character. *)
Fixpoint rmatch (r : regex) (s : chars) (cs : caps) (k : cont) : outcome :=
  match r with
  | Eps => k s cs
  | Chr p =>
      match s with
      | c :: s' => if p c then k s' cs else None
      | [] => None
      end
  | Seq r1 r2 => rmatch r1 s cs (fun s1 cs1 => rmatch r2 s1 cs1 k)
  | Alt r1 r2 =>
      match rmatch r1 s cs k with
      | Some x => Some x
      | None => rmatch r2 s cs k
      end
  | Star r1 =>
      (fix loop (n : nat) (s : chars) (cs : caps) {struct n} : outcome :=
         match n with
         | O => k s cs
         | S n' =>
             match rmatch r1 s cs
                     (fun s1 cs1 =>
                        if (length s1 <? length s)%nat then loop n' s1 cs1 else None) with
             | Some x => Some x
             | None => k s cs
             end
         end) (length s) s cs
  | Grp i r1 =>
      rmatch r1 s cs
        (fun s1 cs1 => k s1 ((i, firstn (length s - length s1) s) :: cs1))
  end.

(** [pattern.match(s)]: what is left after the match, and the groups. *)
Definition match_at (r : regex) (s : chars) : outcome :=
  rmatch r s [] (fun rest cs => Some (rest, cs)).

(** [m.group(i)] of a successful match ([None] -> the empty string, as
    [findall] reports a group that did not take part). *)
Fixpoint group (i : nat) (cs : caps) : chars :=
  match cs with
  | [] => []
  | (j, v) :: cs' => if (i =? j)%nat then v else group i cs'
  end.

(** [re.search(r, s)]: the leftmost match, as (matched text, groups). *)
Fixpoint search (r : regex) (s : chars) : option (chars * caps) :=
  match match_at r s with
  | Some (rest, cs) => Some (firstn (length s - length rest) s, cs)
  | None =>
      match s with
      | [] => None
      | _ :: s' => search r s'
      end
  end.

(** [re.finditer]: leftmost non-overlapping matches; [skip] characters
    belong to the match just reported. *)
Fixpoint finditer (r : regex) (s : chars) (skip : nat) : list (chars * caps) :=
  match skip with
  | S k =>
      match s with
      | [] => []
      | _ :: s' => finditer r s' k
      end
  | O =>
      match match_at r s with
      | Some (rest, cs) =>
          let n := (length s - length rest)%nat in
          (firstn n s, cs) ::
          match s with
          | [] => []
          | _ :: s' => finditer r s' (n - 1)
          end
      | None =>
          match s with
          | [] => []
          | _ :: s' => finditer r s' 0
          end
      end
  end.

(** [re.findall] for a pattern without group, with one group and with
    two groups. *)
Definition findall0 (r : regex) (s : chars) : list chars :=
  map fst (finditer r s 0).
Definition findall1 (r : regex) (s : chars) : list chars :=
  map (fun m => group 1 (snd m)) (finditer r s 0).
Definition findall2 (r : regex) (s : chars) : list (chars * chars) :=
  map (fun m => (group 1 (snd m), group 2 (snd m))) (finditer r s 0).

(** *** Pattern syntax *)

Definition Plus (r : regex) : regex := Seq r (Star r).          (* r+ *)
Definition Opt (r : regex) : regex := Alt r Eps.                (* r? *)
Fixpoint Rep (n : nat) (r : regex) : regex :=                   (* r{n} *)
  match n with
  | O => Eps
  | S n' => Seq r (Rep n' r)
  end.
Definition AtLeast (n : nat) (r : regex) : regex := Seq (Rep n r) (Star r). (* r{n,} *)

Definition lit (c : ascii) : regex := Chr (Ascii.eqb c).
(** A literal character under [re.IGNORECASE]. *)
Definition lit_i (c : ascii) : regex := Chr (fun x => Ascii.eqb (lower_char x) (lower_char c)).

Fixpoint word_i (w : chars) : regex :=
  match w with
  | [] => Eps
  | c :: w' => Seq (lit_i c) (word_i w')
  end.
Definition Word_i (w : string) : regex := word_i (list_ascii_of_string w).

Fixpoint alts (rs : list regex) : regex :=
  match rs with
  | [] => Chr (fun _ => false)
  | [r] => r
  | r :: rs' => Alt r (alts rs')
  end.

Definition one_of (cs : string) (c : ascii) : bool :=
  existsb (Ascii.eqb c) (list_ascii_of_string cs).

Definition ws : regex := Chr is_space.                          (* \s *)
Definition digit : regex := Chr is_digit.                       (* \d *)
Definition alpha : regex := Chr is_alpha_ascii.                 (* [A-Za-z] *)
Definition dot : regex := Chr (fun c => negb (Ascii.eqb c "010"%char)). (* . *)

End Re.

(** ** Python exceptions, numbers and dates *)

Module Py.
Import PyStr.

Inductive exn : Type := ValueError | IndexError | AttributeError | ParserError.

Inductive res (A : Type) : Type :=
| Ok (a : A)
| Raise (e : exn).
Arguments Ok {A} a.
Arguments Raise {A} e.

Definition bind {A B : Type} (m : res A) (f : A -> res B) : res B :=
  match m with
  | Ok a => f a
  | Raise e => Raise e
  end.

(** [try: m  except Exception: h]. *)
Definition try_except {A : Type} (m : res A) (h : A) : A :=
  match m with
  | Ok a => a
  | Raise _ => h
  end.

Definition digit_value (c : ascii) : Z := (Z.of_N (code c) - 48)%Z.

(** [int(ds)] for a run of decimal digits. *)
Definition int_of_digits (ds : chars) : Z :=
  fold_left (fun acc c => 10 * acc + digit_value c)%Z ds 0%Z.

Fixpoint span_digits (s : chars) : chars * chars :=
  match s with
  | c :: s' =>
      if is_digit c
      then let '(ds, rest) := span_digits s' in (c :: ds, rest)
      else ([], s)
  | [] => ([], [])
  end.

(** [float(s)] on the texts the explicit-years pattern can capture,
    digits with an optional fractional part; anything else is reported
    as [ValueError].  A float is kept as a reduced fraction, so that
    equal values are equal terms. *)
Definition float_of_chars (s : chars) : res Q :=
  let '(ip, rest) := span_digits s in
  match ip, rest with
  | [], _ => Raise ValueError
  | _ :: _, [] => Ok (Qred (inject_Z (int_of_digits ip)))
  | _ :: _, c :: fs =>
      let '(fp, rest') := span_digits fs in
      match Ascii.eqb c "."%char, fp, rest' with
      | true, _ :: _, [] =>
          Ok (Qred (inject_Z (int_of_digits ip)
                    + inject_Z (int_of_digits fp) / inject_Z (10 ^ Z.of_nat (length fp))))%Q
      | _, _, _ => Raise ValueError
      end
  end.

(** [max(l)]; [ValueError] on the empty list. *)
Definition py_max (l : list Q) : res Q :=
  match l with
  | [] => Raise ValueError
  | x :: l' => Ok (fold_left (fun m y => if Qle_bool y m then m else y) l' x)
  end.

(** A naive [datetime]: microseconds on the time line. *)
Definition datetime := Z.
Definition interval := (datetime * datetime)%type.

Definition us_per_day : Z := 86400000000%Z.

(** [(e - s).days]: a [timedelta] is normalised with a non-negative
    seconds part, so its days are the floor of the difference. *)
Definition days_between (s e : datetime) : Z := ((e - s) / us_per_day)%Z.

(** [l[-1]]. *)
Definition last_item {A : Type} (l : list A) : res A :=
  match rev l with
  | [] => Raise IndexError
  | x :: _ => Ok x
  end.

(** [l[0]]. *)
Definition first_item {A : Type} (l : list A) : res A :=
  match l with
  | [] => Raise IndexError
  | x :: _ => Ok x
  end.

(** *** [sorted] / [list.sort]

    Python's sort is stable; a stable sort is determined by its key
    order, so insertion stands for it.  With [reverse=True] the list is
    reversed, sorted and reversed again, as listobject.c does. *)
Section Sort.
Context {A K : Type} (key : A -> K) (ltb : K -> K -> bool).

Fixpoint insert_by (x : A) (l : list A) : list A :=
  match l with
  | [] => [x]
  | y :: l' => if ltb (key y) (key x) then y :: insert_by x l' else x :: l
  end.

Definition sort_by (l : list A) : list A := fold_right insert_by [] l.

Definition sorted (reverse : bool) (l : list A) : list A :=
  if reverse then rev (sort_by (rev l)) else sort_by l.
End Sort.

Definition Qltb (a b : Q) : bool := negb (Qle_bool b a).

End Py.

#[export] Instance res_bind : MBind Py.res := fun A B f m => Py.bind m f.

(** ** utils.py *)

Module Utils.
Import PyStr Re Py.

Definition seqs (rs : list regex) : regex := fold_right Seq Eps rs.

(** *** extract_emails *)

Definition email_local (c : ascii) : bool :=          (* [a-zA-Z0-9._%+-] *)
  is_alpha_ascii c || is_digit c || one_of "._%+-" c.
Definition email_domain (c : ascii) : bool :=         (* [a-zA-Z0-9.-] *)
  is_alpha_ascii c || is_digit c || one_of ".-" c.

(** (?:[a-zA-Z0-9._%+-]\s* )+@\s*(?:(?:[a-zA-Z0-9.-]\s* )+\.\s*[a-zA-Z]{2,})
    (written here with a blank between a star and a closing parenthesis) *)
Definition email_pattern : regex :=
  seqs [ Plus (Seq (Chr email_local) (Star ws));
         lit "@";
         Star ws;
         Plus (Seq (Chr email_domain) (Star ws));
         lit ".";
         Star ws;
         AtLeast 2 alpha ].

Definition extract_emails (text : string) : list string :=
  let matches := findall0 email_pattern (list_ascii_of_string text) in
  map (fun m => string_of_list_ascii (remove_ws m)) matches.

(** *** extract_years_experience *)

(** (\d+(?:\.\d+)?)\+?\s*(?:years?|yrs?)\s*(?:of\s*experience|exp)?  with re.IGNORECASE *)
Definition regex_explicit : regex :=
  seqs [ Grp 1 (Seq (Plus digit) (Opt (Seq (lit ".") (Plus digit))));
         Opt (lit "+");
         Star ws;
         Alt (Seq (Word_i "year") (Opt (lit_i "s")))
             (Seq (Word_i "yr") (Opt (lit_i "s")));
         Star ws;
         Opt (Alt (seqs [Word_i "of"; Star ws; Word_i "experience"])
                  (Word_i "exp")) ].

(** [A-Za-z]{3,}\.?\s+\d{4} *)
Definition month_year : regex :=
  seqs [ AtLeast 3 alpha; Opt (lit "."); Plus ws; Rep 4 digit ].

(** The en dash (U+2013) lies above the code points of [ascii]; a text
    carries it as its three UTF-8 bytes. *)
Definition en_dash : regex := seqs [lit "226"%char; lit "128"%char; lit "147"%char].

(** ([A-Za-z]{3,}\.?\s+\d{4})\s*(?:<en dash>|-)\s*(Present|[A-Za-z]{3,}\.?\s+\d{4})  with re.IGNORECASE *)
Definition regex_date : regex :=
  seqs [ Grp 1 month_year;
         Star ws;
         Alt en_dash (lit "-");
         Star ws;
         Grp 2 (Alt (Word_i "Present") month_year) ].

(** [merged_intervals[-1] = x]. *)
Definition set_last {A : Type} (l : list A) (x : A) : list A := removelast l ++ [x].

(** The body of the merging loop. *)
Definition merge_step (merged : res (list interval)) (current : interval)
  : res (list interval) :=
  merged_intervals ← merged;
  last ← last_item merged_intervals;
  if (fst current <=? snd last)%Z
  then Ok (set_last merged_intervals (fst last, Z.max (snd last) (snd current)))
  else Ok (merged_intervals ++ [current]).

Fixpoint mapM {A B : Type} (f : A -> res B) (l : list A) : res (list B) :=
  match l with
  | [] => Ok []
  | x :: l' => y ← f x; ys ← mapM f l'; Ok (y :: ys)
  end.

Section Experience.
(** [round(x, 1)], [dateutil.parser.parse] and [datetime.now()]. *)
Variable round1 : Q -> Q.
Variable parse : string -> res datetime.
Variable now : datetime.

Definition explicit_matches (text : string) : list chars :=
  findall1 regex_explicit (list_ascii_of_string text).

Definition date_matches (text : string) : list (chars * chars) :=
  findall2 regex_date (list_ascii_of_string text).

(** The body of the [try] in the loop over [date_matches]. *)
Definition parse_range (m : chars * chars) : res interval :=
  let '(start_str, end_str) := m in
  start_date ← parse (string_of_list_ascii start_str);
  end_date ← (if contains_chars (list_ascii_of_string "present") (lower_chars end_str)
               then Ok now
               else parse (string_of_list_ascii end_str));
  Ok (start_date, end_date).

(** [intervals] after the loop: a range whose [try] raised is skipped
    by [continue]. *)
Fixpoint collect_intervals (ms : list (chars * chars)) : list interval :=
  match ms with
  | [] => []
  | m :: ms' =>
      match parse_range m with
      | Ok iv => iv :: collect_intervals ms'
      | Raise _ => collect_intervals ms'
      end
  end.

Definition total_days (merged : list interval) : Z :=
  fold_left (fun acc iv => acc + days_between (fst iv) (snd iv))%Z merged 0%Z.

(** The date-range tier, from [intervals] on. *)
Definition years_of_intervals (intervals : list interval) : res (option Q) :=
  match intervals with
  | [] => Ok None
  | _ :: _ =>
      let intervals := sorted fst Z.ltb false intervals in
      first ← first_item intervals;
      merged_intervals ← fold_left merge_step (tl intervals) (Ok [first]);
      let total_years := (inject_Z (total_days merged_intervals) / (36525 # 100))%Q in
      Ok (Some (round1 total_years))
  end.

Definition date_tier (text : string) : res (option Q) :=
  years_of_intervals (collect_intervals (date_matches text)).

Definition extract_years_experience (text : string) : res (option Q) :=
  match explicit_matches text with
  | (_ :: _) as ms =>
      match (years_list ← mapM float_of_chars ms;
             m ← py_max years_list;
             Ok (round1 m)) with
      | Ok y => Ok (Some y)
      | Raise ValueError => date_tier text
      | Raise e => Raise e
      end
  | [] => date_tier text
  end.
End Experience.

(** *** extract_skills_from_text *)

Definition header_keywords : list string :=
  [ "skills"; "skill set"; "technical skills"; "areas of expertise";
    "competencies"; "proficiencies"; "abilities"; "tools"; "technologies" ].

(** (?:skills|skill\ set|...)\s*[:\-]\s*(.+)  with re.IGNORECASE *)
Definition skills_pattern : regex :=
  seqs [ alts (map Word_i header_keywords);
         Star ws;
         Chr (one_of ":-");
         Star ws;
         Grp 1 (Plus dot) ].

Definition space : chars := [" "%char].

(** [" ".join(text.split())]. *)
Definition normalize (text : chars) : chars := join space (split_ws text []).

Definition is_delim (c : ascii) : bool :=               (* [,;\n] *)
  one_of ",;" c || Ascii.eqb c "010"%char.

(** The inner loop: the stripped, non-empty parts of one match. *)
Definition skills_of_match (m : chars) : list string :=
  map string_of_list_ascii
      (List.filter (fun p => negb (Nat.eqb (length p) 0))
              (map strip (split_on is_delim m []))).

(** The list [skills] before [set] is applied. *)
Definition skills_list (text : string) : list string :=
  let normalized_text := normalize (list_ascii_of_string text) in
  let matches := findall1 skills_pattern normalized_text in
  flat_map skills_of_match matches.

(** [list(set(skills))]: the order of the returned list is that of the
    set's hash table, so the result is modelled as the set. *)
Definition extract_skills_from_text (text : string) : gset string :=
  list_to_set (skills_list text).

(** *** calculate_similarity_score *)

(** [int(re.search(r"\d+", s).group(0))]; [search] returning [None]
    makes [.group] raise. *)
Definition first_int (s : string) : res Z :=
  match search (Plus digit) (list_ascii_of_string s) with
  | None => Raise AttributeError
  | Some (m, _) => Ok (int_of_digits m)
  end.

Definition years_of (s : string) : Z := try_except (first_int s) 0%Z.

Definition exp_score (candidate_years required_years : Z) : Q :=
  if (required_years =? 0)%Z || (required_years <=? candidate_years)%Z
  then 100%Q
  else (inject_Z candidate_years / inject_Z required_years * 100)%Q.

Definition occurrences (resume_text : string) (s : string) : nat :=
  count (lower resume_text) s.

Definition sum_nat (l : list nat) : nat := fold_left Nat.add l 0%nat.

Definition Qmin (a b : Q) : Q := if Qle_bool a b then a else b.

(** [resume_years] and [jd_years] are given by their [str()] form. *)
Definition calculate_similarity_score
    (resume_text jd_text : string) (jd_key_skills : list string)
    (resume_years jd_years : string) : Q :=
  let candidate_years := years_of resume_years in
  let required_years := years_of jd_years in
  let jd_skills := map lower jd_key_skills in
  let skill_appearances :=
    length (List.filter (fun s => (0 <? occurrences resume_text s)%nat) jd_skills) in
  if (0 <? length jd_skills)%nat && (skill_appearances =? 0)%nat then 0%Q
  else
    let exp_score := exp_score candidate_years required_years in
    let total_occurrences :=
      sum_nat (map (fun s => Nat.min 3 (occurrences resume_text s)) jd_skills) in
    let max_possible := (3 * length jd_skills)%nat in
    let skills_score :=
      if (max_possible =? 0)%nat then 0%Q
      else (inject_Z (Z.of_nat total_occurrences) / inject_Z (Z.of_nat max_possible) * 100)%Q in
    let overall_score := ((4 # 10) * exp_score + (6 # 10) * skills_score)%Q in
    Qmin overall_score 100%Q.

(** *** get_similarity_category *)

Definition get_similarity_category (score : Q) : string :=
  if Qle_bool 90%Q score then "Best"
  else if Qle_bool 70%Q score then "Better"
  else if Qle_bool 50%Q score then "Good"
  else if Qle_bool 30%Q score then "Average"
  else if Qle_bool 10%Q score then "Bad"
  else "Worst".

(** *** get_resonant_skill *)

(** One iteration of the loop over [filtered_skills]; the state is
    [(max_count, resonant_skill)]. *)
Definition resonant_step (resume_text_lower : string)
    (st : nat * option string) (skill : string) : nat * option string :=
  let count := count resume_text_lower skill in
  if (fst st <? count)%nat then (count, Some skill) else st.

Definition get_resonant_skill (resume_text : string) (jd_key_skills : list string)
  : option string :=
  let resume_text_lower := lower resume_text in
  let filtered_skills := map lower jd_key_skills in
  snd (fold_left (resonant_step resume_text_lower) filtered_skills (0%nat, None)).

End Utils.

(** ** resumebot.py: the ranking step *)

Module Bot.
Import Py Utils.

(** One entry of [resume_results] / [jd_results]. *)
Record result : Type := mk_result {
  file_name : string;
  score : Q;
  category : string;
  emails : list string;
  resonant_skill : option string
}.

(** [sorted(results, key=lambda x: x["score"], reverse=True)]. *)
Definition rank (results : list result) : list result :=
  sorted score Qltb true results.

(** The loop of the Multi-Resume matcher that builds [resume_results]. *)
Definition score_resume (jd_text : string) (used_jd_skills : list string)
    (override_jd_years : string)
    (resume : string * string * string * list string) : result :=
  let '(name, resume_text, manual_years, mails) := resume in
  let s := calculate_similarity_score resume_text jd_text used_jd_skills
             manual_years override_jd_years in
  mk_result name s (get_similarity_category s) mails
            (get_resonant_skill resume_text used_jd_skills).

End Bot.

(** ** Reference definitions

    What the patterns mean as languages, and the operations as the
    specification words them; the theorems below compare them with the
    code above. *)

Module Ref.
Import PyStr Re Py Utils.

(** [matches r m cs]: [m] is a word of the pattern [r], and [cs] are
    the groups it sets, the last one set first. *)
Inductive matches : regex -> chars -> caps -> Prop :=
| M_eps : matches Eps [] []
| M_chr p c : p c = true -> matches (Chr p) [c] []
| M_seq r1 r2 a b ca cb :
    matches r1 a ca -> matches r2 b cb -> matches (Seq r1 r2) (a ++ b) (cb ++ ca)
| M_alt_l r1 r2 a ca : matches r1 a ca -> matches (Alt r1 r2) a ca
| M_alt_r r1 r2 a ca : matches r2 a ca -> matches (Alt r1 r2) a ca
| M_star_nil r : matches (Star r) [] []
| M_star_cons r a b ca cb :
    matches r a ca -> matches (Star r) b cb -> matches (Star r) (a ++ b) (cb ++ ca)
| M_grp i r a ca : matches r a ca -> matches (Grp i r) a ((i, a) :: ca).

(** The pattern has no capturing group. *)
Fixpoint groupless (r : regex) : bool :=
  match r with
  | Eps | Chr _ => true
  | Seq r1 r2 | Alt r1 r2 => groupless r1 && groupless r2
  | Star r1 => groupless r1
  | Grp _ _ => false
  end.

(** [sub] occurs in [s]. *)
Definition substring (sub s : chars) : Prop :=
  exists pre post, s = pre ++ sub ++ post.

Definition occurs_in (sub s : string) : Prop :=
  substring (list_ascii_of_string sub) (list_ascii_of_string s).

(** The pieces [ms] occur in [s] one after the other, without overlap. *)
Inductive in_order : list chars -> chars -> Prop :=
| in_order_nil s : in_order [] s
| in_order_cons pre m ms rest :
    in_order ms rest -> in_order (m :: ms) (pre ++ m ++ rest).

(** *** Scorer *)

(** The first integer found in a text: the first maximal run of digits. *)
Fixpoint first_digit_run (s : chars) : chars :=
  match s with
  | [] => []
  | c :: s' => if is_digit c then c :: fst (span_digits s') else first_digit_run s'
  end.

Definition first_integer (s : string) : Z :=
  int_of_digits (first_digit_run (list_ascii_of_string s)).

Definition experience_component (candidate required : Z) : Q :=
  if (required =? 0)%Z then 100%Q
  else if (candidate >=? required)%Z then 100%Q
  else (inject_Z candidate / inject_Z required * 100)%Q.

(** Capped occurrence counts over the maximum possible, as a percentage. *)
Definition skills_component (resume_text : string) (required_skills : list string) : Q :=
  match required_skills with
  | [] => 0%Q
  | _ :: _ =>
      (inject_Z (Z.of_nat (list_sum (map (fun s => Nat.min 3 (count (lower resume_text) (lower s)))
                                         required_skills)))
       / inject_Z (Z.of_nat (3 * length required_skills)) * 100)%Q
  end.

(** No required skill is mentioned although some are required. *)
Definition zero_evidence (resume_text : string) (required_skills : list string) : bool :=
  match required_skills with
  | [] => false
  | _ :: _ =>
      forallb (fun s => (count (lower resume_text) (lower s) =? 0)%nat) required_skills
  end.

(** *** Reading a text from left to right *)

(** [s] without the leading [w], compared ignoring case. *)
Fixpoint strip_prefix_i (w s : chars) : option chars :=
  match w, s with
  | [], _ => Some s
  | _ :: _, [] => None
  | a :: w', b :: s' =>
      if Ascii.eqb (lower_char b) (lower_char a) then strip_prefix_i w' s' else None
  end.

(** The word [w] at the head of a text, in any case: what follows it. *)
Definition word_at (w : string) (s : chars) : option chars :=
  strip_prefix_i (list_ascii_of_string w) s.

(** The leading run of characters of the class [p], and what follows. *)
Fixpoint leading (p : ascii -> bool) (s : chars) : chars * chars :=
  match s with
  | c :: s' =>
      if p c then let '(run, rest) := leading p s' in (c :: run, rest) else ([], s)
  | [] => ([], [])
  end.

(** What follows the leading run of the class [p]. *)
Definition behind (p : ascii -> bool) (s : chars) : chars := snd (leading p s).

(** One character of the class [p] if the text starts with one. *)
Definition optional (p : ascii -> bool) (s : chars) : chars * chars :=
  match s with
  | c :: s' => if p c then ([c], s') else ([], s)
  | [] => ([], [])
  end.

(** The occurrences of a form in a text, from left to right and without
    overlap: where [read] finds the form at the head of what is left, it
    gives its value and the text behind it, the value is reported and
    the reading goes on behind the form; elsewhere it goes on one
    character further.  [fuel] bounds the number of steps. *)
Fixpoint scan_from {A : Type} (read : chars -> option (A * chars)) (fuel : nat) (s : chars)
  : list A :=
  match fuel with
  | O => []
  | S n =>
      match read s with
      | Some (a, rest) =>
          a :: scan_from read n (if (length rest <? length s)%nat then rest else tl s)
      | None =>
          match s with
          | [] => []
          | _ :: s' => scan_from read n s'
          end
      end
  end.

Definition scan {A : Type} (read : chars -> option (A * chars)) (s : chars) : list A :=
  scan_from read (S (length s)) s.

(** The longest of the prefixes of [s] of length 1 to [n] that has the
    form [ok]. *)
Fixpoint longest_prefix (ok : chars -> bool) (s : chars) (n : nat) : option chars :=
  match n with
  | O => None
  | S n' => if ok (firstn n s) then Some (firstn n s) else longest_prefix ok s n'
  end.

(** *** Email extractor *)

Definition among (cs : string) (c : ascii) : bool :=
  existsb (Ascii.eqb c) (list_ascii_of_string cs).

(** A character of a local part and a character of a domain. *)
Definition local_char (c : ascii) : bool :=
  is_alpha_ascii c || is_digit c || among "._%+-" c.
Definition domain_char (c : ascii) : bool :=
  is_alpha_ascii c || is_digit c || among ".-" c.

(** An alphabetic top-level label of two letters or more. *)
Definition top_level (t : chars) : bool :=
  (2 <=? length t)%nat && forallb is_alpha_ascii t.

(** The rest of a domain behind its first character: domain characters
    and stray blanks, then a dot, blanks if any, and the top-level
    label, which ends the text. *)
Fixpoint domain_rest (u : chars) : bool :=
  match u with
  | [] => false
  | c :: u' =>
      (Ascii.eqb c "."%char && top_level (behind is_space u'))
      || ((domain_char c || is_space c) && domain_rest u')
  end.

(** The shape local-part @ domain, stray blanks allowed after a
    character of either part and around the [@]: a local part that
    starts with one of its characters, the [@], and a domain that starts
    with one of its characters and ends in a top-level label. *)
Definition email_shaped (m : chars) : bool :=
  match m with
  | c :: m' =>
      local_char c
      && match behind (fun x => local_char x || is_space x) m' with
         | a :: m2 =>
             Ascii.eqb a "@"%char
             && match behind is_space m2 with
                | d :: u => domain_char d && domain_rest u
                | [] => false
                end
         | [] => false
         end
  | [] => false
  end.

(** The longest email-shaped text at the head of [s], and what follows. *)
Definition email_at (s : chars) : option (chars * chars) :=
  match longest_prefix email_shaped s (length s) with
  | Some m => Some (m, skipn (length m) s)
  | None => None
  end.

Definition without_blanks (m : chars) : chars :=
  List.filter (fun c => negb (is_space c)) m.

(** The email-shaped pieces of a text in their order, each without its
    blanks. *)
Definition email_addresses (text : string) : list string :=
  map (fun m => string_of_list_ascii (without_blanks m))
      (scan email_at (list_ascii_of_string text)).

(** *** Experience extractor *)

(** **** Explicit statements *)

(** A number at the head of a text: digits, and a decimal point with
    the digits behind it if there are any. *)
Definition number_at (s : chars) : option (chars * chars) :=
  match leading is_digit s with
  | ([], _) => None
  | ((_ :: _) as ip, rest) =>
      match rest with
      | c :: rest' =>
          match Ascii.eqb c "."%char, leading is_digit rest' with
          | true, ((_ :: _) as fp, rest'') => Some (ip ++ c :: fp, rest'')
          | _, _ => Some (ip, rest)
          end
      | [] => Some (ip, rest)
      end
  end.

Definition is_s (c : ascii) : bool := Ascii.eqb (lower_char c) "s"%char.

(** year, years, yr or yrs, in any case. *)
Definition unit_at (s : chars) : option chars :=
  match word_at "year" s with
  | Some r => Some (snd (optional is_s r))
  | None =>
      match word_at "yr" s with
      | Some r => Some (snd (optional is_s r))
      | None => None
      end
  end.

(** of experience, or exp, in any case. *)
Definition suffix_at (s : chars) : option chars :=
  match word_at "of" s with
  | Some r =>
      match word_at "experience" (behind is_space r) with
      | Some r' => Some r'
      | None => word_at "exp" s
      end
  | None => word_at "exp" s
  end.

(** A statement of years at the head of a text: a number, a plus sign
    if there is one, blanks if any, the unit, and then blanks and the
    suffix if they follow.  The number and what follows the statement. *)
Definition statement_at (s : chars) : option (chars * chars) :=
  match number_at s with
  | Some (num, r) =>
      match unit_at (behind is_space (snd (optional (Ascii.eqb "+"%char) r))) with
      | Some r1 =>
          let r2 := behind is_space r1 in
          Some (num, match suffix_at r2 with Some r3 => r3 | None => r2 end)
      | None => None
      end
  | None => None
  end.

(** The numbers of the explicit statements of a text. *)
Definition explicit_numbers (s : chars) : list chars := scan statement_at s.

Definition digit_of (c : ascii) : Z := (Z.of_N (N_of_ascii c) - 48)%Z.

(** The number that a run of digits writes. *)
Fixpoint natural (ds : chars) : Z :=
  match ds with
  | [] => 0%Z
  | d :: ds' => (digit_of d * 10 ^ Z.of_nat (length ds') + natural ds')%Z
  end.

(** The value of the digits behind a decimal point. *)
Fixpoint fraction (ds : chars) : Q :=
  match ds with
  | [] => 0%Q
  | d :: ds' => ((inject_Z (digit_of d) + fraction ds') / 10)%Q
  end.

(** The value of a number, as a reduced fraction. *)
Definition numeric_value (num : chars) : Q :=
  let '(ip, rest) := leading is_digit num in
  Qred (inject_Z (natural ip) + fraction (tl rest))%Q.

(** The greatest of a non-empty list of values. *)
Definition greatest (x : Q) (l : list Q) : Q :=
  fold_right (fun y m => if Qle_bool m y then y else m) x l.

(** **** Date ranges *)

(** A month and a year at the head of a text: a name of three letters
    or more, a full stop if there is one, at least one blank, four
    digits.  The text read and what follows it. *)
Definition month_year_at (s : chars) : option (chars * chars) :=
  let '(name, r1) := leading is_alpha_ascii s in
  let '(stop, r2) := optional (Ascii.eqb "."%char) r1 in
  let '(blanks, r3) := leading is_space r2 in
  match r3 with
  | a :: b :: c :: d :: r4 =>
      if (3 <=? length name)%nat && (1 <=? length blanks)%nat
         && is_digit a && is_digit b && is_digit c && is_digit d
      then Some (name ++ stop ++ blanks ++ [a; b; c; d], r4)
      else None
  | _ => None
  end.

(** The en dash (U+2013) as a text carries it: three bytes. *)
Definition en_dash_text : chars := ["226"%char; "128"%char; "147"%char].

(** A hyphen or an en dash at the head of a text. *)
Definition dash_at (s : chars) : option chars :=
  match s with
  | a :: r =>
      if Ascii.eqb a "-"%char then Some r
      else match r with
           | b :: c :: r' =>
               if Ascii.eqb a "226"%char && Ascii.eqb b "128"%char && Ascii.eqb c "147"%char
               then Some r' else None
           | _ => None
           end
  | [] => None
  end.

(** A date range at the head of a text: a month and a year, a dash with
    blanks around it if any, and Present (in any case) or another month
    and year.  The texts of the two bounds and what follows. *)
Definition range_at (s : chars) : option ((chars * chars) * chars) :=
  match month_year_at s with
  | Some (start, r1) =>
      match dash_at (behind is_space r1) with
      | Some r2 =>
          let r3 := behind is_space r2 in
          match word_at "present" r3 with
          | Some r4 => Some ((start, firstn 7 r3), r4)
          | None =>
              match month_year_at r3 with
              | Some (e, r4) => Some ((start, e), r4)
              | None => None
              end
          end
      | None => None
      end
  | None => None
  end.

Definition date_ranges (s : chars) : list (chars * chars) := scan range_at s.

(** The text of a bound mentions Present, in any case. *)
Fixpoint mentions_present (s : chars) : bool :=
  match word_at "present" s with
  | Some _ => true
  | None =>
      match s with
      | [] => false
      | _ :: s' => mentions_present s'
      end
  end.

(** Sorting by start date: each interval is placed behind those that
    start no later than it does. *)
Fixpoint place (iv : interval) (placed : list interval) : list interval :=
  match placed with
  | [] => [iv]
  | x :: rest => if (fst x <=? fst iv)%Z then x :: place iv rest else iv :: placed
  end.

Definition by_start (l : list interval) : list interval :=
  fold_left (fun placed iv => place iv placed) l [].

(** Merging sorted intervals with a running interval [cur]. *)
Fixpoint merge_run (cur : interval) (rest : list interval) : list interval :=
  match rest with
  | [] => [cur]
  | iv :: rest' =>
      if (fst iv <=? snd cur)%Z
      then merge_run (fst cur, Z.max (snd cur) (snd iv)) rest'
      else cur :: merge_run iv rest'
  end.

Definition merge_sorted (l : list interval) : list interval :=
  match l with
  | [] => []
  | iv :: l' => merge_run iv l'
  end.

(** The whole days from the start of an interval to its end; a day has
    86400000000 microseconds. *)
Definition whole_days (iv : interval) : Z := ((snd iv - fst iv) / 86400000000)%Z.

Definition day_spans (l : list interval) : Z :=
  fold_right (fun iv acc => whole_days iv + acc)%Z 0%Z l.

(** A rounding to one decimal place: the result is a number of tenths,
    and none is nearer to the value. *)
Definition rounds_to_tenths (round1 : Q -> Q) : Prop :=
  forall x : Q,
    exists n : Z,
      (round1 x == n # 10)%Q /\ (- (1 # 20) <= round1 x - x <= 1 # 20)%Q.

Section Experience.
Variable round1 : Q -> Q.
Variable parse : string -> res datetime.
Variable now : datetime.

(** The two bounds of a range as dates: a bound that mentions Present is
    the current date; a range with a bound that does not parse has no
    interval. *)
Definition bounds (r : chars * chars) : option interval :=
  match parse (string_of_list_ascii (fst r)),
        (if mentions_present (snd r) then Ok now else parse (string_of_list_ascii (snd r))) with
  | Ok s, Ok e => Some (s, e)
  | _, _ => None
  end.

(** The interval set: the ranges that parse, in their order. *)
Fixpoint parsed_ranges (rs : list (chars * chars)) : list interval :=
  match rs with
  | [] => []
  | r :: rs' =>
      match bounds r with
      | Some iv => iv :: parsed_ranges rs'
      | None => parsed_ranges rs'
      end
  end.

(** The years before rounding: the greatest explicit number if there is
    one; otherwise the days of the merged date ranges over 365.25, if
    there is a range. *)
Definition years_value (text : string) : option Q :=
  let s := list_ascii_of_string text in
  match map numeric_value (explicit_numbers s) with
  | y :: ys => Some (greatest y ys)
  | [] =>
      match parsed_ranges (date_ranges s) with
      | [] => None
      | (_ :: _) as intervals =>
          Some (inject_Z (day_spans (merge_sorted (by_start intervals))) / (36525 # 100))%Q
      end
  end.

(** The two-tier definition. *)
Definition years_experience (text : string) : option Q :=
  option_map round1 (years_value text).
End Experience.

(** *** Skill extractor *)

(** After a header phrase: blanks, a colon or hyphen, blanks, and then
    the span, which is all that follows. *)
Definition span_after_sep (s : chars) : option chars :=
  match lstrip s with
  | c :: s' =>
      if one_of ":-" c
      then match lstrip s' with
           | [] => None
           | (_ :: _) as span => Some span
           end
      else None
  | [] => None
  end.

Fixpoint header_span (kws : list string) (s : chars) : option chars :=
  match kws with
  | [] => None
  | kw :: kws' =>
      match strip_prefix_i (list_ascii_of_string kw) s with
      | Some rest =>
          match span_after_sep rest with
          | Some span => Some span
          | None => header_span kws' s
          end
      | None => header_span kws' s
      end
  end.

(** The span of the leftmost header of the text. *)
Fixpoint first_header_span (s : chars) : option chars :=
  match header_span header_keywords s with
  | Some span => Some span
  | None =>
      match s with
      | [] => None
      | _ :: s' => first_header_span s'
      end
  end.

(** The trimmed, non-empty pieces between commas and semicolons. *)
Definition tokens (span : chars) : list string :=
  map string_of_list_ascii
      (List.filter (fun p => match p with [] => false | _ :: _ => true end)
              (map strip (split_on (one_of ",;") span []))).

Definition skills_after_first_header (text : string) : gset string :=
  match first_header_span (normalize (list_ascii_of_string text)) with
  | Some span => list_to_set (tokens span)
  | None => ∅
  end.

(** The text of the specification's skill example; its two lines are
    separated by a newline. *)
Definition skills_sample : string :=
  String.append "Technical Skills: Python, Go; Rust" (String "010"%char "Other text").

(** *** Concrete stand-ins for the library functions *)

(** [round(x, 1)] on an exact value: to the nearest tenth, a tie to the
    even one.  Python decides a tie on the binary value of the float,
    which is seldom a tie; on the exact value, as here, 0.15 is one. *)
Definition py_round1 (x : Q) : Q :=
  let t := (10 * Qnum x)%Z in
  let b := Zpos (Qden x) in
  let q := (t / b)%Z in
  let r := (t mod b)%Z in
  let n := if (2 * r <? b)%Z then q
           else if (b <? 2 * r)%Z then (q + 1)%Z
           else if Z.even q then q else (q + 1)%Z in
  Qred (n # 10).

(** Days from 1970-01-01 to the civil date [y]-[m]-[d]. *)
Definition days_from_civil (y m d : Z) : Z :=
  let y' := (if m <=? 2 then y - 1 else y)%Z in
  let era := (y' / 400)%Z in
  let yoe := (y' - era * 400)%Z in
  let mp := ((m + 9) mod 12)%Z in
  let doy := ((153 * mp + 2) / 5 + d - 1)%Z in
  let doe := (yoe * 365 + yoe / 4 - yoe / 100 + doy)%Z in
  (era * 146097 + doe - 719468)%Z.

Definition month_names : list (string * Z) :=
  [ ("jan", 1); ("january", 1); ("feb", 2); ("february", 2); ("mar", 3); ("march", 3);
    ("apr", 4); ("april", 4); ("may", 5); ("jun", 6); ("june", 6); ("jul", 7);
    ("july", 7); ("aug", 8); ("august", 8); ("sep", 9); ("sept", 9); ("september", 9);
    ("oct", 10); ("october", 10); ("nov", 11); ("november", 11); ("dec", 12);
    ("december", 12) ]%Z.

Fixpoint month_number (name : string) (tbl : list (string * Z)) : option Z :=
  match tbl with
  | [] => None
  | (n, m) :: tbl' => if String.eqb n name then Some m else month_number name tbl'
  end.

(** [dateutil.parser.parse] on an English month name and a year, as
    the date pattern captures them: midnight of a day of that month,
    here the first (dateutil takes the day of the current date, the same
    for both bounds of a range); any other text is a [ParserError] here
    (dateutil also reads names of week days and skips a few connecting
    words). *)
Definition parse_month_year (s : string) : res datetime :=
  let cs := list_ascii_of_string s in
  let name := List.filter is_alpha_ascii cs in
  let year := List.filter is_digit cs in
  match month_number (string_of_list_ascii (lower_chars name)) month_names with
  | Some m =>
      if (length name + length year <? length (remove_ws (List.filter (fun c => negb (Ascii.eqb c "."%char)) cs)))%nat
      then Raise ParserError
      else Ok (days_from_civil (int_of_digits year) m 1 * us_per_day)%Z
  | None => Raise ParserError
  end.

End Ref.

(** ** Loop invariants *)

Module Inv.
Import PyStr Re Py Utils.

(** What the loop of [get_resonant_skill] has established after the
    skills [seen]; [cnt] counts in the lower-cased resume text. *)
Definition loop_inv (cnt : string -> nat) (seen : list string)
    (st : nat * option string) : Prop :=
  (forall s, In s seen -> (cnt s <= fst st)%nat) /\
  match snd st with
  | None => fst st = 0%nat
  | Some r =>
      (0 < fst st)%nat /\
      exists i, nth_error seen i = Some r /\ cnt r = fst st /\
                forall j s, (j < i)%nat -> nth_error seen j = Some s -> (cnt s < fst st)%nat
  end.

(** [a] may come before [b] in a list sorted by [key]. *)
Definition key_le {A K : Type} (key : A -> K) (ltb : K -> K -> bool) (a b : A) : Prop :=
  ltb (key b) (key a) = false.

(** A date range that does not end before it starts. *)
Definition ordered (iv : interval) : Prop := (fst iv <= snd iv)%Z.

(** A text as [normalize] leaves it: the only blank is the space, and a
    space is never the last character. *)
Fixpoint tidy (s : chars) : bool :=
  match s with
  | [] => true
  | c :: s' =>
      if is_space c
      then Ascii.eqb c " "%char && match s' with [] => false | _ :: _ => true end && tidy s'
      else tidy s'
  end.

(** A run of characters none of which is a blank. *)
Definition word (w : chars) : Prop :=
  w <> [] /\ forallb (fun c => negb (is_space c)) w = true.

(** The continuation that ends a match. *)
Definition final : cont := fun rest cs => Some (rest, cs).

(** The loop of a star: [rmatch (Star r1) s cs k] is
    [star_loop r1 k (length s) s cs]. *)
Definition star_loop (r1 : regex) (k : cont) : nat -> chars -> caps -> outcome :=
  fix loop (n : nat) (s : chars) (cs : caps) {struct n} : outcome :=
    match n with
    | O => k s cs
    | S n' =>
        match rmatch r1 s cs
                (fun s1 cs1 =>
                   if (length s1 <? length s)%nat then loop n' s1 cs1 else None) with
        | Some x => Some x
        | None => k s cs
        end
    end.

(** *** The email pattern behind the [@] *)

(** What the matcher leaves behind the last part of the email pattern,
    a dot, blanks and two letters or more, at the head of [s]. *)
Definition tld_end (s : chars) : option chars :=
  match s with
  | c :: v =>
      if Ascii.eqb "."%char c
      then match drop_while is_space v with
           | a :: b :: w =>
               if is_alpha_ascii a && is_alpha_ascii b
               then Some (drop_while is_alpha_ascii w)
               else None
           | _ => None
           end
      else None
  | [] => None
  end.

(** What the matcher leaves behind a domain, from behind its first
    character on: it prefers the later dot. *)
Fixpoint domain_end (u : chars) : option chars :=
  match u with
  | [] => None
  | c :: u' =>
      if is_space c then domain_end u'
      else if email_domain c
           then match domain_end u' with
                | Some r => Some r
                | None => tld_end u
                end
           else None
  end.

(** A character of the class [p] with the blanks behind it. *)
Definition spaced (p : ascii -> bool) : regex := Seq (Chr p) (Star ws).

(** *** The explicit pattern behind its number *)

(** What the matcher leaves behind the rest of a statement of years: a
    plus sign, blanks, the unit, blanks and the suffix. *)
Definition statement_end (s : chars) : option chars :=
  match Ref.unit_at (Ref.behind is_space (snd (Ref.optional (Ascii.eqb "+"%char) s))) with
  | Some r1 =>
      let r2 := Ref.behind is_space r1 in
      Some (match Ref.suffix_at r2 with Some r3 => r3 | None => r2 end)
  | None => None
  end.

(** What is left behind the suffix, or the text itself without one. *)
Definition suffix_rest (s : chars) : chars :=
  match Ref.suffix_at s with Some r => r | None => s end.

(** What the matcher leaves behind the unit, the blanks and the suffix. *)
Definition unit_rest (s : chars) : option chars :=
  match Ref.unit_at s with
  | Some r1 => Some (suffix_rest (Ref.behind is_space r1))
  | None => None
  end.

(** *** The date pattern behind its dash *)

(** The outcome of the second bound, Present or a month and a year, at
    the head of [s]. *)
Definition end_bound (s : chars) (cs : caps) : outcome :=
  match Ref.word_at "present" s with
  | Some r => Some (r, (2%nat, firstn 7 s) :: cs)
  | None =>
      match Ref.month_year_at s with
      | Some (e, r) => Some (r, (2%nat, e) :: cs)
      | None => None
      end
  end.

(** *** The experience extractor with its exceptions resolved *)

(** [float(m)] where it does not raise. *)
Definition float_value (m : chars) : Q := try_except (float_of_chars m) 0%Q.

Section Experience.
Variable round1 : Q -> Q.
Variable parse : string -> res datetime.
Variable now : datetime.

(** What [extract_years_experience] returns, written without [try],
    loop and index. *)
Definition years_unrolled (text : string) : option Q :=
  match map float_value (explicit_matches text) with
  | y :: ys => Some (round1 (Ref.greatest y ys))
  | [] =>
      match collect_intervals parse now (date_matches text) with
      | [] => None
      | (_ :: _) as intervals =>
          let merged := Ref.merge_sorted (sorted fst Z.ltb false intervals) in
          Some (round1 (inject_Z (Ref.day_spans merged) / (36525 # 100))%Q)
      end
  end.
End Experience.

End Inv.

(** ** utils.py: ordinals, chat and session helpers; resumebot.py: keyword input *)

Module Chat.
Import PyStr Re Py Utils.

Definition nl : string := String "010"%char EmptyString.

(** [str(n)] for an integer. *)
Definition str_of_int (n : Z) : string := NilZero.string_of_int (Z.to_int n).

(** [{1: "st", 2: "nd", 3: "rd"}.get(d, "th")]. *)
Definition suffix_of_digit (d : Z) : string :=
  if (d =? 1)%Z then "st"
  else if (d =? 2)%Z then "nd"
  else if (d =? 3)%Z then "rd"
  else "th".

Definition ordinal_suffix (n : Z) : string :=
  if (11 <=? n mod 100)%Z && (n mod 100 <=? 13)%Z then "th"
  else suffix_of_digit (n mod 10).

Definition ordinal (n : Z) : string := String.append (str_of_int n) (ordinal_suffix n).

(** One entry of [st.session_state.chat_history]. *)
Record message : Type := mk_message { sender : string; text : string }.

(** [st.session_state], the keys the helpers use; [None] is an absent
    key.  The elements of [resumes] and [jd_list] and the value of
    [resume] are not looked into by these helpers. *)
Record session (R J : Type) : Type := mk_session {
  matcher_type : option string;
  step : option string;
  chat_history : option (list message);
  resumes : option (list R);
  resume : option (option R);
  jd_list : option (list J)
}.
Arguments mk_session {R J}.
Arguments matcher_type {R J}.
Arguments step {R J}.
Arguments chat_history {R J}.
Arguments resumes {R J}.
Arguments resume {R J}.
Arguments jd_list {R J}.

Section Helpers.
Context {R J : Type}.

Definition set_step (s : string) (st : session R J) : session R J :=
  mk_session (matcher_type st) (Some s) (chat_history st) (resumes st) (resume st)
             (jd_list st).

Definition add_message (sender message : string) (st : session R J) : session R J :=
  let history := match chat_history st with
                 | None => []
                 | Some h => h
                 end in
  mk_session (matcher_type st) (step st) (Some (history ++ [mk_message sender message]))
             (resumes st) (resume st) (jd_list st).

(** [s.strip().lower()]. *)
Definition clean (s : string) : string :=
  lower (string_of_list_ascii (strip (list_ascii_of_string s))).

(** [st.session_state.get("step", "init")]. *)
Definition current_step (st : session R J) : string :=
  match step st with
  | Some s => s
  | None => "init"
  end.

Definition process_chat_input (user_message : string) (st : session R J) : session R J :=
  let current_step := current_step st in
  let user_message_clean := clean user_message in
  let st := add_message "user" user_message st in
  if String.eqb current_step "init" then
    if String.eqb user_message_clean "ready" then
      set_step "resume_upload"
        (add_message "bot"
           "Great! (Step 1) Upload your **Resume** (PDF only) using the widget below. Then type 'continue' in the chat."
           st)
    else add_message "bot" "Please type 'ready' to begin." st
  else if String.eqb current_step "resume_upload" then
    if String.eqb user_message_clean "continue" then
      set_step "jd_choice"
        (add_message "bot"
           (String.append
              "Proceeding to Job Description input. (Step 2) Now, choose your method:"
              (String.append nl
                 "Type 'upload' to upload a JD PDF or 'manual' to enter JD details manually."))
           st)
    else st
  else if String.eqb current_step "jd_choice" then
    if String.eqb user_message_clean "upload" then
      set_step "jd_upload"
        (add_message "bot"
           "You chose JD upload. (Step 2A) Please upload your Job Description (PDF only) using the widget below. Then type 'continue' when done."
           st)
    else if String.eqb user_message_clean "manual" then
      set_step "jd_manual"
        (add_message "bot"
           "You chose manual JD input. (Step 2B) Enter the JD details using the fields below. Then type 'continue' when ready."
           st)
    else add_message "bot" "Invalid input. Please type 'upload' or 'manual'." st
  else if String.eqb current_step "jd_upload" || String.eqb current_step "jd_manual" then
    if String.eqb user_message_clean "continue" then
      set_step "score"
        (add_message "bot"
           "Proceeding to Score Calculation. (Step 3) Your scores will be computed shortly."
           st)
    else add_message "bot" "Please type 'continue' when you have completed the JD input." st
  else if String.eqb current_step "score" then
    add_message "bot" "To recalculate or restart, please use the buttons provided below." st
  else st.

(** [init_session_state]; [choice] is what [st.sidebar.radio] returns,
    the option the user has selected. *)
Definition init_session_state (choice : string) (st : session R J) : session R J :=
  let st := mk_session (Some choice) (step st) (chat_history st) (resumes st) (resume st)
                       (jd_list st) in
  let st := match step st with
            | None => set_step "init" st
            | Some _ => st
            end in
  let st := match chat_history st with
            | None =>
                add_message "bot" "Hi, I am the Resume-JD Analyser. (Type 'ready' to proceed.)"
                  (mk_session (matcher_type st) (step st) (Some []) (resumes st) (resume st)
                              (jd_list st))
            | Some _ => st
            end in
  if match matcher_type st with
     | Some m => String.eqb m "Multi-Resume Matcher"
     | None => false
     end
  then match resumes st with
       | None => mk_session (matcher_type st) (step st) (chat_history st) (Some [])
                            (resume st) (jd_list st)
       | Some _ => st
       end
  else
    let st := match resume st with
              | None => mk_session (matcher_type st) (step st) (chat_history st) (resumes st)
                                   (Some None) (jd_list st)
              | Some _ => st
              end in
    match jd_list st with
    | None => mk_session (matcher_type st) (step st) (chat_history st) (resumes st)
                         (resume st) (Some [])
    | Some _ => st
    end.

Definition fallback_instructions : string := "Follow the instructions in the chat.".

Definition get_instructions (st : session R J) : string :=
  let step := current_step st in
  let mode := match matcher_type st with
              | Some m => m
              | None => "Multi-Resume Matcher"
              end in
  let multi := String.eqb mode "Multi-Resume Matcher" in
  if String.eqb step "init" then
    String.append "Step 0: Start" (String.append nl "Type 'ready' in the chat box to begin.")
  else if String.eqb step "resume_upload" then
    if multi then
      String.append "Step 1: Resume Upload"
        (String.append nl
           (String.append "Upload your Resume(s) (PDF only) using the widget below."
              (String.append nl "Then type 'continue' in the chat.")))
    else
      String.append "Step 1: Resume Upload"
        (String.append nl
           (String.append "Upload your Resume (PDF only) using the widget below."
              (String.append nl "Then type 'continue' in the chat.")))
  else if String.eqb step "jd_choice" then
    String.append "Step 2: Job Description Input"
      (String.append nl
         (String.append "Choose your method:"
            (String.append nl
               "Type 'upload' to upload a JD PDF or 'manual' for manual JD input.")))
  else if String.eqb step "jd_upload" then
    if multi then
      String.append "Step 2A: JD Upload"
        (String.append nl
           (String.append "Upload your Job Description (PDF only) using the widget below."
              (String.append nl "Then type 'continue' in the chat.")))
    else
      String.append "Step 2A: JD Upload"
        (String.append nl
           (String.append "Upload your Job Description(s) (PDF only) using the widget below."
              (String.append nl "Then type 'continue' in the chat.")))
  else if String.eqb step "jd_manual" then
    if multi then
      String.append "Step 2B: Manual JD Input"
        (String.append nl
           (String.append "Enter JD key skills and required years using the fields below."
              (String.append nl "Click 'Save Manual JD Input' and type 'continue'.")))
    else
      String.append "Step 2B: Manual JD Input"
        (String.append nl
           (String.append
              "Enter your Job Description details below. You can add multiple JDs."
              (String.append nl "Click 'Add JD' after each entry, then type 'continue'.")))
  else if String.eqb step "score" then
    if multi then
      String.append "Step 3: Score Calculation"
        (String.append nl
           (String.append
              "Your Resume(s) and JD details will be compared to compute similarity scores."
              (String.append nl
                 "The ranking (Best Fit to Worst Fit) will be displayed below.")))
    else
      String.append "Step 3: Score Calculation"
        (String.append nl
           (String.append
              "Your Resume and Job Description details will be compared to compute similarity scores."
              (String.append nl
                 "The ranking (Best Fit to Worst Fit) will be displayed below.")))
  else fallback_instructions.

End Helpers.

(** *** resumebot.py: key skills typed by the user *)

Definition is_comma (c : ascii) : bool := Ascii.eqb c ","%char.

(** [[skill.strip() for skill in keyword.split(",") if skill.strip()]]. *)
Definition split_keyword (keyword : chars) : list chars :=
  List.filter (fun p => negb (Nat.eqb (length p) 0))
              (map strip (split_on is_comma keyword [])).

(** The loop that fills [processed_keywords]. *)
Definition process_keywords (inputs : list chars) : list chars :=
  flat_map split_keyword inputs.

(** [", ".join(processed_keywords) if processed_keywords else ""]. *)
Definition jd_text_of (processed_keywords : list chars) : chars :=
  match processed_keywords with
  | [] => []
  | _ :: _ => join [","%char; " "%char] processed_keywords
  end.

(** [override if override else current]. *)
Definition used_jd_skills {A : Type} (override current : list A) : list A :=
  match override with
  | [] => current
  | _ :: _ => override
  end.

(** *** Reading the workflow *)

(** The place of a step in the workflow; [None] for any other text. *)
Definition step_index (s : string) : option nat :=
  if String.eqb s "init" then Some 0%nat
  else if String.eqb s "resume_upload" then Some 1%nat
  else if String.eqb s "jd_choice" then Some 2%nat
  else if String.eqb s "jd_upload" || String.eqb s "jd_manual" then Some 3%nat
  else if String.eqb s "score" then Some 4%nat
  else None.

(** The six categories, worst to best; any other text counts as worst. *)
Definition category_level (c : string) : nat :=
  if String.eqb c "Best" then 5
  else if String.eqb c "Better" then 4
  else if String.eqb c "Good" then 3
  else if String.eqb c "Average" then 2
  else if String.eqb c "Bad" then 1
  else 0.

(** A keyword as the input loop leaves it: not empty, no comma, no blank
    at either end. *)
Definition tidy_keyword (k : chars) : Prop :=
  k <> [] /\ forallb (fun c => negb (is_comma c)) k = true
  /\ lstrip k = k /\ lstrip (rev k) = rev k.

End Chat.

(** ** Shapes of results *)

Module Shape.
Import PyStr Py.

(** The interval [m] contains the interval [iv]. *)
Definition covers (m iv : interval) : Prop :=
  (fst m <= fst iv)%Z /\ (snd iv <= snd m)%Z.

(** [a] ends before [b] starts. *)
Definition apart (a b : interval) : Prop := (snd a < fst b)%Z.

(** No blank at either end. *)
Definition trimmed (k : chars) : Prop := lstrip k = k /\ lstrip (rev k) = rev k.

End Shape.

(** ** Runs of the chat *)

Module Runs.
Import Chat.

(** The user messages of a session, processed one after the other. *)
Definition run {R J : Type} (messages : list string) (st : session R J) : session R J :=
  fold_left (fun st m => process_chat_input m st) messages st.

(** The chat so far; an absent history is empty. *)
Definition history {R J : Type} (st : session R J) : list message :=
  match chat_history st with
  | None => []
  | Some h => h
  end.

(** The labels of the first [n] places of a ranking:
    [ordinal(i) for i in range(1, n + 1)]. *)
Definition place_labels (n : nat) : list string :=
  map (fun i => ordinal (Z.of_nat i)) (seq 1 n).

(** Case analysis on the step a session is in. *)
Inductive step_case (s : string) : Prop :=
| at_init : s = "init" -> step_case s
| at_resume_upload : s = "resume_upload" -> step_case s
| at_jd_choice : s = "jd_choice" -> step_case s
| at_jd_upload : s = "jd_upload" -> step_case s
| at_jd_manual : s = "jd_manual" -> step_case s
| at_score : s = "score" -> step_case s
| at_other : step_index s = None -> step_case s.

End Runs.

(** ** resumebotai.py: reading the answers of the language model *)

Module Ai.
Import PyStr Re Py Utils Chat.

(** The line boundaries of [str.splitlines] below code point 256. *)
Definition is_linebreak (c : ascii) : bool :=
  in_range 10 13 c || in_range 28 30 c || (code c =? 133)%N.

(** [s.splitlines()]; [cur] is the line being read.  A carriage return
    followed by a line feed is one boundary. *)
Fixpoint splitlines (s cur : chars) : list chars :=
  match s with
  | [] => match cur with [] => [] | _ :: _ => [cur] end
  | c :: s' =>
      if is_linebreak c
      then cur :: match s' with
                  | d :: s'' =>
                      if Ascii.eqb c "013"%char && Ascii.eqb d "010"%char
                      then splitlines s'' []
                      else splitlines s' []
                  | [] => splitlines s' []
                  end
      else splitlines s' (cur ++ [c])
  end.

(** [[line.strip() for line in result.strip().splitlines() if line.strip()]]. *)
Definition lines_of (result : chars) : list chars :=
  List.filter (fun l => negb (Nat.eqb (length l) 0))
              (map strip (splitlines (strip result) [])).

Definition bar : ascii := "|"%char.
Definition is_bar (c : ascii) : bool := Ascii.eqb c bar.

(** \d+(\.\d+)?\|.+\|.*  (the pattern between its anchors) *)
Definition summary_pattern : regex :=
  seqs [ Plus digit;
         Opt (Grp 1 (Seq (lit ".") (Plus digit)));
         lit bar;
         Plus dot;
         lit bar;
         Star dot ].

(** The final [$]: the end of the text, or a last newline. *)
Definition at_end : cont :=
  fun rest cs =>
    match rest with
    | [] => Some (rest, cs)
    | [c] => if Ascii.eqb c "010"%char then Some (rest, cs) else None
    | _ :: _ :: _ => None
    end.

(** [re.match(r'^\d+(\.\d+)?\|.+\|.*$', line)] is not [None]. *)
Definition is_summary (line : chars) : bool :=
  match rmatch summary_pattern line [] at_end with
  | Some _ => true
  | None => false
  end.

(** The loop over [reversed(lines)]; [None] is the empty [summary_line]. *)
Definition summary_line (lines : list chars) : option chars :=
  find is_summary (rev lines).

Definition newline : chars := ["010"%char].

(** What [analyze_similarity] makes of the answer [result] of the model:
    score, category, resonant skill and explanation. *)
Definition read_answer (result : chars) : Q * chars * option chars * chars :=
  let lines := lines_of result in
  let summary := summary_line lines in
  let explanation := match summary with
                     | Some _ => join newline (removelast lines)
                     | None => join newline lines
                     end in
  let parts := match summary with
               | Some line => split_on is_bar line []
               | None => []
               end in
  match parts with
  | p0 :: p1 :: p2 :: _ =>
      let score := try_except (float_of_chars (strip p0)) 0%Q in
      let category := strip p1 in
      let resonant_skill := match strip p2 with
                            | [] => None
                            | _ :: _ => Some (strip p2)
                            end in
      (score, category, resonant_skill, explanation)
  | _ => (0%Q, list_ascii_of_string "Worst", None, explanation)
  end.

Section Model.
(** [groq_call]: the answer of the language model to a prompt. *)
Variable groq_call : string -> string.

Definition analyze_similarity (resume_text jd_text : string) (jd_key_skills : list string)
    (resume_years jd_years : string) : Q * chars * option chars * chars :=
  let skills_str :=
    string_of_list_ascii
      (join [","%char; " "%char] (map list_ascii_of_string jd_key_skills)) in
  let prompt :=
    String.concat ""
      [ "You are a resume matching expert. Evaluate the following resume and job description in detail."; nl;
        "Resume text: "; resume_text; nl;
        "Job description text: "; jd_text; nl;
        "Job description key skills: "; skills_str; nl;
        "Candidate's years of experience: "; resume_years; nl;
        "Required years of experience: "; jd_years; nl;
        "Provide a summarized reasoning covering key skills overlap, experience matching, text similarity, strengths and weaknesses, and suggestions for improvement."; nl;
        "Then, on a new line, output the final summary in the following format:"; nl;
        "<score>|<category>|<resonant_skill>"; nl;
        "where <score> is a number between 0 and 100 representing the match percentage, ";
        "<category> is one of Worst, Bad, Average, Good, Best, and <resonant_skill> is the most relevant key skill." ] in
  read_answer (list_ascii_of_string (groq_call prompt)).

(** The skill and email extractors of this module:
    [[s.strip() for s in result.split(",") if s.strip()]]. *)
Definition extract_skills_from_text (text : string) : list chars :=
  let prompt :=
    String.append
      "Extract all skills from the following resume text. Return a comma-separated list of one or two word skills after removing adjectives, adverbs, and generic recruiter terms. Text: "
      text in
  split_keyword (list_ascii_of_string (groq_call prompt)).

Definition extract_emails (text : string) : list chars :=
  let prompt :=
    String.concat ""
      [ "Extract email addresses from the following text: "; text;
        ". Return them as a comma-separated list. If none found, return an empty list." ] in
  split_keyword (list_ascii_of_string (groq_call prompt)).
End Model.

(** The decimal at the head of a summary line. *)
Definition decimal_pattern : regex :=
  Seq (Plus digit) (Opt (Seq (lit ".") (Plus digit))).

Definition no_newline (c : ascii) : bool := negb (Ascii.eqb c "010"%char).

(** A line of the form number|text|rest: a decimal, a bar, a non-empty
    text, a bar and any rest, the text and the rest without newline; a
    last newline may follow. *)
Definition summary_shaped (line : chars) : Prop :=
  exists num x rest tail,
    line = num ++ bar :: x ++ bar :: rest ++ tail
    /\ Ref.matches decimal_pattern num []
    /\ x <> []
    /\ forallb no_newline x = true
    /\ forallb no_newline rest = true
    /\ (tail = [] \/ tail = ["010"%char]).

End Ai.

(** ** Facts about the matcher *)

Module EngineFacts.
Import PyStr Re Ref.

Lemma firstn_app_minus {A : Type} (pre s1 : list A) :
  firstn (length (pre ++ s1) - length s1) (pre ++ s1) = pre.
Proof.
  rewrite length_app.
  replace (length pre + length s1 - length s1)%nat with (length pre) by lia.
  rewrite firstn_app, Nat.sub_diag, firstn_all. simpl. apply app_nil_r.
Qed.

(** Whatever the matcher accepts is a word of the pattern. *)
Lemma rmatch_sound (r : regex) :
  forall s cs k x,
    rmatch r s cs k = Some x ->
    exists pre added s1,
      s = pre ++ s1 /\ matches r pre added /\ k s1 (added ++ cs) = Some x.
Proof.
  induction r as [ | p | r1 IH1 r2 IH2 | r1 IH1 r2 IH2 | r1 IH1 | i r1 IH1 ];
    intros s cs k x H; simpl in H.
  - exists [], [], s. repeat split; [constructor | exact H].
  - destruct s as [ | c s']; [discriminate | ].
    destruct (p c) eqn:Hp; [ | discriminate].
    exists [c], [], s'. repeat split; [now constructor | exact H].
  - apply IH1 in H as (a & ca & s1 & -> & Ha & H).
    apply IH2 in H as (b & cb & s2 & -> & Hb & H).
    exists (a ++ b), (cb ++ ca), s2.
    rewrite <- !app_assoc. repeat split; [now constructor | exact H].
  - destruct (rmatch r1 s cs k) eqn:E1.
    + injection H as ->. apply IH1 in E1 as (a & ca & s1 & -> & Ha & H).
      exists a, ca, s1. repeat split; [now apply M_alt_l | exact H].
    + apply IH2 in H as (a & ca & s1 & -> & Ha & H).
      exists a, ca, s1. repeat split; [now apply M_alt_r | exact H].
  - revert H. generalize (length s) as n. intros n. revert s cs.
    induction n as [ | n IHn]; intros s cs H.
    + exists [], [], s. repeat split; [constructor | exact H].
    + match type of H with
      | match ?m with _ => _ end = _ => destruct m eqn:E1
      end.
      * injection H as ->. apply IH1 in E1 as (a & ca & s1 & -> & Ha & H).
        destruct (length s1 <? length (a ++ s1))%nat; [ | discriminate].
        apply IHn in H as (b & cb & s2 & -> & Hb & H).
        exists (a ++ b), (cb ++ ca), s2.
        rewrite <- !app_assoc. repeat split; [now constructor | exact H].
      * exists [], [], s. repeat split; [constructor | exact H].
  - apply IH1 in H as (a & ca & s1 & -> & Ha & H).
    rewrite firstn_app_minus in H.
    exists a, ((i, a) :: ca), s1. repeat split; [now constructor | exact H].
Qed.

Lemma match_at_sound r s rest cs :
  match_at r s = Some (rest, cs) ->
  exists pre, s = pre ++ rest /\ matches r pre cs.
Proof.
  intros H. apply rmatch_sound in H as (pre & added & s1 & -> & Hm & H).
  injection H as <- <-. rewrite app_nil_r. now exists pre.
Qed.

Lemma substring_tail sub c s : substring sub s -> substring sub (c :: s).
Proof. intros (pre & post & ->). now exists (c :: pre), post. Qed.

(** Every match reported by [finditer] is a word of the pattern,
    together with its groups, and occurs in the text. *)
Lemma finditer_sound r s :
  forall skip m cs,
    In (m, cs) (finditer r s skip) -> matches r m cs /\ substring m s.
Proof.
  induction s as [ | c s IH]; intros skip m cs Hin.
  - destruct skip as [ | k]; cbn [finditer] in Hin; [ | contradiction].
    destruct (match_at r []) as [[rest cs'] | ] eqn:E; [ | contradiction].
    destruct Hin as [Heq | []]. injection Heq as <- <-.
    apply match_at_sound in E as (pre & E & Hm).
    symmetry in E. apply app_eq_nil in E as [-> ->]. simpl.
    split; [exact Hm | now exists [], []].
  - destruct skip as [ | k]; cbn [finditer] in Hin.
    + destruct (match_at r (c :: s)) as [[rest cs'] | ] eqn:E.
      * destruct Hin as [Heq | Hin].
        -- injection Heq as <- <-.
           apply match_at_sound in E as (pre & E & Hm).
           change (S (length s)) with (length (c :: s)).
           rewrite E, firstn_app_minus.
           split; [exact Hm | now exists [], rest].
        -- apply IH in Hin as [Hm Hs]. split; [exact Hm | now apply substring_tail].
      * apply IH in Hin as [Hm Hs]. split; [exact Hm | now apply substring_tail].
    + apply IH in Hin as [Hm Hs]. split; [exact Hm | now apply substring_tail].
Qed.

Lemma in_order_skip c ms s : in_order ms s -> in_order ms (c :: s).
Proof.
  intros H. destruct H as [s | pre m ms rest H]; [constructor | ].
  change (c :: pre ++ m ++ rest) with ((c :: pre) ++ m ++ rest). now constructor.
Qed.

(** The matches reported by [finditer] lie one after the other in the
    text, after the characters still to be skipped. *)
Lemma finditer_in_order r s :
  forall skip, in_order (map fst (finditer r s skip)) (skipn skip s).
Proof.
  induction s as [ | c s IH]; intros skip.
  - destruct skip as [ | k]; cbn [finditer]; [ | constructor].
    destruct (match_at r []) as [[rest cs] | ] eqn:E; [ | constructor].
    apply match_at_sound in E as (pre & E & _).
    symmetry in E. apply app_eq_nil in E as [-> ->].
    apply (in_order_cons [] [] [] []). constructor.
  - destruct skip as [ | k]; cbn [finditer]; [ | apply IH].
    destruct (match_at r (c :: s)) as [[rest cs] | ] eqn:E.
    + apply match_at_sound in E as (pre & E & _).
      cbn [map fst skipn].
      destruct pre as [ | a pre]; cbn [app] in E.
      * subst rest. rewrite Nat.sub_diag. cbn [firstn Nat.sub].
        apply (in_order_cons [] [] _ (c :: s)).
        apply in_order_skip, (IH 0%nat).
      * injection E as <- ->.
        change (c :: pre ++ rest) with ((c :: pre) ++ rest).
        rewrite firstn_app_minus.
        replace (length ((c :: pre) ++ rest) - length rest - 1)%nat with (length pre)
          by (cbn [length app]; rewrite length_app; lia).
        apply (in_order_cons [] (c :: pre) _ rest).
        specialize (IH (length pre)).
        rewrite skipn_app, skipn_all, Nat.sub_diag in IH. exact IH.
    + apply in_order_skip, (IH 0%nat).
Qed.

End EngineFacts.

Module GreedyFacts.
Import PyStr Re Py Ref.

(** A star over a character class takes one character at a time. *)
Lemma rmatch_star_chr p s cs k :
  rmatch (Star (Chr p)) s cs k =
  match s with
  | c :: s' =>
      if p c
      then match rmatch (Star (Chr p)) s' cs k with
           | Some x => Some x
           | None => k s cs
           end
      else k s cs
  | [] => k [] cs
  end.
Proof.
  destruct s as [ | c s']; [reflexivity | ].
  cbn [rmatch length]. destruct (p c); [ | reflexivity].
  assert (Hlt : (length s' <? S (length s'))%nat = true) by (apply Nat.ltb_lt; lia).
  rewrite Hlt. reflexivity.
Qed.

(** Greedy: if the continuation accepts what is left after the longest
    run, that is the answer. *)
Lemma star_chr_greedy p s cs k x :
  k (drop_while p s) cs = Some x ->
  rmatch (Star (Chr p)) s cs k = Some x.
Proof.
  induction s as [ | c s IH]; intros H; rewrite rmatch_star_chr; [exact H | ].
  simpl in H. destruct (p c); [ | exact H].
  now rewrite (IH H).
Qed.

(** No backtracking into the run when the continuation cannot start
    with a character of the class. *)
Lemma star_chr_stop p s cs k :
  (forall c s', p c = true -> k (c :: s') cs = None) ->
  rmatch (Star (Chr p)) s cs k = k (drop_while p s) cs.
Proof.
  intros Hk. induction s as [ | c s IH]; rewrite rmatch_star_chr; [reflexivity | ].
  cbn [drop_while]. destruct (p c) eqn:Hp; [ | reflexivity].
  rewrite IH. destruct (k (drop_while p s) cs) eqn:E; [reflexivity | ].
  now apply Hk.
Qed.

Lemma drop_while_all p s : forallb p s = true -> drop_while p s = [].
Proof.
  induction s as [ | c s IH]; simpl; [reflexivity | ].
  destruct (p c); simpl; [exact IH | discriminate].
Qed.

Lemma span_digits_snd s : snd (span_digits s) = drop_while is_digit s.
Proof.
  induction s as [ | c s IH]; simpl; [reflexivity | ].
  destruct (is_digit c); [ | reflexivity].
  destruct (span_digits s) as [ds rest]. exact IH.
Qed.

Lemma span_digits_app s : fst (span_digits s) ++ snd (span_digits s) = s.
Proof.
  induction s as [ | c s IH]; simpl; [reflexivity | ].
  destruct (is_digit c); [ | reflexivity].
  destruct (span_digits s) as [ds rest]. simpl in *. now rewrite IH.
Qed.

Lemma span_digits_digits s : forallb is_digit (fst (span_digits s)) = true.
Proof.
  induction s as [ | c s IH]; simpl; [reflexivity | ].
  destruct (is_digit c) eqn:Hc; [ | reflexivity].
  destruct (span_digits s) as [ds rest]. simpl in *. now rewrite Hc.
Qed.

(** [\d+] at the head of a text. *)
Lemma match_at_digits s :
  match_at (Plus digit) s =
  match s with
  | c :: s' => if is_digit c then Some (drop_while is_digit s', []) else None
  | [] => None
  end.
Proof.
  unfold match_at, Plus, digit. cbn [rmatch].
  destruct s as [ | c s']; [reflexivity | ].
  destruct (is_digit c); [ | reflexivity].
  now apply star_chr_greedy.
Qed.

(** [re.search(r"\d+", s)] finds the first maximal run of digits. *)
Lemma search_digits s :
  search (Plus digit) s =
  match first_digit_run s with
  | [] => None
  | (_ :: _) as m => Some (m, [])
  end.
Proof.
  induction s as [ | c s IH]; [reflexivity | ].
  cbn [search first_digit_run]. rewrite match_at_digits.
  destruct (is_digit c); [ | exact IH].
  f_equal. f_equal.
  rewrite <- span_digits_snd.
  pose proof (EngineFacts.firstn_app_minus (c :: fst (span_digits s)) (snd (span_digits s))) as E.
  cbn [app] in E. rewrite span_digits_app in E. exact E.
Qed.

Lemma first_digit_run_digits s : forallb is_digit (first_digit_run s) = true.
Proof.
  induction s as [ | c s IH]; simpl; [reflexivity | ].
  destruct (is_digit c) eqn:Hc; [ | exact IH].
  simpl. rewrite Hc. apply span_digits_digits.
Qed.

Lemma digit_value_nonneg c : is_digit c = true -> (0 <= digit_value c <= 9)%Z.
Proof.
  unfold is_digit, in_range, digit_value. intros H.
  apply andb_true_iff in H as [H1 H2].
  apply N.leb_le in H1, H2. lia.
Qed.

Lemma fold_digits_nonneg ds :
  forall acc,
    (0 <= acc)%Z -> forallb is_digit ds = true ->
    (0 <= fold_left (fun a c => (10 * a + digit_value c)%Z) ds acc)%Z.
Proof.
  induction ds as [ | c ds IH]; intros acc Hacc H; simpl; [exact Hacc | ].
  simpl in H. apply andb_true_iff in H as [Hc H].
  apply IH; [ | exact H]. pose proof (digit_value_nonneg c Hc). lia.
Qed.

Lemma int_of_digits_nonneg ds :
  forallb is_digit ds = true -> (0 <= int_of_digits ds)%Z.
Proof. intros H. apply fold_digits_nonneg; [lia | exact H]. Qed.

End GreedyFacts.

Module ScorerFacts.
Import PyStr Re Py Utils Ref GreedyFacts.

Lemma years_of_first_integer s : years_of s = first_integer s.
Proof.
  unfold years_of, first_int, first_integer. rewrite search_digits.
  destruct (first_digit_run (list_ascii_of_string s)); reflexivity.
Qed.

Lemma first_integer_nonneg s : (0 <= first_integer s)%Z.
Proof. apply int_of_digits_nonneg, first_digit_run_digits. Qed.

Lemma exp_score_component c r : exp_score c r = experience_component c r.
Proof.
  unfold exp_score, experience_component.
  destruct (r =? 0)%Z; [reflexivity | ]. simpl.
  rewrite Z.geb_leb. reflexivity.
Qed.

Lemma sum_nat_shift l : forall a, fold_left Nat.add l a = (a + list_sum l)%nat.
Proof.
  induction l as [ | x l IH]; intros a; simpl; [lia | ]. rewrite IH. lia.
Qed.

Lemma sum_nat_list_sum l : sum_nat l = list_sum l.
Proof. unfold sum_nat. now rewrite sum_nat_shift. Qed.

Lemma filter_nil_forallb {A : Type} (f : A -> bool) l :
  (length (List.filter f l) =? 0)%nat = forallb (fun x => negb (f x)) l.
Proof.
  induction l as [ | x l IH]; simpl; [reflexivity | ].
  destruct (f x); simpl; [reflexivity | exact IH].
Qed.

Lemma forallb_map_comp {A B : Type} (f : B -> bool) (g : A -> B) l :
  forallb f (map g l) = forallb (fun x => f (g x)) l.
Proof. induction l as [ | x l IH]; simpl; [reflexivity | now rewrite IH]. Qed.

Lemma forallb_pointwise {A : Type} (f g : A -> bool) l :
  (forall x, f x = g x) -> forallb f l = forallb g l.
Proof. intros E. induction l as [ | x l IH]; simpl; [reflexivity | now rewrite E, IH]. Qed.

(** The scorer, component by component. *)
Lemma score_by_components resume_text jd_text skills ry jy :
  calculate_similarity_score resume_text jd_text skills ry jy =
  if zero_evidence resume_text skills then 0%Q
  else Qmin ((4 # 10) * experience_component (first_integer ry) (first_integer jy)
             + (6 # 10) * skills_component resume_text skills)%Q 100%Q.
Proof.
  unfold calculate_similarity_score, zero_evidence.
  rewrite !years_of_first_integer, exp_score_component, filter_nil_forallb.
  rewrite length_map, forallb_map_comp, sum_nat_list_sum, map_map.
  unfold occurrences, skills_component.
  rewrite (forallb_pointwise _ (fun s => (count (lower resume_text) (lower s) =? 0)%nat))
    by (intros x; now destruct (count (lower resume_text) (lower x))).
  destruct skills as [ | s skills]; reflexivity.
Qed.

Lemma Qratio_nonneg (a b : Z) :
  (0 <= a)%Z -> (0 <= b)%Z -> (0 <= inject_Z a / inject_Z b * 100)%Q.
Proof.
  intros Ha Hb. unfold Qle, Qdiv, Qmult, Qinv, inject_Z.
  destruct b as [ | p | p]; simpl; try lia.
Qed.

Lemma Qratio_le_100 (a b : Z) :
  (0 <= a)%Z -> (a < b)%Z -> (inject_Z a / inject_Z b * 100 <= 100)%Q.
Proof.
  intros Ha Hb. unfold Qle, Qdiv, Qmult, Qinv, inject_Z.
  destruct b as [ | p | p]; simpl; try lia.
Qed.

Lemma experience_component_bounds c r :
  (0 <= c)%Z -> (0 <= r)%Z -> (0 <= experience_component c r <= 100)%Q.
Proof.
  intros Hc Hr. unfold experience_component.
  destruct (r =? 0)%Z; [split; discriminate | ].
  destruct (c >=? r)%Z eqn:E; [split; discriminate | ].
  rewrite Z.geb_leb in E. apply Z.leb_gt in E.
  split; [now apply Qratio_nonneg | now apply Qratio_le_100].
Qed.

Lemma skills_component_nonneg text skills : (0 <= skills_component text skills)%Q.
Proof.
  unfold skills_component. destruct skills as [ | s skills]; [discriminate | ].
  apply Qratio_nonneg; lia.
Qed.

Lemma Qmin_le_r a b : (Qmin a b <= b)%Q.
Proof.
  unfold Qmin. destruct (Qle_bool a b) eqn:E; [now apply Qle_bool_iff | apply Qle_refl].
Qed.

Lemma Qmin_nonneg a b : (0 <= a)%Q -> (0 <= b)%Q -> (0 <= Qmin a b)%Q.
Proof. intros Ha Hb. unfold Qmin. now destruct (Qle_bool a b). Qed.

(** *** Occurrence counts and substrings *)

Lemma starts_with_prefix p : forall s, starts_with p s = true -> exists post, s = p ++ post.
Proof.
  induction p as [ | a p IH]; intros s H; [now exists s | ].
  destruct s as [ | b s]; [discriminate | ]. simpl in H.
  apply andb_true_iff in H as [Hab H]. apply Ascii.eqb_eq in Hab as ->.
  destruct (IH s H) as [post ->]. now exists post.
Qed.

Lemma starts_with_app p post : starts_with p (p ++ post) = true.
Proof.
  induction p as [ | a p IH]; [reflexivity | ].
  simpl. now rewrite Ascii.eqb_refl, IH.
Qed.

Lemma count_skip_substring sub s :
  forall skip, (0 < count_skip sub s skip)%nat -> substring sub s.
Proof.
  induction s as [ | c s IH]; intros skip H; simpl in H; [lia | ].
  destruct skip as [ | k].
  - destruct (starts_with sub (c :: s)) eqn:E.
    + destruct (starts_with_prefix _ _ E) as [post ->]. now exists [], post.
    + apply EngineFacts.substring_tail. now apply (IH 0%nat).
  - apply EngineFacts.substring_tail. now apply (IH k).
Qed.

Lemma substring_count_skip sub pre post :
  sub <> [] -> (0 < count_skip sub (pre ++ sub ++ post) 0)%nat.
Proof.
  intros Hne. induction pre as [ | c pre IH].
  - destruct sub as [ | a sub]; [congruence | ].
    cbn [app count_skip].
    change (a :: sub ++ post) with ((a :: sub) ++ post).
    rewrite starts_with_app. lia.
  - cbn [app count_skip]. destruct (starts_with sub (c :: pre ++ sub ++ post)); [lia | exact IH].
Qed.

(** [s.count(sub) > 0] exactly when [sub] occurs in [s]. *)
Lemma count_pos_iff s sub : (0 < count s sub)%nat <-> occurs_in sub s.
Proof.
  unfold count, occurs_in, count_chars.
  destruct (list_ascii_of_string sub) as [ | a l] eqn:E.
  - split; [intros _; now exists [], (list_ascii_of_string s) | lia].
  - split.
    + apply count_skip_substring.
    + intros (pre & post & ->). now apply substring_count_skip.
Qed.

Lemma count_zero_iff s sub : count s sub = 0%nat <-> ~ occurs_in sub s.
Proof. rewrite <- count_pos_iff. lia. Qed.

End ScorerFacts.

(** ** The scorer *)

Import PyStr Re Py Utils Ref.

(** C1: whatever the texts, the required skills and the years inputs,
    the score returned by [calculate_similarity_score] lies between 0 and
    100. *)
Theorem similarity_score_bounds
    (resume_text jd_text : string) (jd_key_skills : list string)
    (resume_years jd_years : string) :
  (0 <= calculate_similarity_score resume_text jd_text jd_key_skills resume_years jd_years
     <= 100)%Q.
Proof.
  rewrite ScorerFacts.score_by_components.
  destruct (zero_evidence resume_text jd_key_skills); [split; discriminate | ].
  split; [ | apply ScorerFacts.Qmin_le_r].
  apply ScorerFacts.Qmin_nonneg; [ | discriminate].
  pose proof (ScorerFacts.experience_component_bounds
                (first_integer resume_years) (first_integer jd_years)
                (ScorerFacts.first_integer_nonneg _) (ScorerFacts.first_integer_nonneg _)) as [He _].
  pose proof (ScorerFacts.skills_component_nonneg resume_text jd_key_skills) as Hs.
  apply (Qplus_le_compat 0 _ 0 _); apply Qmult_le_0_compat; (discriminate || assumption).
Qed.

(** C2: when skills are required and none of them occurs, ignoring case,
    in the resume text, the score is exactly 0, whatever the experience
    values. *)
Theorem zero_evidence_gate
    (resume_text jd_text : string) (jd_key_skills : list string)
    (resume_years jd_years : string) :
  jd_key_skills <> [] ->
  (forall s, In s jd_key_skills -> ~ occurs_in (lower s) (lower resume_text)) ->
  calculate_similarity_score resume_text jd_text jd_key_skills resume_years jd_years = 0%Q.
Proof.
  intros Hne Hnone. rewrite ScorerFacts.score_by_components.
  assert (E : zero_evidence resume_text jd_key_skills = true).
  { unfold zero_evidence. destruct jd_key_skills as [ | s0 l]; [congruence | ].
    apply forallb_forall. intros s Hs. apply Nat.eqb_eq.
    now apply ScorerFacts.count_zero_iff, Hnone. }
  now rewrite E.
Qed.

Lemma zero_evidence_gate_witness :
  calculate_similarity_score "Python and Go developer" "" ["Rust"; "Kotlin"] "9" "2" = 0%Q.
Proof.
  apply zero_evidence_gate.
  - discriminate.
  - intros s [<- | [<- | []]]; apply ScorerFacts.count_zero_iff; reflexivity.
Defined.

(** C6: the experience component of the score.  Candidate and required
    years are the first integer found in their string form, 0 when there
    is none; the component is 100 when the requirement is 0 or is met,
    and candidate / required * 100 otherwise; it is the component that
    enters the score with weight 0.4. *)
Theorem experience_component_rule
    (resume_text jd_text : string) (jd_key_skills : list string)
    (resume_years jd_years : string) :
  years_of resume_years = first_integer resume_years
  /\ years_of jd_years = first_integer jd_years
  /\ exp_score (years_of resume_years) (years_of jd_years)
     = experience_component (first_integer resume_years) (first_integer jd_years)
  /\ calculate_similarity_score resume_text jd_text jd_key_skills resume_years jd_years
     = (if zero_evidence resume_text jd_key_skills then 0%Q
        else Qmin ((4 # 10) * experience_component (first_integer resume_years)
                                                   (first_integer jd_years)
                   + (6 # 10) * skills_component resume_text jd_key_skills)%Q 100%Q)
  /\ (exp_score (years_of "2.0") (years_of "4") == 50)%Q
  /\ exp_score (years_of "5") (years_of "5 years") = 100%Q
  /\ exp_score (years_of resume_years) (years_of "0") = 100%Q
  /\ years_of "n/a" = 0%Z.
Proof.
  repeat split.
  - apply ScorerFacts.years_of_first_integer.
  - apply ScorerFacts.years_of_first_integer.
  - rewrite !ScorerFacts.years_of_first_integer. apply ScorerFacts.exp_score_component.
  - apply ScorerFacts.score_by_components.
Qed.

(** ** The resonant skill *)

Module ResonantFacts.
Import PyStr Utils.

Section Loop.
Variable text_lower : string.

Let cnt (s : string) : nat := count text_lower s.
Let loop_inv := Inv.loop_inv cnt.

Lemma loop_inv_init : loop_inv [] (0%nat, None).
Proof. split; [intros s [] | reflexivity]. Qed.

Lemma loop_inv_step seen st s :
  loop_inv seen st -> loop_inv (seen ++ [s]) (resonant_step text_lower st s).
Proof.
  intros [Hle Hres]. unfold resonant_step. fold (cnt s).
  destruct (fst st <? cnt s)%nat eqn:E.
  - apply Nat.ltb_lt in E. split; cbn [fst snd].
    + intros s' Hin. apply in_app_or in Hin as [Hin | [<- | []]]; [ | lia].
      specialize (Hle s' Hin). lia.
    + split; [lia | ]. exists (length seen). split; [ | split; [reflexivity | ]].
      * rewrite nth_error_app2, Nat.sub_diag by lia. reflexivity.
      * intros j s' Hj Hnth. rewrite nth_error_app1 in Hnth by exact Hj.
        apply nth_error_In in Hnth. specialize (Hle s' Hnth). lia.
  - apply Nat.ltb_ge in E. split.
    + intros s' Hin. apply in_app_or in Hin as [Hin | [<- | []]]; [now apply Hle | exact E].
    + destruct (snd st) as [r | ]; [ | exact Hres].
      destruct Hres as (Hpos & i & Hnth & Hcnt & Hfirst).
      assert (Hi : (i < length seen)%nat) by (apply nth_error_Some; congruence).
      split; [exact Hpos | ]. exists i. split; [ | split; [exact Hcnt | ]].
      * rewrite nth_error_app1 by exact Hi. exact Hnth.
      * intros j s' Hj Hnth'. rewrite nth_error_app1 in Hnth' by lia.
        now apply (Hfirst j).
Qed.

Lemma loop_inv_fold rest :
  forall seen st,
    loop_inv seen st ->
    loop_inv (seen ++ rest) (fold_left (resonant_step text_lower) rest st).
Proof.
  induction rest as [ | s rest IH]; intros seen st Hinv; simpl.
  - now rewrite app_nil_r.
  - replace (seen ++ s :: rest) with ((seen ++ [s]) ++ rest) by now rewrite <- app_assoc.
    apply IH, loop_inv_step, Hinv.
Qed.

End Loop.
End ResonantFacts.

(** C7 (as amended): [get_resonant_skill] returns the lower-cased form of
    the required skill with the highest uncapped occurrence count in the
    lower-cased resume text, the first such skill in the requirement's
    order on ties, and none when all counts are zero; for the required
    skills Python and Go, Python occurring five times and Go once, it
    returns "python". *)
Theorem resonant_skill_rule (resume_text : string) (jd_key_skills : list string) :
  let cnt := fun s => count (lower resume_text) (lower s) in
  match get_resonant_skill resume_text jd_key_skills with
  | None => Forall (fun s => cnt s = 0%nat) jd_key_skills
  | Some r =>
      exists i s,
        nth_error jd_key_skills i = Some s /\ r = lower s /\ (0 < cnt s)%nat /\
        Forall (fun s' => (cnt s' <= cnt s)%nat) jd_key_skills /\
        Forall (fun s' => (cnt s' < cnt s)%nat) (firstn i jd_key_skills)
  end
  /\ get_resonant_skill "Python, python; PYTHON Python python. Go" ["Python"; "Go"]
     = Some "python".
Proof.
  split; [ | reflexivity].
  unfold get_resonant_skill.
  pose proof (ResonantFacts.loop_inv_fold (lower resume_text) (map lower jd_key_skills)
                [] (0%nat, None) (ResonantFacts.loop_inv_init _)) as [Hle Hres].
  cbn [app] in Hle, Hres.
  destruct (fold_left _ _ _) as [m res]. cbn [fst snd] in *.
  destruct res as [r | ].
  - destruct Hres as (Hpos & i & Hnth & Hcnt & Hfirst).
    rewrite nth_error_map in Hnth.
    destruct (nth_error jd_key_skills i) as [s | ] eqn:Hs; [ | discriminate].
    injection Hnth as <-. 
    exists i, s. split; [exact Hs | split; [reflexivity | split; [lia | split]]].
    + apply List.Forall_forall. intros s' Hin. rewrite Hcnt. apply Hle. now apply in_map.
    + apply List.Forall_forall. intros s' Hin.
      apply In_nth_error in Hin as [j Hj].
      assert (Hlen : (j < length (firstn i jd_key_skills))%nat) by (apply nth_error_Some; congruence).
      rewrite length_firstn in Hlen.
      rewrite nth_error_firstn in Hj.
      destruct (j <? i)%nat eqn:Hji; [ | discriminate].
      rewrite Hcnt. apply (Hfirst j); [lia | ].
      rewrite nth_error_map, Hj. reflexivity.
  - apply List.Forall_forall. intros s Hin.
    specialize (Hle (lower s) (in_map lower _ _ Hin)). lia.
Qed.

(** C7, as stated, fails: the skill comes back lower-cased. *)
Lemma resonant_skill_not_original_case :
  count (lower "Python, python; PYTHON Python python. Go") (lower "Python") = 5%nat
  /\ count (lower "Python, python; PYTHON Python python. Go") (lower "Go") = 1%nat
  /\ get_resonant_skill "Python, python; PYTHON Python python. Go" ["Python"; "Go"]
     <> Some "Python".
Proof. repeat split. discriminate. Qed.

(** ** Sorting and ranking *)

Module SortFacts.
Import Py.

Section Generic.
Context {A K : Type} (key : A -> K) (ltb : K -> K -> bool).

Lemma insert_by_perm x l : Permutation (x :: l) (insert_by key ltb x l).
Proof.
  induction l as [ | y l IH]; simpl; [reflexivity | ].
  destruct (ltb (key y) (key x)); [ | reflexivity].
  rewrite perm_swap. now apply perm_skip.
Qed.

Lemma sort_by_perm l : Permutation l (sort_by key ltb l).
Proof.
  induction l as [ | x l IH]; simpl; [reflexivity | ].
  rewrite <- insert_by_perm. now apply perm_skip.
Qed.

Lemma sorted_perm reverse l : Permutation l (sorted key ltb reverse l).
Proof.
  unfold sorted. destruct reverse; [ | apply sort_by_perm].
  rewrite <- Permutation_rev, <- sort_by_perm. apply Permutation_rev.
Qed.

Lemma sorted_length reverse l : length (sorted key ltb reverse l) = length l.
Proof. symmetry. apply Permutation_length, sorted_perm. Qed.

(** Stability: the elements selected by [sel] keep their order, provided
    an element with a smaller key than a selected one is not selected. *)
Section Stable.
Variable sel : A -> bool.
Hypothesis sel_key :
  forall x y, ltb (key y) (key x) = true -> sel x = true -> sel y = false.

Lemma insert_by_filter x l :
  List.filter sel (insert_by key ltb x l) = List.filter sel (x :: l).
Proof.
  induction l as [ | y l IH]; [reflexivity | ].
  cbn [insert_by]. destruct (ltb (key y) (key x)) eqn:E; [ | reflexivity].
  cbn [List.filter] in *. rewrite IH.
  destruct (sel x) eqn:Hx; [ | reflexivity].
  now rewrite (sel_key x y E Hx).
Qed.

Lemma sort_by_filter l : List.filter sel (sort_by key ltb l) = List.filter sel l.
Proof.
  induction l as [ | x l IH]; [reflexivity | ].
  cbn [sort_by fold_right]. fold (sort_by key ltb l).
  rewrite insert_by_filter. cbn [List.filter]. now rewrite IH.
Qed.

Lemma filter_rev (l : list A) : List.filter sel (rev l) = rev (List.filter sel l).
Proof.
  induction l as [ | x l IH]; [reflexivity | ].
  cbn [rev List.filter]. rewrite List.filter_app, IH. cbn [List.filter].
  destruct (sel x); [reflexivity | now rewrite app_nil_r].
Qed.

Lemma sorted_filter reverse l :
  List.filter sel (sorted key ltb reverse l) = List.filter sel l.
Proof.
  unfold sorted. destruct reverse; [ | apply sort_by_filter].
  now rewrite filter_rev, sort_by_filter, filter_rev, rev_involutive.
Qed.
End Stable.

(** Order: no element is followed by one with a smaller key. *)
Section Ordered.
Hypothesis ltb_asym : forall a b, ltb a b = true -> ltb b a = false.
Hypothesis geb_trans :
  forall a b c, ltb b a = false -> ltb c b = false -> ltb c a = false.

Let key_le := Inv.key_le key ltb.

Lemma insert_by_sorted x l :
  StronglySorted key_le l -> StronglySorted key_le (insert_by key ltb x l).
Proof.
  induction 1 as [ | y l Hs IH Hall]; cbn [insert_by].
  - constructor; constructor.
  - destruct (ltb (key y) (key x)) eqn:E.
    + constructor; [exact IH | ].
      rewrite <- insert_by_perm. constructor; [ | exact Hall].
      now apply ltb_asym.
    + constructor; [now constructor | ].
      constructor; [exact E | ].
      eapply List.Forall_impl; [ | exact Hall].
      intros z Hz. unfold key_le, Inv.key_le in *. now apply (geb_trans _ (key y)).
Qed.

Lemma sort_by_sorted l : StronglySorted key_le (sort_by key ltb l).
Proof.
  induction l as [ | x l IH]; [constructor | ].
  cbn [sort_by fold_right]. now apply insert_by_sorted.
Qed.
End Ordered.
End Generic.

Lemma strongly_sorted_impl {A : Type} (R R' : A -> A -> Prop) l :
  (forall a b, R a b -> R' a b) -> StronglySorted R l -> StronglySorted R' l.
Proof.
  intros HR. induction 1 as [ | y l Hs IH Hall]; constructor; [exact IH | ].
  eapply List.Forall_impl; [ | exact Hall]. intros z. apply HR.
Qed.

Lemma strongly_sorted_snoc {A : Type} (R : A -> A -> Prop) l x :
  StronglySorted R l -> Forall (fun y => R y x) l -> StronglySorted R (l ++ [x]).
Proof.
  induction 1 as [ | y l Hs IH Hall]; intros Hx; cbn [app].
  - constructor; constructor.
  - inversion Hx as [ | ? ? Hyx Hlx]; subst.
    constructor; [now apply IH | ].
    apply List.Forall_app. split; [exact Hall | now constructor].
Qed.

Lemma strongly_sorted_rev {A : Type} (R : A -> A -> Prop) l :
  StronglySorted R l -> StronglySorted (fun a b => R b a) (rev l).
Proof.
  induction 1 as [ | y l Hs IH Hall]; [constructor | ].
  cbn [rev]. apply strongly_sorted_snoc; [exact IH | ].
  apply List.Forall_rev. exact Hall.
Qed.

Lemma Qltb_lt a b : Qltb a b = true <-> (a < b)%Q.
Proof.
  unfold Qltb. rewrite negb_true_iff. split.
  - intros H. apply Qnot_le_lt. intros Hle. apply Qle_bool_iff in Hle. congruence.
  - intros H. destruct (Qle_bool b a) eqn:E; [ | reflexivity].
    apply Qle_bool_iff in E. exfalso. now apply (Qlt_not_le a b).
Qed.

Lemma Qltb_ge a b : Qltb a b = false <-> (b <= a)%Q.
Proof.
  unfold Qltb. rewrite negb_false_iff. apply Qle_bool_iff.
Qed.

End SortFacts.

(** C9: the ranking step sorts the results by descending score and is
    stable: the output is a rearrangement of the input, no result is
    followed by one with a higher score, and the results of any one score
    keep their input order; scores 50, 80, 50 come out as the second,
    the first and the third input. *)
Theorem ranking_stable_descending (results : list Bot.result) :
  Permutation results (Bot.rank results)
  /\ StronglySorted (fun a b => (Bot.score b <= Bot.score a)%Q) (Bot.rank results)
  /\ (forall v : Q,
        List.filter (fun r => Qeq_bool (Bot.score r) v) (Bot.rank results)
        = List.filter (fun r => Qeq_bool (Bot.score r) v) results)
  /\ map Bot.file_name
       (Bot.rank [ Bot.mk_result "idx0" 50 "Good" [] None;
                   Bot.mk_result "idx1" 80 "Better" [] None;
                   Bot.mk_result "idx2" 50 "Good" [] None ])
     = ["idx1"; "idx0"; "idx2"].
Proof.
  unfold Bot.rank. split; [apply SortFacts.sorted_perm | ].
  split; [ | split; [ | reflexivity]].
  - unfold sorted.
    apply (SortFacts.strongly_sorted_rev (fun a b => (Bot.score a <= Bot.score b)%Q)).
    eapply SortFacts.strongly_sorted_impl; [ | apply (SortFacts.sort_by_sorted Bot.score Qltb)].
    + intros a b H. now apply SortFacts.Qltb_ge.
    + intros a b H. apply SortFacts.Qltb_lt in H. apply SortFacts.Qltb_ge. now apply Qlt_le_weak.
    + intros a b c H1 H2. apply SortFacts.Qltb_ge in H1, H2. apply SortFacts.Qltb_ge.
      now apply (Qle_trans _ b).
  - intros v. apply SortFacts.sorted_filter.
    intros x y Hlt Hx. apply SortFacts.Qltb_lt in Hlt. apply Qeq_bool_iff in Hx.
    destruct (Qeq_bool (Bot.score y) v) eqn:Hy; [ | reflexivity].
    apply Qeq_bool_iff in Hy. rewrite Hx, Hy in Hlt. now apply Qlt_irrefl in Hlt.
Qed.

(** ** The experience extractor *)

Module ExperienceFacts.
Import PyStr Re Py Utils Ref Inv.

(** *** The explicit tier: what the pattern captures is a decimal *)

Lemma matches_groupless r m cs : matches r m cs -> groupless r = true -> cs = [].
Proof.
  induction 1 as [ | | r1 r2 a b ca cb _ IH1 _ IH2 | r1 r2 a ca _ IH | r1 r2 a ca _ IH
                 | | r a b ca cb _ IH1 _ IH2 | ]; cbn [groupless]; intros G;
    try reflexivity; try discriminate.
  - apply andb_true_iff in G as [G1 G2]. now rewrite (IH1 G1), (IH2 G2).
  - apply andb_true_iff in G as [G1 G2]. now apply IH.
  - apply andb_true_iff in G as [G1 G2]. now apply IH.
  - now rewrite (IH1 G), (IH2 G).
Qed.

Lemma matches_star_chr p m cs : matches (Star (Chr p)) m cs -> forallb p m = true.
Proof.
  remember (Star (Chr p)) as r eqn:E. intros H. revert E.
  induction H as [ | | | | | | r a b ca cb Ha _ _ IH | ]; intros E; try discriminate.
  - reflexivity.
  - injection E as ->. inversion Ha; subst. cbn [app forallb].
    rewrite IH by reflexivity. now rewrite andb_true_r.
Qed.

Lemma matches_plus_chr p m cs :
  matches (Plus (Chr p)) m cs ->
  exists c m', m = c :: m' /\ p c = true /\ forallb p m' = true.
Proof.
  intros H. inversion H as [ | | r1 r2 a b ca cb Ha Hb | | | | | ]; subst.
  inversion Ha; subst. exists c, b. repeat split; [assumption | ].
  now apply matches_star_chr in Hb.
Qed.

Lemma span_digits_stop ds rest :
  forallb is_digit ds = true ->
  match rest with [] => true | c :: _ => negb (is_digit c) end = true ->
  span_digits (ds ++ rest) = (ds, rest).
Proof.
  intros Hds Hrest. induction ds as [ | d ds IH]; cbn [app].
  - destruct rest as [ | c rest]; [reflexivity | ].
    cbn [span_digits]. apply negb_true_iff in Hrest. now rewrite Hrest.
  - cbn [forallb] in Hds. apply andb_true_iff in Hds as [Hd Hds].
    cbn [span_digits]. rewrite Hd, (IH Hds). reflexivity.
Qed.

(** A word of [\d+(?:\.\d+)?] is accepted by [float]. *)
Lemma float_of_decimal m cs :
  matches (Seq (Plus digit) (Opt (Seq (lit ".") (Plus digit)))) m cs ->
  exists q, float_of_chars m = Ok q.
Proof.
  intros H. inversion H as [ | | r1 r2 a b ca cb Ha Hb | | | | | ]; subst.
  apply matches_plus_chr in Ha as (c & a' & -> & Hc & Ha').
  assert (Hds : forallb is_digit (c :: a') = true) by (cbn [forallb]; now rewrite Hc).
  unfold float_of_chars.
  inversion Hb as [ | | | r1 r2 x cx Hfrac | r1 r2 x cx Heps | | | ]; subst.
  - inversion Hfrac as [ | | r1 r2 d f cd cf Hd Hf | | | | | ]; subst.
    inversion Hd as [ | p dot Hdot | | | | | | ]; subst.
    apply Ascii.eqb_eq in Hdot as <-.
    apply matches_plus_chr in Hf as (e & f' & -> & He & Hf').
    assert (Hfs : forallb is_digit (e :: f') = true) by (cbn [forallb]; now rewrite He).
    pose proof (span_digits_stop (c :: a') ("."%char :: e :: f') Hds eq_refl) as E1.
    pose proof (span_digits_stop (e :: f') [] Hfs eq_refl) as E2. rewrite app_nil_r in E2.
    cbn [app] in E1 |- *. rewrite E1, E2. cbn [Ascii.eqb]. eexists. reflexivity.
  - inversion Heps; subst.
    pose proof (span_digits_stop (c :: a') [] Hds eq_refl) as E1.
    rewrite E1. eexists. reflexivity.
Qed.

Lemma float_of_chars_ok m q : float_of_chars m = Ok q -> float_value m = q.
Proof. unfold float_value. now intros ->. Qed.

(** Every explicit match is a decimal. *)
Lemma explicit_matches_float text :
  Forall (fun m => float_of_chars m = Ok (float_value m)) (explicit_matches text).
Proof.
  apply List.Forall_forall. intros g Hin.
  unfold explicit_matches, findall1 in Hin.
  apply in_map_iff in Hin as ([m cs] & <- & Hin). cbn [snd].
  apply EngineFacts.finditer_sound in Hin as [Hm _].
  unfold regex_explicit in Hm. cbn [seqs fold_right] in Hm.
  inversion Hm as [ | | r1 r2 a b ca cb Ha Hb | | | | | ]; subst.
  apply matches_groupless in Hb; [subst cb | reflexivity].
  inversion Ha as [ | | | | | | | i r a' ca' Ha' ]; subst.
  cbn [app group Nat.eqb].
  destruct (float_of_decimal _ _ Ha') as [q Hq].
  rewrite Hq. f_equal. symmetry. now apply float_of_chars_ok.
Qed.

Lemma mapM_ok {A B : Type} (f : A -> res B) (g : A -> B) l :
  Forall (fun x => f x = Ok (g x)) l -> mapM f l = Ok (map g l).
Proof.
  induction 1 as [ | x l Hx _ IH]; [reflexivity | ].
  cbn [mapM map]. rewrite Hx. cbn. rewrite IH. reflexivity.
Qed.

(** *** The greatest value *)

Lemma py_max_is_max l :
  forall x,
    let r := fold_left (fun m y => if Qle_bool y m then m else y) l x in
    In r (x :: l) /\ (x <= r)%Q /\ Forall (fun y => (y <= r)%Q) l.
Proof.
  induction l as [ | y l IH]; intros x; cbn [fold_left].
  - split; [now left | split; [apply Qle_refl | constructor]].
  - destruct (IH (if Qle_bool y x then x else y)) as (Hin & Hle & Hall).
    set (r := fold_left _ l _) in *.
    destruct (Qle_bool y x) eqn:E.
    + apply Qle_bool_iff in E.
      split; [destruct Hin as [<- | Hin]; [now left | now right; right] | ].
      split; [exact Hle | constructor; [now apply (Qle_trans _ x) | exact Hall]].
    + assert (Hxy : (x <= y)%Q).
      { apply Qlt_le_weak, Qnot_le_lt. intros H. apply Qle_bool_iff in H. congruence. }
      split; [destruct Hin as [<- | Hin]; [now right; left | now right; right] | ].
      split; [now apply (Qle_trans _ y) | constructor; [exact Hle | exact Hall]].
Qed.

Lemma greatest_is_max l x :
  let r := greatest x l in
  In r (x :: l) /\ (x <= r)%Q /\ Forall (fun y => (y <= r)%Q) l.
Proof.
  induction l as [ | y l IH]; cbn [greatest fold_right].
  - split; [now left | split; [apply Qle_refl | constructor]].
  - fold (greatest x l). destruct IH as (Hin & Hle & Hall).
    set (m := greatest x l) in *.
    destruct (Qle_bool m y) eqn:E.
    + apply Qle_bool_iff in E.
      split; [now right; left | ].
      split; [now apply (Qle_trans _ m) | ].
      constructor; [apply Qle_refl | ].
      eapply List.Forall_impl; [ | exact Hall]. intros z Hz. now apply (Qle_trans _ m).
    + assert (Hym : (y <= m)%Q).
      { apply Qlt_le_weak, Qnot_le_lt. intros H. apply Qle_bool_iff in H. congruence. }
      split; [destruct Hin as [<- | Hin]; [now left | now right; right] | ].
      split; [exact Hle | constructor; [exact Hym | exact Hall]].
Qed.

(** On floats, kept reduced, the two ways of taking the maximum agree. *)
Lemma py_max_greatest x l :
  Forall (fun q => Qred q = q) (x :: l) ->
  py_max (x :: l) = Ok (greatest x l).
Proof.
  intros Hcan. unfold py_max. f_equal.
  destruct (py_max_is_max l x) as (Hin1 & Hx1 & Hall1).
  destruct (greatest_is_max l x) as (Hin2 & Hx2 & Hall2).
  set (r1 := fold_left _ l x) in *. set (r2 := greatest x l) in *.
  assert (H12 : (r1 <= r2)%Q).
  { destruct Hin1 as [<- | Hin1]; [exact Hx2 | ].
    now apply (proj1 (List.Forall_forall _ _) Hall2). }
  assert (H21 : (r2 <= r1)%Q).
  { destruct Hin2 as [<- | Hin2]; [exact Hx1 | ].
    now apply (proj1 (List.Forall_forall _ _) Hall1). }
  pose proof (proj1 (List.Forall_forall _ _) Hcan) as Hc.
  rewrite <- (Hc r1 Hin1), <- (Hc r2 Hin2).
  apply Qred_complete. now apply Qle_antisym.
Qed.

Lemma float_of_chars_reduced m q : float_of_chars m = Ok q -> Qred q = q.
Proof.
  unfold float_of_chars.
  destruct (span_digits m) as [ip rest].
  destruct ip as [ | d ip]; [discriminate | ].
  destruct rest as [ | c fs].
  - intros H. injection H as <-. apply Qred_complete, Qred_correct.
  - destruct (span_digits fs) as [fp rest'].
    destruct (Ascii.eqb c "."%char); [ | discriminate].
    destruct fp as [ | e fp]; [discriminate | ].
    destruct rest' as [ | ? ?]; [ | discriminate].
    intros H. injection H as <-. apply Qred_complete, Qred_correct.
Qed.

Lemma Qdiv_nonneg (a b : Z) :
  (0 <= a)%Z -> (0 < b)%Z -> (0 <= inject_Z a / inject_Z b)%Q.
Proof.
  intros Ha Hb. unfold Qle, Qdiv, Qmult, Qinv, inject_Z.
  destruct b as [ | p | p]; simpl; lia.
Qed.

Lemma Qdiv_nonneg_den (a : Z) : (0 <= a)%Z -> (0 <= inject_Z a / (36525 # 100))%Q.
Proof. intros Ha. unfold Qle, Qdiv, Qmult, Qinv, inject_Z. simpl. lia. Qed.

Lemma float_of_chars_nonneg m q : float_of_chars m = Ok q -> (0 <= q)%Q.
Proof.
  unfold float_of_chars.
  pose proof (GreedyFacts.span_digits_digits m) as Hip.
  destruct (span_digits m) as [ip rest]. cbn [fst] in Hip.
  destruct ip as [ | d ip]; [discriminate | ].
  apply GreedyFacts.int_of_digits_nonneg in Hip.
  destruct rest as [ | c fs].
  - intros H. injection H as <-. rewrite Qred_correct.
    unfold Qle. simpl. lia.
  - pose proof (GreedyFacts.span_digits_digits fs) as Hfp.
    destruct (span_digits fs) as [fp rest']. cbn [fst] in Hfp.
    destruct (Ascii.eqb c "."%char); [ | discriminate].
    destruct fp as [ | e fp]; [discriminate | ].
    destruct rest' as [ | ? ?]; [ | discriminate].
    apply GreedyFacts.int_of_digits_nonneg in Hfp.
    intros H. injection H as <-. rewrite Qred_correct.
    apply (Qplus_le_compat 0 _ 0 _).
    + unfold Qle. simpl. lia.
    + apply Qdiv_nonneg; [exact Hfp | apply Z.pow_pos_nonneg; lia].
Qed.

(** *** The date tier: the merging loop *)

Lemma last_item_snoc {A : Type} (l : list A) x : last_item (l ++ [x]) = Ok x.
Proof. unfold last_item. now rewrite rev_unit. Qed.

Lemma set_last_snoc {A : Type} (l : list A) x y : set_last (l ++ [x]) y = l ++ [y].
Proof. unfold set_last. now rewrite removelast_last. Qed.

(** The loop keeps the running interval as the last element of
    [merged_intervals]. *)
Lemma merge_loop rest :
  forall done cur,
    fold_left merge_step rest (Ok (done ++ [cur])) = Ok (done ++ merge_run cur rest).
Proof.
  induction rest as [ | iv rest IH]; intros done cur; [reflexivity | ].
  cbn [fold_left merge_run]. unfold merge_step at 2. unfold mbind, res_bind. cbn [bind].
  rewrite last_item_snoc. cbn [bind]. unfold interval, datetime in *.
  destruct (fst iv <=? snd cur)%Z.
  - rewrite set_last_snoc. apply IH.
  - rewrite (IH (done ++ [cur]) iv). now rewrite <- app_assoc.
Qed.

Lemma total_days_shift l :
  forall acc,
    fold_left (fun a iv => (a + days_between (fst iv) (snd iv))%Z) l acc
    = (acc + day_spans l)%Z.
Proof.
  induction l as [ | iv l IH]; intros acc; cbn [fold_left day_spans fold_right]; [lia | ].
  rewrite IH. fold (day_spans l). unfold days_between, us_per_day, whole_days. lia.
Qed.

Lemma total_days_spans l : total_days l = day_spans l.
Proof. unfold total_days. now rewrite total_days_shift. Qed.

(** The date tier of the code is the date tier of the definition. *)
Lemma years_of_intervals_spec round1 intervals :
  years_of_intervals round1 intervals =
  Ok match intervals with
     | [] => None
     | _ :: _ =>
         Some (round1 (inject_Z (day_spans (merge_sorted (sorted fst Z.ltb false intervals)))
                       / (36525 # 100))%Q)
     end.
Proof.
  unfold years_of_intervals. destruct intervals as [ | iv0 l]; [reflexivity | ].
  pose proof (SortFacts.sorted_length fst Z.ltb false (iv0 :: l)) as Hlen.
  destruct (sorted fst Z.ltb false (iv0 :: l)) as [ | first rest]; [discriminate | ].
  unfold mbind, res_bind. cbn [first_item bind tl merge_sorted].
  pose proof (merge_loop rest [] first) as E. cbn [app] in E. rewrite E. cbn [bind].
  now rewrite total_days_spans.
Qed.

(** *** The two tiers together *)

Lemma float_values_reduced text :
  Forall (fun q => Qred q = q) (map float_value (explicit_matches text)).
Proof.
  apply List.Forall_map.
  eapply List.Forall_impl; [ | apply explicit_matches_float].
  intros m Hm. now apply (float_of_chars_reduced m).
Qed.

Lemma extract_years_spec round1 parse now text :
  extract_years_experience round1 parse now text
  = Ok (years_unrolled round1 parse now text).
Proof.
  unfold extract_years_experience, years_unrolled, date_tier.
  pose proof (explicit_matches_float text) as Hfloat.
  pose proof (float_values_reduced text) as Hred.
  destruct (explicit_matches text) as [ | g gs].
  - cbn [map]. rewrite years_of_intervals_spec.
    now destruct (collect_intervals parse now (date_matches text)).
  - rewrite (mapM_ok _ _ _ Hfloat). unfold mbind, res_bind. cbn [bind map] in *.
    rewrite (py_max_greatest _ _ Hred). reflexivity.
Qed.


(** *** Where the result is not negative *)

Import Inv.

Lemma merge_run_ordered rest :
  forall cur, ordered cur -> Forall ordered rest -> Forall ordered (merge_run cur rest).
Proof.
  induction rest as [ | iv rest IH]; intros cur Hcur Hrest; cbn [merge_run].
  - now constructor.
  - inversion Hrest as [ | ? ? Hiv Hrest']; subst.
    destruct (fst iv <=? snd cur)%Z.
    + apply IH; [ | exact Hrest']. unfold ordered in *. cbn [fst snd]. lia.
    + constructor; [exact Hcur | now apply IH].
Qed.

Lemma day_spans_nonneg l : Forall ordered l -> (0 <= day_spans l)%Z.
Proof.
  induction 1 as [ | iv l Hiv _ IH]; cbn [day_spans fold_right]; [lia | ].
  fold (day_spans l). unfold ordered in Hiv.
  assert (0 <= whole_days iv)%Z; [ | lia].
  unfold whole_days. apply Z.div_pos; lia.
Qed.

(** With a rounding that keeps the sign, the years are not negative
    unless some parsed range ends before it starts. *)
Lemma years_nonneg_when_ordered round1 parse now text y :
  (forall x, (0 <= x)%Q -> (0 <= round1 x)%Q) ->
  Forall ordered (collect_intervals parse now (date_matches text)) ->
  extract_years_experience round1 parse now text = Ok (Some y) ->
  (0 <= y)%Q.
Proof.
  intros Hround Hord. rewrite extract_years_spec. unfold years_unrolled.
  pose proof (explicit_matches_float text) as Hfloat.
  destruct (explicit_matches text) as [ | g gs]; cbn [map].
  - destruct (collect_intervals parse now (date_matches text)) as [ | iv0 l] eqn:E;
      [discriminate | ].
    assert (Hm : Forall ordered (merge_sorted (sorted fst Z.ltb false (iv0 :: l)))).
    { assert (Hs : Forall ordered (sorted fst Z.ltb false (iv0 :: l))).
      { eapply Permutation_Forall; [apply SortFacts.sorted_perm | exact Hord]. }
      destruct (sorted fst Z.ltb false (iv0 :: l)) as [ | first rest]; [constructor | ].
      inversion Hs; subst. now apply merge_run_ordered. }
    intros H. injection H as <-. apply Hround.
    apply Qdiv_nonneg_den, day_spans_nonneg. exact Hm.
  - intros H. injection H as <-. apply Hround.
    destruct (greatest_is_max (map float_value gs) (float_value g)) as (Hin & _ & _).
    apply in_map_iff with (f := float_value) (l := g :: gs) in Hin as (m & <- & Hin).
    apply (float_of_chars_nonneg m).
    now apply (proj1 (List.Forall_forall _ _) Hfloat).
Qed.

End ExperienceFacts.


(** C5 fails on the code: a date range that ends before it starts gives
    a negative number of years. *)
Theorem reversed_range_negative_years (now : datetime) :
  extract_years_experience py_round1 parse_month_year now "Jan 2020 - Jan 2019"
  = Ok (Some (-1)%Q)
  /\ (-1 < 0)%Q.
Proof. split; reflexivity. Qed.

(** ** The skill extractor *)

Module SkillFacts.
Import PyStr Re Py Utils Ref Inv GreedyFacts.

(** *** Normalised texts *)

Lemma tidy_suffix pre s : tidy (pre ++ s) = true -> tidy s = true.
Proof.
  induction pre as [ | c pre IH]; [trivial | ].
  cbn [app tidy]. destruct (is_space c); [ | exact IH].
  intros H. apply andb_true_iff in H as [_ H]. now apply IH.
Qed.

Lemma tidy_lstrip_nil s : tidy s = true -> lstrip s = [] -> s = [].
Proof.
  unfold lstrip. induction s as [ | c s IH]; [reflexivity | ].
  cbn [tidy drop_while]. destruct (is_space c); [ | discriminate].
  intros H Hs. apply andb_true_iff in H as [H Ht]. apply andb_true_iff in H as [_ Hne].
  rewrite (IH Ht Hs) in Hne. discriminate.
Qed.

Lemma tidy_no_newline s :
  tidy s = true -> forallb (fun c => negb (Ascii.eqb c "010"%char)) s = true.
Proof.
  induction s as [ | c s IH]; [reflexivity | ].
  cbn [tidy forallb]. destruct (Ascii.eqb c "010"%char) eqn:E.
  - apply Ascii.eqb_eq in E as ->. cbn. discriminate.
  - destruct (is_space c); cbn [negb andb]; [ | exact IH].
    intros H. apply andb_true_iff in H as [_ H]. now apply IH.
Qed.

Lemma forallb_snoc {A : Type} (f : A -> bool) l x :
  forallb f (l ++ [x]) = forallb f l && f x.
Proof. rewrite forallb_app. cbn. now rewrite andb_true_r. Qed.

Lemma split_ws_words s :
  forall cur,
    forallb (fun c => negb (is_space c)) cur = true ->
    Forall word (split_ws s cur).
Proof.
  induction s as [ | c s IH]; intros cur Hcur; cbn [split_ws].
  - destruct cur as [ | a cur]; [constructor | ].
    constructor; [ | constructor]. split; [discriminate | exact Hcur].
  - destruct (is_space c) eqn:E.
    + destruct cur as [ | a cur]; [now apply IH | ].
      constructor; [split; [discriminate | exact Hcur] | now apply IH].
    + apply IH. rewrite forallb_snoc, Hcur, E. reflexivity.
Qed.

Lemma tidy_word_app w s :
  forallb (fun c => negb (is_space c)) w = true -> tidy s = true -> tidy (w ++ s) = true.
Proof.
  induction w as [ | c w IH]; [trivial | ].
  cbn [forallb app tidy]. intros H Hs. apply andb_true_iff in H as [Hc H].
  apply negb_true_iff in Hc. rewrite Hc. now apply IH.
Qed.

Lemma join_words ws :
  Forall word ws ->
  tidy (join space ws) = true /\ (ws <> [] -> join space ws <> []).
Proof.
  induction 1 as [ | w ws [Hne Hw] Hws [IHt IHne]]; [split; [reflexivity | congruence] | ].
  destruct ws as [ | w' ws].
  - cbn [join]. split; [ | intros _; exact Hne].
    rewrite <- (app_nil_r w). now apply tidy_word_app.
  - change (join space (w :: w' :: ws)) with (w ++ space ++ join space (w' :: ws)).
    assert (Hj : join space (w' :: ws) <> []) by (apply IHne; discriminate).
    destruct (join space (w' :: ws)) as [ | c j] eqn:E; [congruence | ].
    split.
    + apply tidy_word_app; [exact Hw | ].
      unfold space. cbn [app]. change (tidy (" "%char :: c :: j)) with (tidy (c :: j)).
      exact IHt.
    + intros _. destruct w; [congruence | discriminate].
Qed.

Lemma normalize_tidy text : tidy (normalize text) = true.
Proof. unfold normalize. apply join_words, split_ws_words. reflexivity. Qed.

(** *** The header pattern, step by step *)

Lemma rmatch_word_i w :
  forall s cs k,
    rmatch (word_i w) s cs k =
    match strip_prefix_i w s with
    | Some rest => k rest cs
    | None => None
    end.
Proof.
  induction w as [ | a w IH]; intros s cs k; [reflexivity | ].
  cbn [word_i rmatch lit_i strip_prefix_i].
  destruct s as [ | b s]; [reflexivity | ].
  destruct (Ascii.eqb (lower_char b) (lower_char a)); [apply IH | reflexivity].
Qed.

Lemma strip_prefix_i_suffix w :
  forall s rest, strip_prefix_i w s = Some rest -> exists pre, s = pre ++ rest.
Proof.
  induction w as [ | a w IH]; intros s rest H; cbn [strip_prefix_i] in H.
  - injection H as <-. now exists [].
  - destruct s as [ | b s]; [discriminate | ].
    destruct (Ascii.eqb (lower_char b) (lower_char a)); [ | discriminate].
    destruct (IH s rest H) as [pre ->]. now exists (b :: pre).
Qed.

(** The alternation of the header phrases, tried in their order. *)
Lemma rmatch_headers (g : chars -> chars * caps) kws s cs k :
  (forall rest pre, s = pre ++ rest -> k rest cs = option_map g (span_after_sep rest)) ->
  rmatch (alts (map Word_i kws)) s cs k = option_map g (header_span kws s).
Proof.
  intros Hk. induction kws as [ | kw kws IH].
  - cbn. now destruct s.
  - assert (Hone :
      rmatch (Word_i kw) s cs k =
      match strip_prefix_i (list_ascii_of_string kw) s with
      | Some rest => option_map g (span_after_sep rest)
      | None => None
      end).
    { unfold Word_i. rewrite rmatch_word_i.
      destruct (strip_prefix_i (list_ascii_of_string kw) s) as [rest | ] eqn:E; [ | reflexivity].
      destruct (strip_prefix_i_suffix _ _ _ E) as [pre ->]. now apply (Hk rest pre). }
    cbn [map alts header_span].
    destruct kws as [ | kw2 kws].
    + cbn [map]. rewrite Hone.
      destruct (strip_prefix_i (list_ascii_of_string kw) s) as [rest | ]; [ | reflexivity].
      now destruct (span_after_sep rest).
    + change (map Word_i (kw2 :: kws)) with (Word_i kw2 :: map Word_i kws).
      cbn [rmatch]. rewrite Hone.
      change (Word_i kw2 :: map Word_i kws) with (map Word_i (kw2 :: kws)).
      rewrite IH.
      destruct (strip_prefix_i (list_ascii_of_string kw) s) as [rest | ]; [ | reflexivity].
      now destruct (span_after_sep rest).
Qed.

Lemma sep_not_space c : one_of ":-" c = true -> is_space c = false.
Proof.
  unfold one_of. cbn [list_ascii_of_string existsb].
  rewrite !orb_true_iff. intros [H | [H | H]]; [ | | discriminate];
    apply Ascii.eqb_eq in H as ->; reflexivity.
Qed.

(** [(.+)] on a text without newline takes all of it. *)
Lemma rmatch_span s cs :
  forallb (fun c => negb (Ascii.eqb c "010"%char)) s = true ->
  rmatch (Seq (Grp 1 (Plus dot)) Eps) s cs final =
  match s with
  | [] => None
  | _ :: _ => Some ([], (1%nat, s) :: cs)
  end.
Proof.
  intros Hs. destruct s as [ | c s]; [reflexivity | ].
  cbn [forallb] in Hs. apply andb_true_iff in Hs as [Hc Hs].
  cbn [rmatch Plus dot]. rewrite Hc.
  apply star_chr_greedy. rewrite (drop_while_all _ _ Hs).
  unfold final. cbn [length Nat.sub firstn]. now rewrite firstn_all.
Qed.

Lemma rmatch_seq r1 r2 s cs k :
  rmatch (Seq r1 r2) s cs k = rmatch r1 s cs (fun s1 cs1 => rmatch r2 s1 cs1 k).
Proof. reflexivity. Qed.

Lemma rmatch_chr p s cs k :
  rmatch (Chr p) s cs k =
  match s with
  | c :: s' => if p c then k s' cs else None
  | [] => None
  end.
Proof. reflexivity. Qed.

Lemma drop_while_tidy s : tidy s = true -> tidy (drop_while is_space s) = true.
Proof.
  induction s as [ | c s IH]; [reflexivity | ].
  cbn [drop_while tidy]. destruct (is_space c) eqn:E.
  - intros H. apply andb_true_iff in H as [_ H]. now apply IH.
  - intros H. cbn [tidy]. now rewrite E.
Qed.

(** What follows a header phrase: blanks, colon or hyphen, blanks, span. *)
Lemma rmatch_after_header s cs :
  tidy s = true ->
  rmatch (seqs [Star ws; Chr (one_of ":-"); Star ws; Grp 1 (Plus dot)]) s cs final
  = option_map (fun span => ([], (1%nat, span) :: cs)) (span_after_sep s).
Proof.
  intros Ht. cbn [seqs fold_right]. rewrite rmatch_seq. unfold ws.
  rewrite star_chr_stop.
  2:{ intros c s' Hc. rewrite rmatch_seq, rmatch_chr.
      destruct (one_of ":-" c) eqn:E; [ | reflexivity].
      apply sep_not_space in E. congruence. }
  unfold span_after_sep, lstrip.
  pose proof (drop_while_tidy s Ht) as Ht1.
  destruct (drop_while is_space s) as [ | c s1]; [reflexivity | ].
  rewrite rmatch_seq, rmatch_chr. destruct (one_of ":-" c) eqn:Hsep; [ | reflexivity].
  assert (Ht2 : tidy s1 = true).
  { cbn [tidy] in Ht1. rewrite (sep_not_space _ Hsep) in Ht1. exact Ht1. }
  rewrite rmatch_seq.
  pose proof (drop_while_tidy s1 Ht2) as Ht3.
  destruct (drop_while is_space s1) as [ | c2 s2] eqn:E.
  - pose proof (tidy_lstrip_nil s1 Ht2 E) as ->. reflexivity.
  - apply star_chr_greedy. rewrite E.
    apply (rmatch_span (c2 :: s2) cs (tidy_no_newline _ Ht3)).
Qed.

Lemma tidy_tail c s : tidy (c :: s) = true -> tidy s = true.
Proof. apply (tidy_suffix [c]). Qed.

(** The whole pattern at the head of a normalised text. *)
Lemma match_at_skills s :
  tidy s = true ->
  match_at skills_pattern s
  = option_map (fun span => ([], [(1%nat, span)])) (header_span header_keywords s).
Proof.
  intros Ht. unfold match_at, skills_pattern.
  change (seqs (?r :: ?rs)) with (Seq r (seqs rs)).
  rewrite rmatch_seq.
  apply rmatch_headers.
  intros rest pre ->. apply rmatch_after_header. now apply (tidy_suffix pre).
Qed.

Lemma finditer_skip_all r s : finditer r s (length s) = finditer r [] 0.
Proof. induction s as [ | c s IH]; [reflexivity | exact IH]. Qed.

Lemma header_span_suffix kws s span :
  header_span kws s = Some span -> exists pre, s = pre ++ span.
Proof.
  induction kws as [ | kw kws IH]; cbn [header_span]; [discriminate | ].
  destruct (strip_prefix_i (list_ascii_of_string kw) s) as [rest | ] eqn:E; [ | exact IH].
  destruct (span_after_sep rest) as [sp | ] eqn:E2; [ | exact IH].
  intros H. injection H as ->.
  destruct (strip_prefix_i_suffix _ _ _ E) as [pre ->].
  unfold span_after_sep, lstrip in E2.
  assert (Hd : forall t, exists q, t = q ++ drop_while is_space t).
  { induction t as [ | c t [q Hq]]; [now exists [] | ].
    cbn [drop_while]. destruct (is_space c); [ | now exists []].
    exists (c :: q). cbn [app]. now rewrite <- Hq. }
  destruct (Hd rest) as [q1 Hq1].
  destruct (drop_while is_space rest) as [ | c s1]; [discriminate | ].
  destruct (one_of ":-" c); [ | discriminate].
  destruct (Hd s1) as [q2 Hq2].
  destruct (drop_while is_space s1) as [ | c2 s2]; [discriminate | ].
  injection E2 as <-.
  exists (pre ++ q1 ++ c :: q2). rewrite Hq1, Hq2 at 1. now rewrite <- !app_assoc.
Qed.

Lemma first_header_span_suffix s span :
  first_header_span s = Some span -> exists pre, s = pre ++ span.
Proof.
  induction s as [ | c s IH]; cbn [first_header_span].
  - destruct (header_span header_keywords []) eqn:E; [ | discriminate].
    intros H. injection H as ->. now apply (header_span_suffix header_keywords).
  - destruct (header_span header_keywords (c :: s)) eqn:E.
    + intros H. injection H as ->. now apply (header_span_suffix header_keywords).
    + intros H. destruct (IH H) as [pre ->]. now exists (c :: pre).
Qed.

(** [findall] reports the span of the leftmost header, and nothing else. *)
Lemma findall_skills s :
  tidy s = true ->
  findall1 skills_pattern s =
  match first_header_span s with
  | Some span => [span]
  | None => []
  end.
Proof.
  unfold findall1. induction s as [ | c s IH]; intros Ht; [reflexivity | ].
  cbn [finditer first_header_span]. rewrite (match_at_skills _ Ht).
  destruct (header_span header_keywords (c :: s)) as [span | ].
  - cbn [option_map map snd group Nat.eqb length Nat.sub].
    rewrite Nat.sub_0_r, finditer_skip_all. reflexivity.
  - cbn [option_map]. apply IH. now apply (tidy_tail c).
Qed.

(** *** Tokens *)

Lemma split_on_same d1 d2 s :
  forall cur,
    forallb (fun c => Bool.eqb (d1 c) (d2 c)) s = true ->
    split_on d1 s cur = split_on d2 s cur.
Proof.
  induction s as [ | c s IH]; intros cur H; [reflexivity | ].
  cbn [forallb] in H. apply andb_true_iff in H as [Hc H].
  apply Bool.eqb_prop in Hc. cbn [split_on]. rewrite Hc.
  destruct (d2 c); now rewrite IH.
Qed.

Lemma skills_of_match_tokens span :
  forallb (fun c => negb (Ascii.eqb c "010"%char)) span = true ->
  skills_of_match span = tokens span.
Proof.
  intros H. unfold skills_of_match, tokens. f_equal.
  rewrite (split_on_same is_delim (one_of ",;")).
  - apply filter_ext. now intros [ | ? ?].
  - eapply forallb_forall. intros c Hc.
    apply (proj1 (forallb_forall _ _) H) in Hc.
    unfold is_delim. apply negb_true_iff in Hc. rewrite Hc, orb_false_r.
    apply Bool.eqb_reflx.
Qed.

Lemma skills_list_spec text :
  skills_list text =
  match first_header_span (normalize (list_ascii_of_string text)) with
  | Some span => tokens span
  | None => []
  end.
Proof.
  unfold skills_list. rewrite (findall_skills _ (normalize_tidy _)).
  destruct (first_header_span _) as [span | ] eqn:E; [ | reflexivity].
  cbn [flat_map]. rewrite app_nil_r. apply skills_of_match_tokens.
  destruct (first_header_span_suffix _ _ E) as [pre Hpre].
  apply tidy_no_newline, (tidy_suffix pre). rewrite <- Hpre. apply normalize_tidy.
Qed.

End SkillFacts.

(** C3, the code as it is: [extract_skills_from_text] collapses the
    whitespace runs before anything else, so that the later split on
    comma, semicolon and newline finds no newline; it finds the leftmost
    header phrase followed by a colon or hyphen, takes as span all that
    follows in the collapsed text, later headers included, splits it,
    trims the pieces, drops the empty ones and returns the set.  On the
    sample of the claim it returns Python, Go and "Rust Other text",
    where the claim has Python, Go and Rust. *)
Theorem skills_after_leftmost_header (text : string) :
  extract_skills_from_text text = skills_after_first_header text
  /\ match first_header_span (normalize (list_ascii_of_string text)) with
     | Some span => exists pre, normalize (list_ascii_of_string text) = pre ++ span
     | None => True
     end
  /\ extract_skills_from_text skills_sample = {[ "Python"; "Go"; "Rust Other text" ]}
  /\ extract_skills_from_text "Skills: Python, Go Tools: Git"
     = {[ "Python"; "Go Tools: Git" ]}
  /\ extract_skills_from_text "Curriculum vitae without any header" = ∅.
Proof.
  split; [ | split; [ | split; [ | split]]].
  - unfold extract_skills_from_text, skills_after_first_header.
    rewrite SkillFacts.skills_list_spec.
    now destruct (first_header_span _).
  - destruct (first_header_span _) as [span | ] eqn:E; [ | exact I].
    now apply SkillFacts.first_header_span_suffix.
  - unfold extract_skills_from_text.
    replace (skills_list skills_sample) with ["Python"; "Go"; "Rust Other text"]
      by reflexivity.
    cbn [list_to_set]. set_solver.
  - unfold extract_skills_from_text.
    replace (skills_list "Skills: Python, Go Tools: Git") with ["Python"; "Go Tools: Git"]
      by reflexivity.
    cbn [list_to_set]. set_solver.
  - reflexivity.
Qed.

(** C3 fails on its own example: the newline that should end the last
    skill is collapsed to a space before the span is split, so the last
    skill runs to the end of the text. *)
Lemma skills_sample_not_three_names :
  extract_skills_from_text skills_sample <> {[ "Python"; "Go"; "Rust" ]}.
Proof.
  intros H.
  assert (Hin : "Rust Other text" ∈ extract_skills_from_text skills_sample).
  { unfold extract_skills_from_text.
    replace (skills_list skills_sample) with ["Python"; "Go"; "Rust Other text"]
      by reflexivity.
    cbn [list_to_set]. set_solver. }
  rewrite H in Hin.
  rewrite !elem_of_union, !elem_of_singleton in Hin.
  destruct Hin as [[Hin | Hin] | Hin]; discriminate.
Qed.

(** ** More on scoring and ranking *)

Module RankFacts.
Import PyStr Py Utils Ref Bot Chat.

Lemma sort_by_sorted_id {A K : Type} (key : A -> K) (ltb : K -> K -> bool) l :
  StronglySorted (Inv.key_le key ltb) l -> sort_by key ltb l = l.
Proof.
  induction 1 as [ | x l Hs IH Hall]; [reflexivity | ].
  cbn [sort_by fold_right]. fold (sort_by key ltb l). rewrite IH.
  destruct l as [ | y l]; [reflexivity | ].
  inversion Hall as [ | ? ? Hxy _]; subst. cbn [insert_by].
  unfold Inv.key_le in Hxy. now rewrite Hxy.
Qed.

Lemma sort_by_score_sorted (l : list result) :
  StronglySorted (Inv.key_le score Qltb) (sort_by score Qltb l).
Proof.
  apply SortFacts.sort_by_sorted.
  - intros a b H. apply SortFacts.Qltb_lt in H. apply SortFacts.Qltb_ge. now apply Qlt_le_weak.
  - intros a b c H1 H2. apply SortFacts.Qltb_ge in H1, H2. apply SortFacts.Qltb_ge.
    now apply (Qle_trans _ b).
Qed.

Lemma rank_descending (l : list result) :
  StronglySorted (fun a b => (score b <= score a)%Q) (rank l).
Proof.
  unfold rank, sorted.
  apply (SortFacts.strongly_sorted_rev (fun a b => (score a <= score b)%Q)).
  eapply SortFacts.strongly_sorted_impl; [ | apply sort_by_score_sorted].
  intros a b H. now apply SortFacts.Qltb_ge.
Qed.

Lemma threshold_passed t s1 s2 :
  (s1 <= s2)%Q -> Qle_bool t s1 = true -> Qle_bool t s2 = true.
Proof.
  intros H12 H. apply Qle_bool_iff in H. apply Qle_bool_iff. now apply (Qle_trans _ s1).
Qed.

(** A higher score never gets a lower category. *)
Lemma category_monotone s1 s2 :
  (s1 <= s2)%Q ->
  (category_level (get_similarity_category s1)
   <= category_level (get_similarity_category s2))%nat.
Proof.
  intros H. unfold get_similarity_category.
  destruct (Qle_bool 90 s1) eqn:E90.
  { rewrite (threshold_passed _ _ _ H E90). reflexivity. }
  destruct (Qle_bool 70 s1) eqn:E70.
  { rewrite (threshold_passed _ _ _ H E70). destruct (Qle_bool 90 s2); cbn; lia. }
  destruct (Qle_bool 50 s1) eqn:E50.
  { rewrite (threshold_passed _ _ _ H E50).
    destruct (Qle_bool 90 s2), (Qle_bool 70 s2); cbn; lia. }
  destruct (Qle_bool 30 s1) eqn:E30.
  { rewrite (threshold_passed _ _ _ H E30).
    destruct (Qle_bool 90 s2), (Qle_bool 70 s2), (Qle_bool 50 s2); cbn; lia. }
  destruct (Qle_bool 10 s1) eqn:E10.
  { rewrite (threshold_passed _ _ _ H E10).
    destruct (Qle_bool 90 s2), (Qle_bool 70 s2), (Qle_bool 50 s2), (Qle_bool 30 s2);
      cbn; lia. }
  cbn. lia.
Qed.

Lemma Qratio_pos (a b : Z) :
  (0 < a)%Z -> (0 < b)%Z -> (0 < inject_Z a / inject_Z b * 100)%Q.
Proof.
  intros Ha Hb. unfold Qlt, Qdiv, Qmult, Qinv, inject_Z.
  destruct b as [ | p | p]; simpl; lia.
Qed.

Lemma list_sum_pos (l : list nat) x : In x l -> (0 < x)%nat -> (0 < list_sum l)%nat.
Proof.
  induction l as [ | y l IH]; intros Hin Hx; [contradiction | ].
  cbn [list_sum fold_right]. fold (list_sum l). destruct Hin as [<- | Hin]; [lia | ].
  specialize (IH Hin Hx). lia.
Qed.

Lemma skills_component_pos text skills s :
  In s skills -> (0 < count (lower text) (lower s))%nat ->
  (0 < skills_component text skills)%Q.
Proof.
  intros Hin Hs. unfold skills_component.
  destruct skills as [ | s0 l] eqn:E; [contradiction | ]. rewrite <- E in *.
  apply Qratio_pos.
  - apply (inj_lt 0). apply (list_sum_pos _ (Nat.min 3 (count (lower text) (lower s)))).
    + now apply (in_map (fun s => Nat.min 3 (count (lower text) (lower s)))).
    + lia.
  - subst skills. cbn [length]. lia.
Qed.

Lemma Qmin_pos a b : (0 < a)%Q -> (0 < b)%Q -> (0 < Qmin a b)%Q.
Proof. intros Ha Hb. unfold Qmin. now destruct (Qle_bool a b). Qed.

Lemma Qmin_monotone a b c : (a <= b)%Q -> (Qmin a c <= Qmin b c)%Q.
Proof.
  intros H. unfold Qmin.
  destruct (Qle_bool a c) eqn:Ea, (Qle_bool b c) eqn:Eb.
  - exact H.
  - now apply Qle_bool_iff.
  - apply Qlt_le_weak, (Qlt_le_trans _ a); [ | exact H].
    apply Qnot_le_lt. intros Hac. apply Qle_bool_iff in Hac. congruence.
  - apply Qle_refl.
Qed.

(** What [get_resonant_skill] says about the counts. *)
Lemma resonant_none_iff text skills :
  get_resonant_skill text skills = None
  <-> Forall (fun s => count (lower text) (lower s) = 0%nat) skills.
Proof.
  unfold get_resonant_skill.
  pose proof (ResonantFacts.loop_inv_fold (lower text) (map lower skills)
                [] (0%nat, None) (ResonantFacts.loop_inv_init _)) as [Hle Hres].
  cbn [app] in Hle, Hres.
  destruct (fold_left _ _ _) as [m res]. cbn [fst snd] in *.
  destruct res as [r | ].
  - split; [discriminate | ]. intros Hall.
    destruct Hres as (Hpos & i & Hnth & Hcnt & _).
    apply nth_error_In, in_map_iff in Hnth as (s & <- & Hin).
    apply (proj1 (List.Forall_forall _ _) Hall) in Hin. lia.
  - split; [ | reflexivity]. intros _. apply List.Forall_forall. intros s Hin.
    specialize (Hle (lower s) (in_map lower _ _ Hin)). lia.
Qed.

Lemma zero_evidence_iff text skills :
  zero_evidence text skills = true
  <-> skills <> [] /\ Forall (fun s => count (lower text) (lower s) = 0%nat) skills.
Proof.
  unfold zero_evidence. destruct skills as [ | s0 l].
  - split; [discriminate | intros [H _]; congruence].
  - rewrite forallb_forall, List.Forall_forall. split.
    + intros H. split; [discriminate | ]. intros s Hs. now apply Nat.eqb_eq, H.
    + intros [_ H] s Hs. now apply Nat.eqb_eq, H.
Qed.

(** With required skills the score is the integer 0 and there is no
    resonant skill, or the score is greater than zero and there is one. *)
Lemma score_zero_or_positive text jd_text skills ry jy :
  skills <> [] ->
  (calculate_similarity_score text jd_text skills ry jy = 0%Q
   /\ get_resonant_skill text skills = None)
  \/ ((0 < calculate_similarity_score text jd_text skills ry jy)%Q
      /\ get_resonant_skill text skills <> None).
Proof.
  intros Hne. rewrite ScorerFacts.score_by_components, resonant_none_iff.
  destruct (zero_evidence text skills) eqn:E.
  - left. apply zero_evidence_iff in E as [_ H]. now split.
  - right.
    assert (Hnot : ~ Forall (fun s => count (lower text) (lower s) = 0%nat) skills).
    { intros Hall. assert (zero_evidence text skills = true)
        by now apply zero_evidence_iff.
      congruence. }
    split; [ | exact Hnot].
    apply neg_Forall_Exists_neg in Hnot; [ | intros s; apply Nat.eq_dec].
    apply List.Exists_exists in Hnot as (s & Hin & Hs).
    apply Qmin_pos; [ | reflexivity].
    pose proof (ScorerFacts.experience_component_bounds
                  (first_integer ry) (first_integer jy)
                  (ScorerFacts.first_integer_nonneg _)
                  (ScorerFacts.first_integer_nonneg _)) as [He _].
    assert (Hsk : (0 < skills_component text skills)%Q)
      by (apply (skills_component_pos _ _ s); [exact Hin | lia]).
    rewrite Qplus_comm. apply (Qplus_lt_le_compat 0 _ 0 _).
    + apply Qmult_lt_0_compat; [reflexivity | exact Hsk].
    + apply Qmult_le_0_compat; [discriminate | exact He].
Qed.

Lemma experience_component_monotone c1 c2 r :
  (0 <= c1)%Z -> (0 <= r)%Z -> (c1 <= c2)%Z ->
  (experience_component c1 r <= experience_component c2 r)%Q.
Proof.
  intros Hc1 Hr H. unfold experience_component.
  destruct (r =? 0)%Z eqn:Er; [apply Qle_refl | ].
  apply Z.eqb_neq in Er. rewrite !Z.geb_leb.
  destruct (r <=? c1)%Z eqn:E1.
  - apply Z.leb_le in E1. assert (E2 : (r <=? c2)%Z = true) by (apply Z.leb_le; lia).
    rewrite E2. apply Qle_refl.
  - apply Z.leb_gt in E1. destruct (r <=? c2)%Z eqn:E2.
    + apply ScorerFacts.Qratio_le_100; lia.
    + apply Z.leb_gt in E2.
      unfold Qle, Qdiv, Qmult, Qinv, inject_Z.
      destruct r as [ | p | p]; simpl; try lia. nia.
Qed.

End RankFacts.

(** X1: ranking a ranking changes nothing. *)
Theorem ranking_idempotent (results : list Bot.result) :
  Bot.rank (Bot.rank results) = Bot.rank results.
Proof.
  unfold Bot.rank, sorted. rewrite rev_involutive.
  now rewrite (RankFacts.sort_by_sorted_id _ _ _ (RankFacts.sort_by_score_sorted _)).
Qed.

(** X2: in the ranking of the scored resumes the categories never
    improve from one place to the next. *)
Theorem ranked_categories_descend
    (jd_text : string) (used_jd_skills : list string) (override_jd_years : string)
    (resumes : list (string * string * string * list string)) :
  StronglySorted
    (fun a b => (Chat.category_level (Bot.category b)
                 <= Chat.category_level (Bot.category a))%nat)
    (Bot.rank (map (Bot.score_resume jd_text used_jd_skills override_jd_years) resumes)).
Proof.
  set (results := map _ resumes).
  assert (Hcat : Forall (fun r => Bot.category r = get_similarity_category (Bot.score r))
                        (Bot.rank results)).
  { eapply Permutation_Forall; [apply SortFacts.sorted_perm | ].
    apply List.Forall_forall. intros r Hin. subst results.
    apply in_map_iff in Hin as ([[[name txt] yrs] mails] & <- & _). reflexivity. }
  pose proof (RankFacts.rank_descending results) as Hs.
  induction Hs as [ | a l Hs IH Hall]; [constructor | ].
  inversion Hcat as [ | ? ? Ha Hl]; subst.
  constructor; [now apply IH | ].
  apply List.Forall_forall. intros b Hb.
  rewrite Ha, (proj1 (List.Forall_forall _ _) Hl b Hb).
  apply RankFacts.category_monotone.
  now apply (proj1 (List.Forall_forall _ _) Hall).
Qed.

(** X3: when skills are required, the score is 0 exactly when there is
    no resonant skill: the value of the score is zero if and only if
    [get_resonant_skill] returns None, and with a resonant skill the
    score is greater than zero. *)
Theorem score_zero_iff_no_resonant_skill
    (resume_text jd_text : string) (jd_key_skills : list string)
    (resume_years jd_years : string) :
  jd_key_skills <> [] ->
  ((calculate_similarity_score resume_text jd_text jd_key_skills resume_years jd_years == 0)%Q
   <-> get_resonant_skill resume_text jd_key_skills = None)
  /\ (forall skill,
        get_resonant_skill resume_text jd_key_skills = Some skill ->
        (0 < calculate_similarity_score resume_text jd_text jd_key_skills
               resume_years jd_years)%Q).
Proof.
  intros Hne.
  destruct (RankFacts.score_zero_or_positive resume_text jd_text jd_key_skills
              resume_years jd_years Hne) as [[H0 Hnone] | [Hpos Hsome]].
  - split; [now rewrite H0 | intros skill Hs; congruence].
  - split; [ | intros skill _; exact Hpos]. split.
    + intros H0. rewrite H0 in Hpos. now apply Qlt_irrefl in Hpos.
    + intros Hn. congruence.
Qed.

Lemma score_zero_iff_no_resonant_skill_witness :
  ((calculate_similarity_score "Python and Go developer" "" ["Rust"; "Go"] "1" "3" == 0)%Q
   <-> get_resonant_skill "Python and Go developer" ["Rust"; "Go"] = None)
  /\ (forall skill,
        get_resonant_skill "Python and Go developer" ["Rust"; "Go"] = Some skill ->
        (0 < calculate_similarity_score "Python and Go developer" "" ["Rust"; "Go"] "1" "3")%Q).
Proof. apply score_zero_iff_no_resonant_skill. discriminate. Defined.

(** X4: without required skills the score is four tenths of the
    experience component: at most 40, and the category at best Average. *)
Theorem no_skills_caps_score (resume_text jd_text resume_years jd_years : string) :
  let s := calculate_similarity_score resume_text jd_text [] resume_years jd_years in
  (s == 0.4 * experience_component (first_integer resume_years) (first_integer jd_years))%Q
  /\ (s <= 40)%Q
  /\ (Chat.category_level (get_similarity_category s) <= 2)%nat.
Proof.
  cbv zeta. rewrite ScorerFacts.score_by_components. cbn [zero_evidence skills_component].
  pose proof (ScorerFacts.experience_component_bounds
                (first_integer resume_years) (first_integer jd_years)
                (ScorerFacts.first_integer_nonneg _)
                (ScorerFacts.first_integer_nonneg _)) as [He0 He].
  set (e := experience_component _ _) in *.
  assert (H40 : (0.4 * e + 0.6 * 0 <= 40)%Q).
  { rewrite Qmult_0_r, Qplus_0_r.
    apply (Qle_trans _ (0.4 * 100)); [ | discriminate].
    rewrite !(Qmult_comm 0.4). apply Qmult_le_compat_r; [exact He | discriminate]. }
  assert (Hmin : (Qmin (0.4 * e + 0.6 * 0) 100 == 0.4 * e + 0.6 * 0)%Q).
  { unfold Qmin. destruct (Qle_bool _ 100) eqn:E; [reflexivity | ].
    exfalso. assert (Qle_bool (0.4 * e + 0.6 * 0) 100 = true); [ | congruence].
    apply Qle_bool_iff. apply (Qle_trans _ 40); [exact H40 | discriminate]. }
  assert (Hs : (Qmin (0.4 * e + 0.6 * 0) 100 <= 40)%Q) by now rewrite Hmin.
  split; [rewrite Hmin; ring | split; [exact Hs | ]].
  unfold get_similarity_category.
  assert (Hno : forall t, (40 < t)%Q -> Qle_bool t (Qmin (0.4 * e + 0.6 * 0) 100) = false).
  { intros t Ht. destruct (Qle_bool t _) eqn:E; [ | reflexivity].
    apply Qle_bool_iff in E. exfalso.
    apply (Qlt_irrefl 40), (Qlt_le_trans _ t); [exact Ht | ].
    now apply (Qle_trans _ (Qmin (0.4 * e + 0.6 * 0) 100)). }
  rewrite (Hno 90%Q), (Hno 70%Q), (Hno 50%Q) by reflexivity.
  repeat match goal with
         | |- context [Qle_bool ?a ?b] => destruct (Qle_bool a b)
         end; cbn; lia.
Qed.

(** X5: more candidate years never lower the score. *)
Theorem score_monotone_in_candidate_years
    (resume_text jd_text : string) (jd_key_skills : list string)
    (years1 years2 jd_years : string) :
  (years_of years1 <= years_of years2)%Z ->
  (calculate_similarity_score resume_text jd_text jd_key_skills years1 jd_years
   <= calculate_similarity_score resume_text jd_text jd_key_skills years2 jd_years)%Q.
Proof.
  rewrite !ScorerFacts.years_of_first_integer. intros H.
  rewrite !ScorerFacts.score_by_components.
  destruct (zero_evidence resume_text jd_key_skills); [apply Qle_refl | ].
  apply RankFacts.Qmin_monotone, Qplus_le_compat; [ | apply Qle_refl].
  rewrite !(Qmult_comm 0.4). apply Qmult_le_compat_r; [ | discriminate].
  apply RankFacts.experience_component_monotone;
    [apply ScorerFacts.first_integer_nonneg | apply ScorerFacts.first_integer_nonneg | exact H].
Qed.

Lemma score_monotone_in_candidate_years_witness :
  (calculate_similarity_score "Go, Go and Python" "" ["Go"; "Python"] "2 years" "8"
   <= calculate_similarity_score "Go, Go and Python" "" ["Go"; "Python"] "5.5" "8")%Q.
Proof. apply score_monotone_in_candidate_years. vm_compute. discriminate. Defined.

(** ** More on the experience extractor *)

Module MergeFacts.
Import PyStr Py Utils Ref Shape.

Lemma merge_run_head rest :
  forall cur, exists e tl, merge_run cur rest = (fst cur, e) :: tl.
Proof.
  induction rest as [ | iv rest IH]; intros cur; cbn [merge_run].
  - exists (snd cur), []. now destruct cur.
  - destruct (fst iv <=? snd cur)%Z.
    + destruct (IH (fst cur, Z.max (snd cur) (snd iv))) as (e & tl & E). now exists e, tl.
    + exists (snd cur), (merge_run iv rest). now destruct cur.
Qed.

(** Each merged interval ends before the next one starts. *)
Lemma merge_run_apart rest : forall cur, Sorted apart (merge_run cur rest).
Proof.
  induction rest as [ | iv rest IH]; intros cur; cbn [merge_run].
  - repeat constructor.
  - destruct (fst iv <=? snd cur)%Z eqn:E; [apply IH | ].
    constructor; [apply IH | ].
    destruct (merge_run_head rest iv) as (e & tl & ->).
    constructor. unfold apart. cbn [fst]. apply Z.leb_gt in E. exact E.
Qed.

Lemma covers_refl iv : covers iv iv.
Proof. unfold covers. lia. Qed.

(** On intervals sorted by start, whatever the running interval
    contains, and every later interval, ends up inside a merged one. *)
Lemma merge_run_covers rest :
  forall cur,
    Forall (fun iv => (fst cur <= fst iv)%Z) rest ->
    StronglySorted (fun a b => (fst a <= fst b)%Z) rest ->
    (forall x, covers cur x -> Exists (fun m => covers m x) (merge_run cur rest))
    /\ Forall (fun iv => Exists (fun m => covers m iv) (merge_run cur rest)) rest.
Proof.
  induction rest as [ | iv rest IH]; intros cur Hcur Hs; cbn [merge_run].
  - split; [intros x Hx; now constructor | constructor].
  - inversion Hcur as [ | ? ? Hiv Hrest]; subst.
    inversion Hs as [ | ? ? Hs' Hall]; subst.
    unfold interval, datetime in *.
    destruct (fst iv <=? snd cur)%Z eqn:E.
    + destruct (IH (fst cur, Z.max (snd cur) (snd iv))) as [IH1 IH2]; [exact Hrest | exact Hs' | ].
      split.
      * intros x [Hx1 Hx2]. apply IH1. apply Z.leb_le in E.
        unfold covers, interval, datetime in *. cbn [fst snd] in *. lia.
      * constructor; [ | exact IH2]. apply IH1. apply Z.leb_le in E.
        unfold covers, interval, datetime in *. cbn [fst snd] in *. lia.
    + destruct (IH iv) as [IH1 IH2]; [exact Hall | exact Hs' | ].
      split.
      * intros x Hx. now apply Exists_cons_hd.
      * constructor.
        -- apply Exists_cons_tl, IH1, covers_refl.
        -- eapply List.Forall_impl; [ | exact IH2]. intros x Hx. now apply Exists_cons_tl.
Qed.

Lemma sorted_by_start (l : list interval) :
  StronglySorted (fun a b => (fst a <= fst b)%Z) (sorted fst Z.ltb false l).
Proof.
  unfold sorted.
  eapply SortFacts.strongly_sorted_impl; [ | apply (SortFacts.sort_by_sorted fst Z.ltb)].
  - intros a b H. unfold Inv.key_le in H. apply Z.ltb_ge in H. exact H.
  - intros a b H. apply Z.ltb_lt in H. apply Z.ltb_ge. lia.
  - intros a b c H1 H2. apply Z.ltb_ge in H1, H2. apply Z.ltb_ge. lia.
Qed.

Lemma py_round1_nonneg x : (0 <= x)%Q -> (0 <= py_round1 x)%Q.
Proof.
  unfold py_round1. intros Hx. rewrite Qred_correct.
  assert (Hn : (0 <= Qnum x)%Z) by (unfold Qle in Hx; simpl in Hx; lia).
  set (b := Zpos (Qden x)).
  assert (Hq : (0 <= 10 * Qnum x / b)%Z) by (apply Z.div_pos; subst b; lia).
  unfold Qle. cbn [Qnum Qden]. rewrite Z.mul_1_r. cbn [Z.mul].
  repeat match goal with |- context [if ?c then _ else _] => destruct c end; lia.
Qed.

End MergeFacts.

(** X6: the merging loop never raises on a non-empty interval list; the
    merged intervals lie strictly one after the other, and each of the
    given intervals is contained in one of them. *)
Theorem merged_intervals_apart_and_covering (iv0 : interval) (l : list interval) :
  exists merged,
    (first ← first_item (sorted fst Z.ltb false (iv0 :: l));
     fold_left merge_step (tl (sorted fst Z.ltb false (iv0 :: l))) (Ok [first]))
    = Ok merged
    /\ Sorted Shape.apart merged
    /\ Forall (fun iv => Exists (fun m => Shape.covers m iv) merged) (iv0 :: l).
Proof.
  pose proof (SortFacts.sorted_perm fst Z.ltb false (iv0 :: l)) as Hperm.
  pose proof (MergeFacts.sorted_by_start (iv0 :: l)) as Hs.
  destruct (sorted fst Z.ltb false (iv0 :: l)) as [ | first rest].
  { apply Permutation_length in Hperm. discriminate. }
  exists (merge_run first rest).
  split; [ | split].
  - unfold mbind, res_bind. cbn [first_item bind tl].
    apply (ExperienceFacts.merge_loop rest [] first).
  - apply MergeFacts.merge_run_apart.
  - inversion Hs as [ | ? ? Hs' Hall]; subst.
    destruct (MergeFacts.merge_run_covers rest first Hall Hs') as [H1 H2].
    eapply Permutation_Forall; [symmetry; exact Hperm | ].
    constructor; [apply H1, MergeFacts.covers_refl | exact H2].
Qed.

(** X7: with a rounding that keeps the sign, the years returned are not
    negative when every parsed date range ends no earlier than it
    starts. *)
Theorem years_nonnegative_for_ordered_ranges
    (round1 : Q -> Q) (parse : string -> res datetime) (now : datetime)
    (text : string) (y : Q) :
  (forall x, (0 <= x)%Q -> (0 <= round1 x)%Q) ->
  Forall Inv.ordered (collect_intervals parse now (date_matches text)) ->
  extract_years_experience round1 parse now text = Ok (Some y) ->
  (0 <= y)%Q.
Proof. apply ExperienceFacts.years_nonneg_when_ordered. Qed.

Lemma years_nonnegative_for_ordered_ranges_witness : (0 <= 11 # 5)%Q.
Proof.
  apply (years_nonnegative_for_ordered_ranges py_round1 parse_month_year 0%Z
           "Engineer, Jan 2019 - Mar 2021").
  - apply MergeFacts.py_round1_nonneg.
  - vm_compute. repeat constructor; discriminate.
  - vm_compute. reflexivity.
Defined.

(** X8: when the text states the years explicitly, the date ranges are
    not consulted: the result depends neither on the date parser nor on
    the current time. *)
Theorem explicit_years_ignore_dates
    (round1 : Q -> Q) (parse1 parse2 : string -> res datetime) (now1 now2 : datetime)
    (text : string) :
  explicit_matches text <> [] ->
  extract_years_experience round1 parse1 now1 text
  = extract_years_experience round1 parse2 now2 text.
Proof.
  intros Hne. rewrite !ExperienceFacts.extract_years_spec. unfold Inv.years_unrolled.
  destruct (explicit_matches text); [congruence | reflexivity].
Qed.

Lemma explicit_years_ignore_dates_witness :
  extract_years_experience py_round1 parse_month_year 0%Z
    "6 yrs exp; Jan 2001 - Present"
  = extract_years_experience py_round1 (fun _ => Raise ParserError) 1%Z
      "6 yrs exp; Jan 2001 - Present".
Proof. apply explicit_years_ignore_dates. vm_compute. discriminate. Defined.

(** ** More on the email and skill extractors *)

Module ShapeFacts.
Import PyStr Re Py Utils Ref Shape.

Lemma remove_ws_app a b : remove_ws (a ++ b) = remove_ws a ++ remove_ws b.
Proof. apply List.filter_app. Qed.

Lemma remove_ws_blank m : forallb is_space m = true -> remove_ws m = [].
Proof.
  induction m as [ | c m IH]; [reflexivity | ].
  cbn [forallb remove_ws List.filter]. intros H. apply andb_true_iff in H as [Hc H].
  rewrite Hc. cbn [negb]. now apply IH.
Qed.

Lemma remove_ws_solid m :
  forallb (fun c => negb (is_space c)) m = true -> remove_ws m = m.
Proof.
  induction m as [ | c m IH]; [reflexivity | ].
  cbn [forallb remove_ws List.filter]. intros H. apply andb_true_iff in H as [Hc H].
  rewrite Hc. f_equal. now apply IH.
Qed.

Lemma email_local_solid c : email_local c = true -> is_space c = false.
Proof.
  destruct c as [[] [] [] [] [] [] [] []]; vm_compute; intros H;
    first [reflexivity | discriminate].
Qed.

Lemma email_domain_local c : email_domain c = true -> email_local c = true.
Proof.
  unfold email_domain, email_local. rewrite !orb_true_iff.
  intros [[H | H] | H]; [now left; left | now left; right | right].
  unfold one_of in *. cbn [list_ascii_of_string existsb] in *.
  rewrite !orb_true_iff in *. destruct H as [H | [H | H]]; [tauto | tauto | discriminate].
Qed.

Lemma alpha_local c : is_alpha_ascii c = true -> email_local c = true.
Proof. intros H. unfold email_local. now rewrite H. Qed.

Section Spaced.
(** A class of characters that are not blanks, each followed by blanks. *)
Variable p : ascii -> bool.
Hypothesis p_solid : forall c, p c = true -> is_space c = false.

Lemma spaced_one m cs :
  matches (Seq (Chr p) (Star ws)) m cs ->
  exists c, p c = true /\ remove_ws m = [c].
Proof.
  intros H. inversion H as [ | | r1 r2 a b ca cb Ha Hb | | | | | ]; subst.
  inversion Ha; subst. exists c. split; [assumption | ].
  apply ExperienceFacts.matches_star_chr in Hb.
  cbn [app remove_ws List.filter]. rewrite (p_solid c) by assumption. cbn [negb].
  f_equal. now apply remove_ws_blank.
Qed.

Lemma spaced_star m cs :
  matches (Star (Seq (Chr p) (Star ws))) m cs -> forallb p (remove_ws m) = true.
Proof.
  remember (Star (Seq (Chr p) (Star ws))) as r eqn:E. intros H. revert E.
  induction H as [ | | | | | | r a b ca cb Ha _ Hb IH | ]; intros E; try discriminate.
  - reflexivity.
  - injection E as ->. apply spaced_one in Ha as (c & Hc & Ea).
    rewrite remove_ws_app, Ea. cbn [app forallb]. now rewrite Hc, IH.
Qed.

Lemma spaced_plus m cs :
  matches (Plus (Seq (Chr p) (Star ws))) m cs ->
  remove_ws m <> [] /\ forallb p (remove_ws m) = true.
Proof.
  intros H. inversion H as [ | | r1 r2 a b ca cb Ha Hb | | | | | ]; subst.
  apply spaced_one in Ha as (c & Hc & Ea). apply spaced_star in Hb.
  rewrite remove_ws_app, Ea. cbn [app forallb].
  split; [discriminate | now rewrite Hc, Hb].
Qed.
End Spaced.

Lemma matches_lit c m cs : matches (lit c) m cs -> m = [c].
Proof.
  intros H. inversion H as [ | q d Hd | | | | | | ]; subst.
  apply Ascii.eqb_eq in Hd. now subst.
Qed.

Lemma matches_tld m cs :
  matches (AtLeast 2 alpha) m cs ->
  (2 <= length m)%nat /\ forallb is_alpha_ascii m = true.
Proof.
  intros H. inversion H as [ | | r1 r2 a b ca cb Ha Hb | | | | | ]; subst.
  cbn [Rep] in Ha.
  inversion Ha as [ | | r1 r2 a1 a2 c1 c2 Hfst Hsnd | | | | | ]; subst.
  inversion Hfst; subst.
  inversion Hsnd as [ | | r1 r2 a3 a4 c3 c4 Hthd Hend | | | | | ]; subst.
  inversion Hthd; subst. inversion Hend; subst.
  apply ExperienceFacts.matches_star_chr in Hb.
  cbn [app length forallb]. split; [lia | ].
  repeat match goal with H : ?q _ = true |- _ => rewrite H; clear H end.
  reflexivity.
Qed.

(** The whitespace-free form of a word of the email pattern. *)
Lemma email_shape m cs :
  matches email_pattern m cs ->
  exists l d t,
    remove_ws m = l ++ "@"%char :: d ++ "."%char :: t
    /\ l <> [] /\ forallb email_local l = true
    /\ d <> [] /\ forallb email_domain d = true
    /\ (2 <= length t)%nat /\ forallb is_alpha_ascii t = true.
Proof.
  unfold email_pattern. cbn [seqs fold_right]. intros H.
  inversion H as [ | | r1 r2 m1 x1 ? ? H1 X1 | | | | | ]; subst.
  inversion X1 as [ | | r1 r2 m2 x2 ? ? H2 X2 | | | | | ]; subst.
  inversion X2 as [ | | r1 r2 m3 x3 ? ? H3 X3 | | | | | ]; subst.
  inversion X3 as [ | | r1 r2 m4 x4 ? ? H4 X4 | | | | | ]; subst.
  inversion X4 as [ | | r1 r2 m5 x5 ? ? H5 X5 | | | | | ]; subst.
  inversion X5 as [ | | r1 r2 m6 x6 ? ? H6 X6 | | | | | ]; subst.
  inversion X6 as [ | | r1 r2 m7 x7 ? ? H7 X7 | | | | | ]; subst.
  inversion X7; subst.
  apply (spaced_plus email_local email_local_solid) in H1 as [Hl1 Hl2].
  apply matches_lit in H2 as ->.
  apply ExperienceFacts.matches_star_chr, remove_ws_blank in H3.
  apply (spaced_plus email_domain (fun c Hc => email_local_solid c (email_domain_local c Hc)))
    in H4 as [Hd1 Hd2].
  apply matches_lit in H5 as ->.
  apply ExperienceFacts.matches_star_chr, remove_ws_blank in H6.
  apply matches_tld in H7 as [Ht1 Ht2].
  exists (remove_ws m1), (remove_ws m4), m7.
  split; [ | tauto].
  rewrite !remove_ws_app, H3, H6, app_nil_r.
  rewrite (remove_ws_solid m7).
  - reflexivity.
  - eapply forallb_forall. intros c Hc.
    apply (proj1 (forallb_forall _ _) Ht2) in Hc.
    apply negb_true_iff, email_local_solid, alpha_local, Hc.
Qed.

(** *** Trimming and cutting *)

Lemma drop_while_suffix p s : exists pre, s = pre ++ drop_while p s.
Proof.
  induction s as [ | c s [pre Hpre]]; [now exists [] | ].
  cbn [drop_while]. destruct (p c); [ | now exists []].
  exists (c :: pre). cbn [app]. now rewrite <- Hpre.
Qed.

Lemma drop_while_head p s c r : drop_while p s = c :: r -> p c = false.
Proof.
  induction s as [ | a s IH]; [discriminate | ].
  cbn [drop_while]. destruct (p a) eqn:E; [exact IH | ].
  intros H. injection H as <- _. exact E.
Qed.

Lemma drop_while_idem p s : drop_while p (drop_while p s) = drop_while p s.
Proof.
  destruct (drop_while p s) as [ | c r] eqn:E; [reflexivity | ].
  cbn [drop_while]. now rewrite (drop_while_head p s c r E).
Qed.

Lemma strip_trimmed s : trimmed (strip s).
Proof.
  unfold trimmed, strip, lstrip. split.
  - destruct (drop_while_suffix is_space (rev (drop_while is_space s))) as [pre Hpre].
    set (X := drop_while is_space (rev (drop_while is_space s))) in *.
    destruct (rev X) as [ | c r] eqn:EX; [reflexivity | ].
    cbn [drop_while].
    assert (Hc : is_space c = false).
    { apply (f_equal (@rev ascii)) in Hpre.
      rewrite rev_involutive, rev_app_distr, EX in Hpre. cbn [app] in Hpre.
      now apply (drop_while_head is_space s c _ Hpre). }
    now rewrite Hc.
  - rewrite rev_involutive. apply drop_while_idem.
Qed.

Lemma In_drop_while p s c : In c (drop_while p s) -> In c s.
Proof.
  destruct (drop_while_suffix p s) as [pre Hpre]. intros H.
  rewrite Hpre. apply in_or_app. now right.
Qed.

Lemma In_strip s c : In c (strip s) -> In c s.
Proof.
  unfold strip, lstrip. intros H.
  apply in_rev, In_drop_while, in_rev in H. now apply In_drop_while in H.
Qed.

Lemma split_on_pieces d s :
  forall cur p,
    forallb (fun c => negb (d c)) cur = true ->
    In p (split_on d s cur) -> forallb (fun c => negb (d c)) p = true.
Proof.
  induction s as [ | c s IH]; intros cur p Hcur Hin; cbn [split_on] in Hin.
  - destruct Hin as [<- | []]. exact Hcur.
  - destruct (d c) eqn:E.
    + destruct Hin as [<- | Hin]; [exact Hcur | now apply (IH [])].
    + apply (IH (cur ++ [c])); [ | exact Hin].
      rewrite SkillFacts.forallb_snoc, Hcur, E. reflexivity.
Qed.

Lemma stripped_piece d s p :
  In p (map strip (split_on d s [])) -> forallb (fun c => negb (d c)) p = true.
Proof.
  intros H. apply in_map_iff in H as (q & <- & Hq).
  apply forallb_forall. intros c Hc. apply In_strip in Hc.
  apply (proj1 (forallb_forall _ _) (split_on_pieces d s [] q eq_refl Hq)), Hc.
Qed.

(** *** Texts without a separator *)

Lemma In_split_ws s :
  forall cur w c, In w (split_ws s cur) -> In c w -> In c cur \/ In c s.
Proof.
  induction s as [ | a s IH]; intros cur w c Hw Hc; cbn [split_ws] in Hw.
  - destruct cur; [contradiction | ]. destruct Hw as [<- | []]. now left.
  - destruct (is_space a).
    + destruct cur as [ | b cur].
      * destruct (IH [] w c Hw Hc) as [[] | H]. right. now right.
      * destruct Hw as [<- | Hw]; [now left | ].
        destruct (IH [] w c Hw Hc) as [[] | H]. right. now right.
    + destruct (IH (cur ++ [a]) w c Hw Hc) as [H | H].
      * apply in_app_or in H as [H | [<- | []]]; [now left | right; now left].
      * right. now right.
Qed.

Lemma In_join sep ws c :
  In c (join sep ws) -> In c sep \/ exists w, In w ws /\ In c w.
Proof.
  induction ws as [ | w ws IH]; [intros [] | ].
  cbn [join]. destruct ws as [ | w' ws].
  - intros H. right. exists w. split; [now left | exact H].
  - intros H. apply in_app_or in H as [H | H].
    + right. exists w. split; [now left | exact H].
    + apply in_app_or in H as [H | H]; [now left | ].
      destruct (IH H) as [Hs | (x & Hx & Hcx)]; [now left | ].
      right. exists x. split; [now right | exact Hcx].
Qed.

Lemma In_normalize text c : In c (normalize text) -> c = " "%char \/ In c text.
Proof.
  unfold normalize. intros H. apply In_join in H as [[<- | []] | (w & Hw & Hc)]; [now left | ].
  destruct (In_split_ws text [] w c Hw Hc) as [[] | H]. now right.
Qed.

Lemma span_after_sep_has_sep s span :
  span_after_sep s = Some span -> exists c, In c s /\ one_of ":-" c = true.
Proof.
  unfold span_after_sep, lstrip.
  destruct (drop_while is_space s) as [ | c s1] eqn:E; [discriminate | ].
  destruct (one_of ":-" c) eqn:Hc; [ | discriminate]. intros _.
  exists c. split; [ | exact Hc]. apply (In_drop_while is_space). rewrite E. now left.
Qed.

Lemma header_span_has_sep kws s span :
  header_span kws s = Some span -> exists c, In c s /\ one_of ":-" c = true.
Proof.
  induction kws as [ | kw kws IH]; cbn [header_span]; [discriminate | ].
  destruct (strip_prefix_i (list_ascii_of_string kw) s) as [rest | ] eqn:E; [ | exact IH].
  destruct (span_after_sep rest) as [sp | ] eqn:E2; [ | exact IH].
  intros _. apply span_after_sep_has_sep in E2 as (c & Hin & Hc).
  destruct (SkillFacts.strip_prefix_i_suffix _ _ _ E) as [pre ->].
  exists c. split; [apply in_or_app; now right | exact Hc].
Qed.

Lemma first_header_span_has_sep s span :
  first_header_span s = Some span -> exists c, In c s /\ one_of ":-" c = true.
Proof.
  induction s as [ | a s IH]; cbn [first_header_span].
  - destruct (header_span header_keywords []) eqn:E; [ | discriminate].
    intros _. now apply (header_span_has_sep header_keywords [] c).
  - destruct (header_span header_keywords (a :: s)) eqn:E.
    + intros _. now apply (header_span_has_sep header_keywords (a :: s) c).
    + intros H. destruct (IH H) as (c & Hin & Hc). exists c. split; [now right | exact Hc].
Qed.

End ShapeFacts.

(** X9: every extracted email has the form local@domain.tld without any
    blank: a non-empty local part of the characters the pattern allows,
    a non-empty domain, and a last label of at least two letters. *)
Theorem extracted_emails_shape (text : string) :
  Forall (fun e =>
            exists l d t,
              list_ascii_of_string e = l ++ "@"%char :: d ++ "."%char :: t
              /\ l <> [] /\ forallb email_local l = true
              /\ d <> [] /\ forallb email_domain d = true
              /\ (2 <= length t)%nat /\ forallb is_alpha_ascii t = true)
         (extract_emails text).
Proof.
  apply List.Forall_forall. intros e Hin.
  unfold extract_emails, findall0 in Hin.
  apply in_map_iff in Hin as (m & <- & Hin).
  apply in_map_iff in Hin as ([m' cs] & <- & Hin).
  apply EngineFacts.finditer_sound in Hin as [Hm _].
  rewrite list_ascii_of_string_of_list_ascii. cbn [fst].
  now apply (ShapeFacts.email_shape m' cs).
Qed.

(** X10: every extracted skill is a non-empty token without a blank at
    either end and without comma, semicolon or newline. *)
Theorem extracted_skills_are_trimmed_tokens (text : string) :
  set_Forall (fun k =>
                k <> ""
                /\ Shape.trimmed (list_ascii_of_string k)
                /\ forallb (fun c => negb (is_delim c)) (list_ascii_of_string k) = true)
             (extract_skills_from_text text).
Proof.
  intros k Hk. unfold extract_skills_from_text in Hk.
  apply elem_of_list_to_set, list_elem_of_In in Hk.
  unfold skills_list in Hk. apply in_flat_map in Hk as (m & _ & Hk).
  unfold skills_of_match in Hk.
  apply in_map_iff in Hk as (p & <- & Hp).
  apply filter_In in Hp as [Hp Hne].
  rewrite list_ascii_of_string_of_list_ascii.
  split; [ | split].
  - destruct p; [discriminate | discriminate].
  - apply in_map_iff in Hp as (q & <- & _). apply ShapeFacts.strip_trimmed.
  - now apply (ShapeFacts.stripped_piece is_delim m).
Qed.

(** X11: a text with neither colon nor hyphen has no skill section: the
    extractor returns the empty set. *)
Theorem no_separator_no_skills (text : string) :
  forallb (fun c => negb (one_of ":-" c)) (list_ascii_of_string text) = true ->
  extract_skills_from_text text = ∅.
Proof.
  intros H. unfold extract_skills_from_text. rewrite SkillFacts.skills_list_spec.
  destruct (first_header_span _) as [span | ] eqn:E; [ | reflexivity].
  exfalso. apply ShapeFacts.first_header_span_has_sep in E as (c & Hin & Hc).
  apply ShapeFacts.In_normalize in Hin as [-> | Hin]; [discriminate | ].
  apply (proj1 (forallb_forall _ _) H) in Hin. rewrite Hc in Hin. discriminate.
Qed.

Lemma no_separator_no_skills_witness :
  extract_skills_from_text "Skills Python, Go and Rust" = ∅.
Proof. apply no_separator_no_skills. reflexivity. Defined.

(** ** The chat workflow *)

Module ChatFacts.
Import PyStr Chat Runs.

Section Session.
Context {R J : Type}.

Lemma step_cases s : step_case s.
Proof.
  destruct (String.eqb s "init") eqn:E0; [apply String.eqb_eq in E0; now apply at_init | ].
  destruct (String.eqb s "resume_upload") eqn:E1;
    [apply String.eqb_eq in E1; now apply at_resume_upload | ].
  destruct (String.eqb s "jd_choice") eqn:E2;
    [apply String.eqb_eq in E2; now apply at_jd_choice | ].
  destruct (String.eqb s "jd_upload") eqn:E3;
    [apply String.eqb_eq in E3; now apply at_jd_upload | ].
  destruct (String.eqb s "jd_manual") eqn:E4;
    [apply String.eqb_eq in E4; now apply at_jd_manual | ].
  destruct (String.eqb s "score") eqn:E5;
    [apply String.eqb_eq in E5; now apply at_score | ].
  apply at_other. unfold step_index. now rewrite E0, E1, E2, E3, E4, E5.
Qed.

Lemma step_index_other s :
  step_index s = None ->
  String.eqb s "init" = false /\ String.eqb s "resume_upload" = false
  /\ String.eqb s "jd_choice" = false
  /\ (String.eqb s "jd_upload" || String.eqb s "jd_manual") = false
  /\ String.eqb s "score" = false.
Proof.
  unfold step_index.
  destruct (String.eqb s "init"); [discriminate | ].
  destruct (String.eqb s "resume_upload"); [discriminate | ].
  destruct (String.eqb s "jd_choice"); [discriminate | ].
  destruct (String.eqb s "jd_upload" || String.eqb s "jd_manual"); [discriminate | ].
  destruct (String.eqb s "score"); [discriminate | tauto].
Qed.

Lemma current_step_add sender msg (st : session R J) :
  current_step (add_message sender msg st) = current_step st.
Proof. reflexivity. Qed.

Lemma current_step_set s (st : session R J) : current_step (set_step s st) = s.
Proof. reflexivity. Qed.

(** One message moves the workflow by at most one step, never back. *)
Lemma process_step (m : string) (st : session R J) :
  match step_index (current_step st) with
  | Some i =>
      exists j, step_index (current_step (process_chat_input m st)) = Some j
                /\ (i <= j <= S i)%nat /\ (j <= 4)%nat
  | None => current_step (process_chat_input m st) = current_step st
  end.
Proof.
  unfold process_chat_input. cbv zeta.
  destruct (step_cases (current_step st)) as [E | E | E | E | E | E | E].
  - rewrite E. cbn [String.eqb Ascii.eqb Bool.eqb step_index].
    destruct (String.eqb (clean m) "ready");
      rewrite ?current_step_set, ?current_step_add, ?E;
      eexists; (split; [reflexivity | lia]).
  - rewrite E. cbn [String.eqb Ascii.eqb Bool.eqb step_index].
    destruct (String.eqb (clean m) "continue");
      rewrite ?current_step_set, ?current_step_add, ?E;
      eexists; (split; [reflexivity | lia]).
  - rewrite E. cbn [String.eqb Ascii.eqb Bool.eqb step_index].
    destruct (String.eqb (clean m) "upload"), (String.eqb (clean m) "manual");
      rewrite ?current_step_set, ?current_step_add, ?E;
      eexists; (split; [reflexivity | lia]).
  - rewrite E. cbn [String.eqb Ascii.eqb Bool.eqb step_index orb].
    destruct (String.eqb (clean m) "continue");
      rewrite ?current_step_set, ?current_step_add, ?E;
      eexists; (split; [reflexivity | lia]).
  - rewrite E. cbn [String.eqb Ascii.eqb Bool.eqb step_index orb].
    destruct (String.eqb (clean m) "continue");
      rewrite ?current_step_set, ?current_step_add, ?E;
      eexists; (split; [reflexivity | lia]).
  - rewrite E. cbn [String.eqb Ascii.eqb Bool.eqb step_index orb].
    rewrite ?current_step_set, ?current_step_add, ?E.
    eexists; (split; [reflexivity | lia]).
  - rewrite E. destruct (step_index_other _ E) as (E0 & E1 & E2 & E3 & E4).
    rewrite E0, E1, E2, E3, E4. apply current_step_add.
Qed.

(** Several messages: no more steps than messages. *)
Lemma run_steps (ms : list string) :
  forall (st : session R J) i,
    step_index (current_step st) = Some i ->
    exists j, step_index (current_step (run ms st)) = Some j
              /\ (i <= j <= i + length ms)%nat /\ (j <= 4 \/ j = i)%nat.
Proof.
  induction ms as [ | m ms IH]; intros st i Hi; cbn [run fold_left length].
  - exists i. split; [exact Hi | lia].
  - pose proof (process_step m st) as Hstep. rewrite Hi in Hstep.
    destruct Hstep as (k & Hk & Hik & Hk4).
    destruct (IH (process_chat_input m st) k Hk) as (j & Hj & Hkj & Hj4).
    exists j. split; [exact Hj | lia].
Qed.

(** What one message adds to the chat. *)
Lemma process_history (m : string) (st : session R J) :
  exists replies,
    chat_history (process_chat_input m st)
    = Some (history st ++ mk_message "user" m :: replies)
    /\ (length replies <= 1)%nat
    /\ Forall (fun r => sender r = "bot") replies
    /\ (replies = [] ->
        step_index (current_step st) = None \/ current_step st = "resume_upload").
Proof.
  unfold process_chat_input. cbv zeta.
  destruct (step_cases (current_step st)) as [E | E | E | E | E | E | E].
  - rewrite E. cbn [String.eqb Ascii.eqb Bool.eqb].
    destruct (String.eqb (clean m) "ready"); eexists;
      (split; [cbn; rewrite <- app_assoc; reflexivity | ]);
      (split; [cbn; lia | split; [repeat constructor | discriminate]]).
  - rewrite E. cbn [String.eqb Ascii.eqb Bool.eqb].
    destruct (String.eqb (clean m) "continue").
    + eexists; (split; [cbn; rewrite <- app_assoc; reflexivity | ]);
        (split; [cbn; lia | split; [repeat constructor | discriminate]]).
    + exists []. split; [reflexivity | ]. split; [cbn; lia | ].
      split; [constructor | intros _; now right].
  - rewrite E. cbn [String.eqb Ascii.eqb Bool.eqb].
    destruct (String.eqb (clean m) "upload"), (String.eqb (clean m) "manual"); eexists;
      (split; [cbn; rewrite <- app_assoc; reflexivity | ]);
      (split; [cbn; lia | split; [repeat constructor | discriminate]]).
  - rewrite E. cbn [String.eqb Ascii.eqb Bool.eqb orb].
    destruct (String.eqb (clean m) "continue"); eexists;
      (split; [cbn; rewrite <- app_assoc; reflexivity | ]);
      (split; [cbn; lia | split; [repeat constructor | discriminate]]).
  - rewrite E. cbn [String.eqb Ascii.eqb Bool.eqb orb].
    destruct (String.eqb (clean m) "continue"); eexists;
      (split; [cbn; rewrite <- app_assoc; reflexivity | ]);
      (split; [cbn; lia | split; [repeat constructor | discriminate]]).
  - rewrite E. cbn [String.eqb Ascii.eqb Bool.eqb orb].
    eexists; (split; [cbn; rewrite <- app_assoc; reflexivity | ]);
      (split; [cbn; lia | split; [repeat constructor | discriminate]]).
  - destruct (step_index_other _ E) as (E0 & E1 & E2 & E3 & E4).
    rewrite E0, E1, E2, E3, E4. exists []. split; [reflexivity | ].
    split; [cbn; lia | ]. split; [constructor | intros _; now left].
Qed.

(** A session in an unknown step only records what the user says. *)
Lemma run_stuck (ms : list string) :
  forall st : session R J,
    step_index (current_step st) = None ->
    current_step (run ms st) = current_step st
    /\ history (run ms st) = history st ++ map (mk_message "user") ms.
Proof.
  induction ms as [ | m ms IH]; intros st Hst; cbn [run fold_left map].
  - split; [reflexivity | now rewrite app_nil_r].
  - assert (E : process_chat_input m st = add_message "user" m st).
    { unfold process_chat_input. cbv zeta.
      destruct (step_index_other _ Hst) as (E0 & E1 & E2 & E3 & E4).
      now rewrite E0, E1, E2, E3, E4. }
    rewrite E. destruct (IH (add_message "user" m st)) as [H1 H2]; [exact Hst | ].
    split; [exact H1 | ].
    change (fold_left (fun st0 m0 => process_chat_input m0 st0) ms (add_message "user" m st))
      with (run ms (add_message "user" m st)).
    rewrite H2. unfold history at 1. cbn [add_message chat_history].
    fold (history st). now rewrite <- app_assoc.
Qed.

Lemma instructions_known (st : session R J) i :
  step_index (current_step st) = Some i -> get_instructions st <> fallback_instructions.
Proof.
  intros Hi. unfold get_instructions. cbv zeta.
  destruct (step_cases (current_step st)) as [E | E | E | E | E | E | E];
    try (rewrite E; cbn [String.eqb Ascii.eqb Bool.eqb];
         try destruct (String.eqb _ "Multi-Resume Matcher"); vm_compute; discriminate).
  congruence.
Qed.

(** [init_session_state] in one piece. *)
Lemma init_closed_form choice (st : session R J) :
  init_session_state choice st =
  let multi := String.eqb choice "Multi-Resume Matcher" in
  mk_session (Some choice) (Some (current_step st))
    (Some match chat_history st with
          | Some h => h
          | None => [mk_message "bot"
                       "Hi, I am the Resume-JD Analyser. (Type 'ready' to proceed.)"]
          end)
    (if multi then Some match resumes st with Some l => l | None => [] end else resumes st)
    (if multi then resume st else Some match resume st with Some r => r | None => None end)
    (if multi then jd_list st else Some match jd_list st with Some l => l | None => [] end).
Proof.
  destruct st as [mt stp hist rs r jl]. unfold init_session_state.
  cbn [matcher_type step chat_history resumes resume jd_list].
  destruct stp, hist, rs, r, jl;
    cbn [set_step add_message matcher_type step chat_history resumes resume jd_list app
         current_step];
    destruct (String.eqb choice "Multi-Resume Matcher"); reflexivity.
Qed.

End Session.

(** *** Keyword input *)

Lemma split_on_prefix d k :
  forall s cur,
    forallb (fun c => negb (d c)) k = true ->
    split_on d (k ++ s) cur = split_on d s (cur ++ k).
Proof.
  induction k as [ | c k IH]; intros s cur H; cbn [app].
  - now rewrite app_nil_r.
  - cbn [forallb] in H. apply andb_true_iff in H as [Hc H].
    apply negb_true_iff in Hc. cbn [split_on]. rewrite Hc, (IH _ _ H).
    now rewrite <- app_assoc.
Qed.

Lemma strip_tidy k : tidy_keyword k -> strip k = k.
Proof.
  intros (_ & _ & H1 & H2). unfold strip. now rewrite H1, H2, rev_involutive.
Qed.

Lemma strip_after_space k : strip (" "%char :: k) = strip k.
Proof. reflexivity. Qed.

Lemma split_keyword_tidy k : Forall tidy_keyword (split_keyword k).
Proof.
  apply List.Forall_forall. intros p Hp. unfold split_keyword in Hp.
  apply filter_In in Hp as [Hp Hne].
  pose proof (ShapeFacts.stripped_piece is_comma k p Hp) as Hcomma.
  apply in_map_iff in Hp as (q & <- & _).
  destruct (ShapeFacts.strip_trimmed q) as [H1 H2].
  repeat split; try assumption.
  intros E. rewrite E in Hne. discriminate.
Qed.

Lemma split_keyword_id k : tidy_keyword k -> split_keyword k = [k].
Proof.
  intros Hk. pose proof Hk as (Hne & Hcomma & _).
  unfold split_keyword.
  pose proof (split_on_prefix is_comma k [] [] Hcomma) as E.
  rewrite app_nil_r in E. rewrite E. cbn [split_on app map List.filter].
  rewrite (strip_tidy k Hk). destruct k; [congruence | reflexivity].
Qed.

Lemma process_keywords_id ks :
  Forall tidy_keyword ks -> process_keywords ks = ks.
Proof.
  induction 1 as [ | k ks Hk _ IH]; [reflexivity | ].
  unfold process_keywords in *. cbn [flat_map].
  now rewrite (split_keyword_id k Hk), IH.
Qed.

Lemma split_on_join ks :
  forall cur,
    ks <> [] -> Forall tidy_keyword ks ->
    split_on is_comma (join [","%char; " "%char] ks) cur
    = (cur ++ hd [] ks) :: map (cons " "%char) (tl ks).
Proof.
  induction ks as [ | k ks IH]; intros cur Hne Hks; [congruence | ].
  inversion Hks as [ | ? ? Hk Hks']; subst.
  pose proof Hk as (_ & Hcomma & _).
  destruct ks as [ | k' ks].
  - cbn [join hd tl map].
    pose proof (split_on_prefix is_comma k [] cur Hcomma) as E.
    rewrite app_nil_r in E. rewrite E. reflexivity.
  - change (join [","%char; " "%char] (k :: k' :: ks))
      with (k ++ [","%char; " "%char] ++ join [","%char; " "%char] (k' :: ks)).
    rewrite (split_on_prefix is_comma k _ cur Hcomma).
    cbn [app split_on is_comma Ascii.eqb Bool.eqb hd tl map].
    rewrite (IH [" "%char]); [reflexivity | discriminate | exact Hks'].
Qed.

Lemma split_keyword_join ks :
  Forall tidy_keyword ks -> split_keyword (jd_text_of ks) = ks.
Proof.
  intros Hks. destruct ks as [ | k ks]; [reflexivity | ].
  unfold split_keyword, jd_text_of.
  rewrite (split_on_join (k :: ks) []); [ | discriminate | exact Hks].
  cbn [app hd tl map]. inversion Hks as [ | ? ? Hk Hks']; subst.
  rewrite (strip_tidy k Hk). cbn [List.filter].
  destruct Hk as (Hne & _). destruct k as [ | c k]; [congruence | ].
  cbn [length Nat.eqb negb]. f_equal.
  clear Hne Hks. induction Hks' as [ | k' ks Hk' _ IH]; [reflexivity | ].
  cbn [map List.filter]. rewrite strip_after_space, (strip_tidy k' Hk').
  destruct Hk' as (Hne' & _). destruct k' as [ | c' k']; [congruence | ].
  cbn [length Nat.eqb negb]. now rewrite IH.
Qed.

(** *** Ordinals *)

Lemma append_length s t : String.length (String.append s t) = (String.length s + String.length t)%nat.
Proof. induction s as [ | c s IH]; simpl; [reflexivity | now f_equal]. Qed.

Lemma append_inj s1 :
  forall s2 t1 t2,
    String.length s1 = String.length s2 ->
    String.append s1 t1 = String.append s2 t2 -> s1 = s2.
Proof.
  induction s1 as [ | c s1 IH]; intros [ | d s2] t1 t2 Hlen H; try discriminate.
  - reflexivity.
  - cbn in Hlen, H. injection H as -> H. f_equal. apply (IH s2 t1 t2); [lia | exact H].
Qed.

Lemma ordinal_suffix_length n : String.length (ordinal_suffix n) = 2%nat.
Proof.
  unfold ordinal_suffix, suffix_of_digit.
  repeat match goal with |- context [if ?c then _ else _] => destruct c end; reflexivity.
Qed.

Lemma to_int_proper n : Z.to_int n <> Decimal.Pos Decimal.Nil /\ Z.to_int n <> Decimal.Neg Decimal.Nil.
Proof.
  destruct n as [ | p | p]; cbn; split; try discriminate; intros H; injection H as H;
    now apply (DecimalPos.Unsigned.to_uint_nonnil p).
Qed.

Lemma str_of_int_inj n m : str_of_int n = str_of_int m -> n = m.
Proof.
  unfold str_of_int. intros H.
  apply (f_equal NilZero.int_of_string) in H.
  destruct (to_int_proper n) as [Hn1 Hn2]. destruct (to_int_proper m) as [Hm1 Hm2].
  rewrite !NilZero.isi in H by assumption.
  injection H as H. now apply DecimalZ.to_int_inj.
Qed.

Lemma ordinal_inj n m : ordinal n = ordinal m -> n = m.
Proof.
  unfold ordinal. intros H. apply str_of_int_inj.
  apply (append_inj _ _ _ _) in H; [exact H | ].
  apply (f_equal String.length) in H.
  rewrite !append_length, !ordinal_suffix_length in H. lia.
Qed.

End ChatFacts.

(** X12: however many messages the user sends, the workflow only moves
    forward, and by no more steps than there are messages; the last
    step, score, is never left. *)
Theorem chat_moves_forward
    {R J : Type} (messages : list string) (st : Chat.session R J) (i : nat) :
  Chat.step_index (Chat.current_step st) = Some i ->
  exists j,
    Chat.step_index (Chat.current_step (Runs.run messages st)) = Some j
    /\ (i <= j <= i + length messages)%nat /\ (j <= 4)%nat.
Proof.
  intros Hi. destruct (ChatFacts.run_steps messages st i Hi) as (j & Hj & Hij & Hj4).
  exists j. split; [exact Hj | split; [exact Hij | ]].
  destruct Hj4 as [H | ->]; [exact H | ].
  unfold Chat.step_index in Hi.
  repeat match type of Hi with (if ?c then _ else _) = _ => destruct c end;
    try discriminate; injection Hi as <-; lia.
Qed.

Lemma chat_moves_forward_witness :
  exists j,
    Chat.step_index
      (Chat.current_step
         (Runs.run ["ready"; "what now?"; "  Continue "]
            (Chat.mk_session (R := unit) (J := unit) None None None None None None)))
    = Some j
    /\ (0 <= j <= 0 + 3)%nat /\ (j <= 4)%nat.
Proof. apply chat_moves_forward. reflexivity. Defined.

(** X13: one message adds to the chat the user's message as typed, then
    at most one reply of the bot, and leaves the rest of the history as
    it was; there is no reply only in the resume upload step, or in an
    unknown step. *)
Theorem chat_history_grows {R J : Type} (m : string) (st : Chat.session R J) :
  exists replies,
    Chat.chat_history (Chat.process_chat_input m st)
    = Some (Runs.history st ++ Chat.mk_message "user" m :: replies)
    /\ (length replies <= 1)%nat
    /\ Forall (fun r => Chat.sender r = "bot") replies
    /\ (replies = [] ->
        Chat.step_index (Chat.current_step st) = None
        \/ Chat.current_step st = "resume_upload").
Proof. apply ChatFacts.process_history. Qed.

(** X14: in a step that is not one of the workflow, the chat records
    what the user says, never answers and never changes the step. *)
Theorem unknown_step_is_stuck
    {R J : Type} (messages : list string) (st : Chat.session R J) :
  Chat.step_index (Chat.current_step st) = None ->
  Chat.current_step (Runs.run messages st) = Chat.current_step st
  /\ Runs.history (Runs.run messages st)
     = Runs.history st ++ map (Chat.mk_message "user") messages.
Proof. apply ChatFacts.run_stuck. Qed.

Lemma unknown_step_is_stuck_witness :
  let st := Chat.mk_session (R := unit) (J := unit) None (Some "done") None None None None in
  Chat.current_step (Runs.run ["ready"; "continue"] st) = Chat.current_step st
  /\ Runs.history (Runs.run ["ready"; "continue"] st)
     = Runs.history st ++ map (Chat.mk_message "user") ["ready"; "continue"].
Proof. apply unknown_step_is_stuck. reflexivity. Defined.

(** X15: from a step of the workflow, whatever the user types
    afterwards, the sidebar shows the instructions of a step, never the
    fallback text. *)
Theorem instructions_never_fall_back
    {R J : Type} (messages : list string) (st : Chat.session R J) (i : nat) :
  Chat.step_index (Chat.current_step st) = Some i ->
  Chat.get_instructions (Runs.run messages st) <> Chat.fallback_instructions.
Proof.
  intros Hi. destruct (ChatFacts.run_steps messages st i Hi) as (j & Hj & _).
  now apply (ChatFacts.instructions_known _ j).
Qed.

Lemma instructions_never_fall_back_witness :
  Chat.get_instructions
    (Runs.run ["ready"; "continue"; "manual"]
       (Chat.mk_session (R := unit) (J := unit) (Some "Multi-JD Matcher") None None None
          None None))
  <> Chat.fallback_instructions.
Proof. apply (instructions_never_fall_back _ _ 0%nat). reflexivity. Defined.

(** X16: initialising a session twice is initialising it once (the
    greeting is posted once); it keeps the step and the chat of a session
    that has them, also when the matcher type is switched. *)
Theorem init_session_state_idempotent
    {R J : Type} (choice choice' : string) (st : Chat.session R J) :
  Chat.init_session_state choice (Chat.init_session_state choice st)
  = Chat.init_session_state choice st
  /\ Chat.chat_history (Chat.init_session_state choice' (Chat.init_session_state choice st))
     = Chat.chat_history (Chat.init_session_state choice st)
  /\ Chat.current_step (Chat.init_session_state choice st) = Chat.current_step st
  /\ Chat.matcher_type (Chat.init_session_state choice st) = Some choice
  /\ Runs.history (Chat.init_session_state choice st)
     = match Chat.chat_history st with
       | Some h => h
       | None => [Chat.mk_message "bot"
                    "Hi, I am the Resume-JD Analyser. (Type 'ready' to proceed.)"]
       end.
Proof.
  rewrite !ChatFacts.init_closed_form.
  cbn [Chat.matcher_type Chat.step Chat.chat_history Chat.resumes Chat.resume Chat.jd_list
       Chat.current_step Runs.history].
  destruct st as [mt stp hist rs r jl].
  cbn [Chat.matcher_type Chat.step Chat.chat_history Chat.resumes Chat.resume Chat.jd_list].
  destruct (String.eqb choice "Multi-Resume Matcher"),
           (String.eqb choice' "Multi-Resume Matcher"), stp, hist, rs, r, jl;
    repeat split.
Qed.

(** X17: the key skills typed by the user come out as non-empty
    keywords without comma and without a blank at either end; feeding
    them to the keyword loop again, as the override field does, or
    splitting the text they are joined into, gives the same list. *)
Theorem processed_keywords_are_stable (inputs : list PyStr.chars) :
  let ks := Chat.process_keywords inputs in
  Forall Chat.tidy_keyword ks
  /\ Chat.process_keywords ks = ks
  /\ Chat.used_jd_skills (Chat.process_keywords ks) ks = ks
  /\ Chat.process_keywords [Chat.jd_text_of ks] = ks.
Proof.
  cbv zeta.
  assert (Ht : Forall Chat.tidy_keyword (Chat.process_keywords inputs)).
  { unfold Chat.process_keywords. induction inputs as [ | k inputs IH]; [constructor | ].
    cbn [flat_map]. apply List.Forall_app. split; [apply ChatFacts.split_keyword_tidy | exact IH]. }
  split; [exact Ht | ].
  rewrite (ChatFacts.process_keywords_id _ Ht).
  split; [reflexivity | split].
  - now destruct (Chat.process_keywords inputs).
  - unfold Chat.process_keywords at 1. cbn [flat_map]. rewrite app_nil_r.
    now apply ChatFacts.split_keyword_join.
Qed.

(** X18: the labels of the places of a ranking, 1st, 2nd, 3rd, ..., are
    pairwise different, whatever its length. *)
Theorem place_labels_distinct (n : nat) :
  List.NoDup (Runs.place_labels n) /\ length (Runs.place_labels n) = n.
Proof.
  unfold Runs.place_labels. split; [ | now rewrite length_map, length_seq].
  apply Finite.Injective_map_NoDup; [ | apply List.seq_NoDup].
  intros a b H. apply ChatFacts.ordinal_inj in H. lia.
Qed.

(** ** Reading the answers of the language model *)

Module AiFacts.
Import PyStr Re Py Utils Ref Chat Ai.

Lemma split_on_two d x c z :
  forall cur,
    d c = true ->
    exists p q qs, split_on d (x ++ c :: z) cur = p :: q :: qs.
Proof.
  assert (Hone : forall s cur, exists p ps, split_on d s cur = p :: ps).
  { induction s as [ | a s IH]; intros cur; cbn [split_on]; [now exists cur, [] | ].
    destruct (d a); [now exists cur, (split_on d s []) | apply IH]. }
  induction x as [ | a x IH]; intros cur Hc; cbn [app split_on].
  - rewrite Hc. destruct (Hone z []) as (q & qs & ->). now exists cur, q, qs.
  - destruct (d a); [ | now apply IH].
    destruct (Hone (x ++ c :: z) []) as (q & qs & ->). now exists cur, q, qs.
Qed.

Lemma digit_not_bar c : is_digit c = true -> is_bar c = false.
Proof.
  destruct c as [[] [] [] [] [] [] [] []]; vm_compute; intros H;
    first [reflexivity | discriminate].
Qed.

Lemma digit_solid c : is_digit c = true -> is_space c = false.
Proof.
  destruct c as [[] [] [] [] [] [] [] []]; vm_compute; intros H;
    first [reflexivity | discriminate].
Qed.

(** A decimal has no bar and no blank. *)
Lemma decimal_chars num cs :
  matches decimal_pattern num cs ->
  forallb (fun c => negb (is_bar c)) num = true
  /\ forallb (fun c => negb (is_space c)) num = true.
Proof.
  unfold decimal_pattern. intros H.
  inversion H as [ | | r1 r2 a b ca cb Ha Hb | | | | | ]; subst.
  apply ExperienceFacts.matches_plus_chr in Ha as (c & a' & -> & Hc & Ha').
  assert (Hdig : forall l, forallb is_digit l = true ->
                 forallb (fun c => negb (is_bar c)) l = true
                 /\ forallb (fun c => negb (is_space c)) l = true).
  { intros l Hl. split; apply forallb_forall; intros x Hx;
      apply (proj1 (forallb_forall _ _) Hl) in Hx.
    - now rewrite (digit_not_bar x Hx).
    - now rewrite (digit_solid x Hx). }
  assert (Hhead : forallb is_digit (c :: a') = true) by (cbn [forallb]; now rewrite Hc).
  destruct (Hdig _ Hhead) as [D1 D2].
  inversion Hb as [ | | | r1 r2 x cx Hfrac | r1 r2 x cx Heps | | | ]; subst.
  - inversion Hfrac as [ | | r1 r2 d f cd cf Hd Hf | | | | | ]; subst.
    apply ShapeFacts.matches_lit in Hd as ->.
    apply ExperienceFacts.matches_plus_chr in Hf as (e & f' & -> & He & Hf').
    assert (Hfr : forallb is_digit (e :: f') = true) by (cbn [forallb]; now rewrite He).
    destruct (Hdig _ Hfr) as [F1 F2].
    rewrite !forallb_app. cbn [app] in *.
    change (forallb (fun c => negb (is_bar c)) ("."%char :: e :: f'))
      with (forallb (fun c => negb (is_bar c)) (e :: f')).
    change (forallb (fun c => negb (is_space c)) ("."%char :: e :: f'))
      with (forallb (fun c => negb (is_space c)) (e :: f')).
    now rewrite D1, D2, F1, F2.
  - inversion Heps; subst. rewrite app_nil_r. now split.
Qed.

Lemma solid_strip s : forallb (fun c => negb (is_space c)) s = true -> strip s = s.
Proof.
  intros H.
  assert (Hl : forall t, forallb (fun c => negb (is_space c)) t = true -> lstrip t = t).
  { intros [ | c t] Ht; [reflexivity | ]. cbn [forallb] in Ht.
    apply andb_true_iff in Ht as [Hc _]. apply negb_true_iff in Hc.
    unfold lstrip. cbn [drop_while]. now rewrite Hc. }
  unfold strip. rewrite (Hl s H), Hl, rev_involutive; [reflexivity | ].
  apply forallb_forall. intros c Hc. apply in_rev in Hc.
  now apply (proj1 (forallb_forall _ _) H).
Qed.

(** The shape of a line that the summary pattern accepts. *)
Lemma summary_shape line :
  is_summary line = true ->
  exists num x rest,
    line = num ++ bar :: x ++ bar :: rest
    /\ matches decimal_pattern num [].
Proof.
  unfold is_summary.
  destruct (rmatch summary_pattern line [] at_end) as [out | ] eqn:E; [ | discriminate].
  intros _. apply EngineFacts.rmatch_sound in E as (pre & added & s1 & -> & Hm & _).
  unfold summary_pattern in Hm. cbn [seqs fold_right] in Hm.
  inversion Hm as [ | | r1 r2 m1 x1 ? ? H1 X1 | | | | | ]; subst.
  inversion X1 as [ | | r1 r2 m2 x2 ? ? H2 X2 | | | | | ]; subst.
  inversion X2 as [ | | r1 r2 m3 x3 ? ? H3 X3 | | | | | ]; subst.
  inversion X3 as [ | | r1 r2 m4 x4 ? ? H4 X4 | | | | | ]; subst.
  inversion X4 as [ | | r1 r2 m5 x5 ? ? H5 X5 | | | | | ]; subst.
  inversion X5 as [ | | r1 r2 m6 x6 ? ? H6 X6 | | | | | ]; subst.
  inversion X6; subst.
  apply ShapeFacts.matches_lit in H3 as ->. apply ShapeFacts.matches_lit in H5 as ->.
  exists (m1 ++ m2), m4, (m6 ++ s1). split.
  - rewrite app_nil_r. cbn [app]. rewrite <- !app_assoc. cbn [app].
    now rewrite <- !app_assoc.
  - unfold decimal_pattern.
    pose proof (ExperienceFacts.matches_groupless _ _ _ H1 eq_refl) as ->.
    change (@nil (nat * chars)) with (@nil (nat * chars) ++ []).
    constructor; [exact H1 | ].
    inversion H2 as [ | | | r1 r2 y cy Hfrac | r1 r2 y cy Heps | | | ]; subst.
    + inversion Hfrac as [ | | | | | | | i r y' cy' Hin ]; subst.
      pose proof (ExperienceFacts.matches_groupless _ _ _ Hin eq_refl) as ->.
      now apply M_alt_l.
    + inversion Heps; subst. apply M_alt_r. constructor.
Qed.

(** The fields of a summary line. *)
Lemma summary_fields line :
  is_summary line = true ->
  exists num p1 p2 more q,
    split_on is_bar line [] = num :: p1 :: p2 :: more
    /\ matches decimal_pattern num []
    /\ float_of_chars (strip num) = Ok q /\ (0 <= q)%Q.
Proof.
  intros H. apply summary_shape in H as (num & x & rest & -> & Hnum).
  destruct (decimal_chars num [] Hnum) as [Hbar Hsolid].
  pose proof (ChatFacts.split_on_prefix is_bar num (bar :: x ++ bar :: rest) [] Hbar) as E.
  cbn [app] in E. rewrite E. cbn [split_on].
  change (is_bar bar) with true. cbn match.
  destruct (split_on_two is_bar x bar rest [] eq_refl) as (p1 & p2 & more & ->).
  destruct (ExperienceFacts.float_of_decimal num [] Hnum) as [q Hq].
  exists num, p1, p2, more, q. rewrite (solid_strip num Hsolid).
  repeat split; try assumption. now apply (ExperienceFacts.float_of_chars_nonneg num).
Qed.

(** The two cases of [read_answer]. *)
Lemma read_answer_cases (result : PyStr.chars) :
  match summary_line (lines_of result) with
  | Some line =>
      exists num p1 p2 more q,
        split_on is_bar line [] = num :: p1 :: p2 :: more
        /\ matches decimal_pattern num []
        /\ float_of_chars num = Ok q /\ (0 <= q)%Q
        /\ read_answer result
           = (q, strip p1,
              match strip p2 with [] => None | _ :: _ => Some (strip p2) end,
              join newline (removelast (lines_of result)))
  | None =>
      read_answer result
      = (0%Q, list_ascii_of_string "Worst", None, join newline (lines_of result))
  end.
Proof.
  unfold read_answer. cbv zeta.
  destruct (summary_line (lines_of result)) as [line | ] eqn:E; [ | reflexivity].
  unfold summary_line in E. apply find_some in E as [_ E].
  destruct (summary_fields line E) as (num & p1 & p2 & more & q & Hs & Hnum & Hq & Hq0).
  exists num, p1, p2, more, q. rewrite Hs.
  destruct (decimal_chars num [] Hnum) as [_ Hsolid].
  rewrite (solid_strip num Hsolid) in Hq.
  rewrite (solid_strip num Hsolid), Hq.
  repeat split; assumption.
Qed.

End AiFacts.

(** X20: whatever the model answers, the skill and email extractors of
    the AI module return non-empty items without comma and without a
    blank at either end. *)
Theorem ai_extractors_return_tidy_items (groq_call : string -> string) (text : string) :
  Forall Chat.tidy_keyword (Ai.extract_skills_from_text groq_call text)
  /\ Forall Chat.tidy_keyword (Ai.extract_emails groq_call text).
Proof. split; apply ChatFacts.split_keyword_tidy. Qed.


(** X21: the score of [analyze_similarity] is never negative, whatever
    the model answers; it is not kept below 100: a model that answers
    250|Best|Python gets the score 250. *)
Theorem ai_score_not_negative
    (groq_call : string -> string) (resume_text jd_text : string)
    (jd_key_skills : list string) (resume_years jd_years : string) :
  (0 <= fst (fst (fst (Ai.analyze_similarity groq_call resume_text jd_text jd_key_skills
                         resume_years jd_years))))%Q
  /\ fst (fst (fst (Ai.analyze_similarity (fun _ => "250|Best|Python") resume_text jd_text
                      jd_key_skills resume_years jd_years)))
     = 250%Q.
Proof.
  split; [ | reflexivity].
  unfold Ai.analyze_similarity. cbv zeta.
  set (result := list_ascii_of_string (groq_call _)).
  pose proof (AiFacts.read_answer_cases result) as H.
  destruct (Ai.summary_line (Ai.lines_of result)) as [line | ].
  - destruct H as (num & p1 & p2 & more & q & _ & _ & _ & Hq & ->). exact Hq.
  - rewrite H. discriminate.
Qed.

(** ** The matcher, continued: stars, completeness and scanning *)

Module BacktrackFacts.
Import PyStr Re Py Ref Inv.

Lemma rmatch_star_loop r s cs k : rmatch (Star r) s cs k = star_loop r k (length s) s cs.
Proof. reflexivity. Qed.

Lemma star_loop_S r k n s cs :
  star_loop r k (S n) s cs =
  match rmatch r s cs
          (fun s1 cs1 => if (length s1 <? length s)%nat then star_loop r k n s1 cs1 else None) with
  | Some x => Some x
  | None => k s cs
  end.
Proof. reflexivity. Qed.

(** The result depends on the continuation only at the texts that are
    not longer than the one matched. *)
Lemma rmatch_ext_len (r : regex) :
  forall s cs k1 k2,
    (forall s1 c1, (length s1 <= length s)%nat -> k1 s1 c1 = k2 s1 c1) ->
    rmatch r s cs k1 = rmatch r s cs k2.
Proof.
  induction r as [ | p | r1 IH1 r2 IH2 | r1 IH1 r2 IH2 | r1 IH1 | i r1 IH1 ];
    intros s cs k1 k2 Hk.
  - cbn [rmatch]. now apply Hk.
  - cbn [rmatch]. destruct s as [ | c s']; [reflexivity | ].
    destruct (p c); [ | reflexivity]. apply Hk. cbn [length]. lia.
  - cbn [rmatch]. apply IH1. intros s1 c1 H1. apply IH2.
    intros s2 c2 H2. apply Hk. lia.
  - cbn [rmatch]. rewrite (IH1 s cs k1 k2 Hk), (IH2 s cs k1 k2 Hk). reflexivity.
  - rewrite !rmatch_star_loop.
    assert (H : forall n s' cs', (length s' <= length s)%nat ->
                star_loop r1 k1 n s' cs' = star_loop r1 k2 n s' cs').
    { induction n as [ | n IHn]; intros s' cs' Hs'.
      - cbn [star_loop]. now apply Hk.
      - rewrite !star_loop_S. rewrite (Hk s' cs' Hs').
        erewrite IH1; [reflexivity | ].
        intros s1 c1 H1. cbv beta.
        destruct (length s1 <? length s')%nat; [ | reflexivity].
        apply IHn. lia. }
    now apply H.
  - cbn [rmatch]. apply IH1. intros s1 c1 H1. now apply Hk.
Qed.

Lemma rmatch_ext (r : regex) s cs k1 k2 :
  (forall s1 c1, k1 s1 c1 = k2 s1 c1) -> rmatch r s cs k1 = rmatch r s cs k2.
Proof. intros H. apply rmatch_ext_len. intros s1 c1 _. apply H. Qed.

(** A continuation that always fails makes the match fail. *)
Lemma rmatch_none (r : regex) : forall s cs, rmatch r s cs (fun _ _ => None) = None.
Proof.
  induction r as [ | p | r1 IH1 r2 IH2 | r1 IH1 r2 IH2 | r1 IH1 | i r1 IH1 ]; intros s cs.
  - reflexivity.
  - cbn [rmatch]. destruct s as [ | c s']; [reflexivity | ]. now destruct (p c).
  - cbn [rmatch]. rewrite (rmatch_ext r1 s cs _ (fun _ _ => None)); [apply IH1 | ].
    intros s1 c1. apply IH2.
  - cbn [rmatch]. now rewrite IH1, IH2.
  - rewrite rmatch_star_loop. generalize (length s) as n. intros n. revert s cs.
    induction n as [ | n IHn]; intros s cs; [reflexivity | ].
    rewrite star_loop_S.
    rewrite (rmatch_ext r1 s cs _ (fun _ _ => None)); [now rewrite IH1 | ].
    intros s1 c1. cbv beta. destruct (length s1 <? length s)%nat; [apply IHn | reflexivity].
  - cbn [rmatch]. apply IH1.
Qed.

(** More fuel than the length of the text changes nothing. *)
Lemma star_fuel r k :
  forall n m s cs,
    (length s <= n)%nat -> (length s <= m)%nat ->
    star_loop r k n s cs = star_loop r k m s cs.
Proof.
  assert (Hnil : forall m cs, star_loop r k m [] cs = k [] cs).
  { intros [ | m] cs; [reflexivity | ]. rewrite star_loop_S.
    rewrite (rmatch_ext r [] cs _ (fun _ _ => None)); [now rewrite rmatch_none | ].
    intros s1 c1. reflexivity. }
  induction n as [ | n IHn]; intros m s cs Hn Hm.
  - destruct s; [ | cbn [length] in Hn; lia]. now rewrite !Hnil.
  - destruct m as [ | m].
    + destruct s; [ | cbn [length] in Hm; lia]. now rewrite !Hnil.
    + rewrite !star_loop_S. erewrite rmatch_ext_len; [reflexivity | ].
      intros s1 c1 H1. cbv beta.
      destruct (length s1 <? length s)%nat eqn:E; [ | reflexivity].
      apply Nat.ltb_lt in E. apply IHn; lia.
Qed.

(** One turn of a star: an iteration that consumes something and the
    star again, or nothing. *)
Lemma rmatch_star_unfold r s cs k :
  rmatch (Star r) s cs k =
  match rmatch r s cs
          (fun s1 cs1 => if (length s1 <? length s)%nat then rmatch (Star r) s1 cs1 k else None) with
  | Some x => Some x
  | None => k s cs
  end.
Proof.
  rewrite rmatch_star_loop. destruct s as [ | c s'].
  - cbn [length star_loop].
    rewrite (rmatch_ext r [] cs _ (fun _ _ => None)); [now rewrite rmatch_none | ].
    intros s1 c1. reflexivity.
  - cbn [length]. rewrite star_loop_S.
    erewrite rmatch_ext_len; [reflexivity | ].
    intros s1 c1 H1. cbv beta. cbn [length] in *.
    destruct (length s1 <? S (length s'))%nat eqn:E; [ | reflexivity].
    apply Nat.ltb_lt in E.
    rewrite rmatch_star_loop. apply star_fuel; lia.
Qed.

(** Completeness: where a word of the pattern stands at the head of the
    text and the continuation accepts what follows it, the matcher finds
    a match. *)
Lemma rmatch_complete r w cw :
  matches r w cw ->
  forall rest cs k,
    (forall c, k rest c <> None) -> rmatch r (w ++ rest) cs k <> None.
Proof.
  induction 1 as [ | p c Hp | r1 r2 a b ca cb _ IH1 _ IH2 | r1 r2 a ca _ IH | r1 r2 a ca _ IH
                 | r | r a b ca cb _ IH1 _ IH2 | i r a ca _ IH ]; intros rest cs k Hk.
  - cbn [app rmatch]. apply Hk.
  - cbn [app rmatch]. rewrite Hp. apply Hk.
  - cbn [rmatch]. rewrite <- app_assoc. apply IH1. intros c. now apply IH2.
  - cbn [rmatch]. specialize (IH rest cs k Hk).
    destruct (rmatch r1 (a ++ rest) cs k); [discriminate | congruence].
  - cbn [rmatch]. destruct (rmatch r1 (a ++ rest) cs k); [discriminate | now apply IH].
  - cbn [app]. rewrite rmatch_star_unfold.
    destruct (rmatch r rest cs _); [discriminate | apply Hk].
  - destruct a as [ | x a]; [now apply IH2 | ].
    rewrite rmatch_star_unfold.
    match goal with
    | |- match ?m with _ => _ end <> None => assert (Hm : m <> None); [ | now destruct m]
    end.
    rewrite <- app_assoc. apply IH1. intros c.
    assert (Hlt : (length (b ++ rest) <? length ((x :: a) ++ b ++ rest))%nat = true).
    { apply Nat.ltb_lt. cbn [app length]. rewrite !length_app. lia. }
    rewrite Hlt. now apply IH2.
  - cbn [rmatch]. apply IH. intros c. apply Hk.
Qed.

Lemma match_at_complete r w cw rest :
  matches r w cw -> match_at r (w ++ rest) <> None.
Proof. intros H. apply (rmatch_complete r w cw H). discriminate. Qed.

(** *** Inversion *)

Lemma matches_seq_inv r1 r2 m cs :
  matches (Seq r1 r2) m cs ->
  exists a b ca cb, m = a ++ b /\ cs = cb ++ ca /\ matches r1 a ca /\ matches r2 b cb.
Proof.
  intros H. inversion H as [ | | q1 q2 a b ca cb Ha Hb | | | | | ]; subst.
  now exists a, b, ca, cb.
Qed.

Lemma matches_grp_inv i r m cs :
  matches (Grp i r) m cs -> exists ca, cs = (i, m) :: ca /\ matches r m ca.
Proof.
  intros H. inversion H as [ | | | | | | | j q a ca Ha ]; subst. now exists ca.
Qed.

Lemma matches_plus_nonempty p m cs : matches (Plus (Chr p)) m cs -> m <> [].
Proof.
  intros H. apply ExperienceFacts.matches_plus_chr in H as (c & m' & -> & _). discriminate.
Qed.

Lemma matches_seq_nonempty r1 r2 m cs :
  matches (Seq r1 r2) m cs ->
  (forall a ca, matches r1 a ca -> a <> []) -> m <> [].
Proof.
  intros H Hne. apply matches_seq_inv in H as (a & b & ca & cb & -> & _ & Ha & _).
  intros E. apply app_eq_nil in E as [E _]. now apply (Hne a ca Ha).
Qed.

Lemma matches_grp_nonempty i r m cs :
  matches (Grp i r) m cs ->
  (forall a ca, matches r a ca -> a <> []) -> m <> [].
Proof.
  intros H Hne. apply matches_grp_inv in H as (ca & _ & Ha). now apply (Hne m ca).
Qed.

(** *** Runs of a class *)

Lemma behind_drop_while p s : behind p s = drop_while p s.
Proof.
  unfold behind. induction s as [ | c s IH]; [reflexivity | ].
  cbn [leading drop_while]. destruct (p c); [ | reflexivity].
  destruct (leading p s) as [run rest]. exact IH.
Qed.

Lemma leading_app p s : fst (leading p s) ++ behind p s = s.
Proof.
  unfold behind. induction s as [ | c s IH]; [reflexivity | ].
  cbn [leading]. destruct (p c); [ | reflexivity].
  destruct (leading p s) as [run rest]. cbn [fst snd app] in *. now rewrite IH.
Qed.

Lemma leading_all p s : forallb p (fst (leading p s)) = true.
Proof.
  induction s as [ | c s IH]; [reflexivity | ].
  cbn [leading]. destruct (p c) eqn:E; [ | reflexivity].
  destruct (leading p s) as [run rest]. cbn [fst forallb] in *. now rewrite E.
Qed.

Lemma leading_pair p s : leading p s = (fst (leading p s), behind p s).
Proof. unfold behind. now destruct (leading p s). Qed.

Lemma behind_cons p c s : behind p (c :: s) = if p c then behind p s else c :: s.
Proof.
  unfold behind. cbn [leading]. destruct (p c); [ | reflexivity].
  now destruct (leading p s).
Qed.

Lemma behind_head p s c r : behind p s = c :: r -> p c = false.
Proof. rewrite behind_drop_while. apply ShapeFacts.drop_while_head. Qed.

Lemma behind_app p a b : forallb p a = true -> behind p (a ++ b) = behind p b.
Proof.
  rewrite !behind_drop_while. induction a as [ | c a IH]; [reflexivity | ].
  cbn [forallb app drop_while]. intros H. apply andb_true_iff in H as [Hc H].
  rewrite Hc. now apply IH.
Qed.

Lemma behind_stop p s : match s with c :: _ => p c = false | [] => True end -> behind p s = s.
Proof.
  rewrite behind_drop_while. destruct s as [ | c s]; [reflexivity | ].
  cbn [drop_while]. now intros ->.
Qed.

Lemma behind_length p s : (length (behind p s) <= length s)%nat.
Proof.
  rewrite <- (leading_app p s) at 2. rewrite length_app. lia.
Qed.

(** *** [finditer] as a scan *)

Lemma finditer_skip r :
  forall s k, (k <= length s)%nat -> finditer r s k = finditer r (skipn k s) 0.
Proof.
  induction s as [ | c s IH]; intros k Hk.
  - cbn [length] in Hk. now replace k with 0%nat by lia.
  - destruct k as [ | k]; [reflexivity | ].
    cbn [finditer skipn]. apply IH. cbn [length] in Hk. lia.
Qed.

Section Scan.
Context {A : Type} (r : regex) (read : chars -> option (A * chars)) (val : chars * caps -> A).
Hypothesis read_match :
  forall s,
    read s = match match_at r s with
             | Some (rest, cs) => Some (val (firstn (length s - length rest) s, cs), rest)
             | None => None
             end.
Hypothesis progress :
  forall s rest cs, match_at r s = Some (rest, cs) -> (length rest < length s)%nat.

Lemma finditer_scan_from :
  forall fuel s, (length s < fuel)%nat -> map val (finditer r s 0) = scan_from read fuel s.
Proof.
  induction fuel as [ | fuel IH]; intros s Hs; [lia | ].
  cbn [scan_from]. rewrite read_match.
  destruct s as [ | c s].
  - cbn [finditer]. destruct (match_at r []) as [[rest cs] | ] eqn:E; [ | reflexivity].
    apply progress in E. cbn [length] in E. lia.
  - cbn [finditer]. destruct (match_at r (c :: s)) as [[rest cs] | ] eqn:E.
    + pose proof (progress _ _ _ E) as Hlt.
      apply (proj2 (Nat.ltb_lt _ _)) in Hlt as Hltb. rewrite Hltb.
      cbn [map]. f_equal.
      apply EngineFacts.match_at_sound in E as (pre & Epre & _).
      cbn [length] in Hs, Hlt.
      rewrite finditer_skip by (cbn [length]; lia).
      assert (Hskip : skipn (length (c :: s) - length rest - 1) s = rest).
      { destruct pre as [ | a pre]; cbn [app] in Epre.
        - subst rest. cbn [length] in Hlt. lia.
        - injection Epre as <- ->. cbn [length]. rewrite length_app.
          replace (S (length pre + length rest) - length rest - 1)%nat with (length pre) by lia.
          rewrite skipn_app, skipn_all, Nat.sub_diag. reflexivity. }
      rewrite Hskip. apply IH. lia.
    + apply IH. cbn [length] in Hs. lia.
Qed.

Lemma finditer_scan s : map val (finditer r s 0) = scan read s.
Proof. apply finditer_scan_from. lia. Qed.
End Scan.

End BacktrackFacts.

(** ** The email extractor: every match, and the longest one *)

Module EmailFacts.
Import PyStr Re Py Utils Ref Inv GreedyFacts BacktrackFacts.

Lemma local_char_eq c : email_local c = local_char c.
Proof. reflexivity. Qed.

Lemma domain_char_eq c : email_domain c = domain_char c.
Proof. reflexivity. Qed.

Lemma domain_solid c : email_domain c = true -> is_space c = false.
Proof. intros H. now apply ShapeFacts.email_local_solid, ShapeFacts.email_domain_local. Qed.

Lemma alpha_solid c : is_alpha_ascii c = true -> is_space c = false.
Proof. intros H. now apply ShapeFacts.email_local_solid, ShapeFacts.alpha_local. Qed.

Lemma space_not_dot c : is_space c = true -> Ascii.eqb "."%char c = false.
Proof.
  destruct (Ascii.eqb "."%char c) eqn:E; [ | reflexivity].
  apply Ascii.eqb_eq in E as <-. discriminate.
Qed.

Lemma at_not_local c : Ascii.eqb "@"%char c = true -> email_local c || is_space c = false.
Proof. intros E. apply Ascii.eqb_eq in E as <-. reflexivity. Qed.

Lemma dot_domain c : Ascii.eqb "."%char c = true -> email_domain c = true.
Proof. intros E. apply Ascii.eqb_eq in E as <-. reflexivity. Qed.

(** *** The pattern, part by part *)

(** The last part: a dot, blanks, two letters or more. *)
Lemma rmatch_tld s cs :
  rmatch (Seq (lit ".") (Seq (Star ws) (Seq (AtLeast 2 alpha) Eps))) s cs final
  = option_map (fun r => (r, cs)) (tld_end s).
Proof.
  unfold lit, ws, AtLeast, alpha. cbn [Rep].
  rewrite SkillFacts.rmatch_seq, SkillFacts.rmatch_chr. unfold tld_end.
  destruct s as [ | c v]; [reflexivity | ].
  destruct (Ascii.eqb "."%char c); [ | reflexivity].
  rewrite SkillFacts.rmatch_seq. rewrite star_chr_stop.
  2:{ intros x s' Hx. rewrite !SkillFacts.rmatch_seq, SkillFacts.rmatch_chr.
      destruct (is_alpha_ascii x) eqn:E; [ | reflexivity].
      apply alpha_solid in E. congruence. }
  rewrite !SkillFacts.rmatch_seq, SkillFacts.rmatch_chr.
  destruct (drop_while is_space v) as [ | a t]; [reflexivity | ].
  destruct (is_alpha_ascii a); [ | now destruct t].
  rewrite SkillFacts.rmatch_seq, SkillFacts.rmatch_chr.
  destruct t as [ | b w]; [reflexivity | ].
  destruct (is_alpha_ascii b); [ | reflexivity].
  cbn [andb option_map]. now apply star_chr_greedy.
Qed.

(** One turn of the star of a spaced class. *)
Lemma rmatch_spaced_star p c u cs k :
  rmatch (Star (spaced p)) (c :: u) cs k =
  if p c
  then match rmatch (Star ws) u cs (fun v c1 => rmatch (Star (spaced p)) v c1 k) with
       | Some x => Some x
       | None => k (c :: u) cs
       end
  else k (c :: u) cs.
Proof.
  rewrite rmatch_star_unfold. unfold spaced at 1.
  rewrite SkillFacts.rmatch_seq, SkillFacts.rmatch_chr.
  destruct (p c); [ | reflexivity].
  erewrite rmatch_ext_len; [reflexivity | ].
  intros s1 c1 H1. cbv beta.
  assert (E : (length s1 <? length (c :: u))%nat = true)
    by (apply Nat.ltb_lt; cbn [length]; lia).
  now rewrite E.
Qed.

Lemma rmatch_spaced_star_nil p cs k : rmatch (Star (spaced p)) [] cs k = k [] cs.
Proof. reflexivity. Qed.

(** The local part: the matcher goes to the end of the run of local
    characters and blanks when what follows the part cannot start with
    one of them. *)
Lemma rmatch_local_run (k : cont) :
  (forall c v c1, email_local c || is_space c = true -> k (c :: v) c1 = None) ->
  forall u cs,
    rmatch (Star ws) u cs (fun v c1 => rmatch (Star (spaced email_local)) v c1 k)
    = k (drop_while (fun x => email_local x || is_space x) u) cs.
Proof.
  intros Hk. induction u as [ | c u IH]; intros cs.
  - reflexivity.
  - unfold ws. rewrite rmatch_star_chr. fold ws. cbn [drop_while].
    destruct (is_space c) eqn:Hs.
    + rewrite orb_true_r, IH.
      destruct (k (drop_while _ u) cs) eqn:E; [reflexivity | ].
      rewrite rmatch_spaced_star.
      destruct (email_local c) eqn:Hl.
      * apply ShapeFacts.email_local_solid in Hl. congruence.
      * apply Hk. now rewrite Hs, orb_true_r.
    + rewrite orb_false_r. rewrite rmatch_spaced_star.
      destruct (email_local c) eqn:Hl; [ | reflexivity].
      rewrite IH. destruct (k (drop_while _ u) cs) eqn:E; [reflexivity | ].
      apply Hk. now rewrite Hl.
Qed.

(** The domain behind its first character. *)
Lemma rmatch_domain_run :
  forall u cs,
    rmatch (Star ws) u cs
      (fun v c1 => rmatch (Star (spaced email_domain)) v c1
                     (fun s1 c2 => rmatch (Seq (lit ".") (Seq (Star ws) (Seq (AtLeast 2 alpha) Eps)))
                                     s1 c2 final))
    = option_map (fun r => (r, cs)) (domain_end u).
Proof.
  induction u as [ | c u IH]; intros cs.
  - reflexivity.
  - unfold ws at 1. rewrite rmatch_star_chr. fold ws. cbn [domain_end].
    destruct (is_space c) eqn:Hs.
    + rewrite IH. destruct (domain_end u) as [r | ]; [reflexivity | ].
      cbn [option_map]. rewrite rmatch_spaced_star.
      destruct (email_domain c) eqn:Hd.
      * apply domain_solid in Hd. congruence.
      * rewrite rmatch_tld. unfold tld_end. now rewrite (space_not_dot c Hs).
    + rewrite rmatch_spaced_star.
      destruct (email_domain c) eqn:Hd.
      * rewrite IH. destruct (domain_end u) as [r | ]; [reflexivity | ].
        cbn [option_map]. apply rmatch_tld.
      * rewrite rmatch_tld. unfold tld_end.
        destruct (Ascii.eqb "."%char c) eqn:E; [ | reflexivity].
        apply dot_domain in E. congruence.
Qed.

(** The email pattern at the head of a text, in closed form. *)
Lemma match_at_email s :
  match_at email_pattern s =
  match s with
  | c :: s' =>
      if email_local c
      then match drop_while (fun x => email_local x || is_space x) s' with
           | a :: s2 =>
               if Ascii.eqb "@"%char a
               then match drop_while is_space s2 with
                    | d :: u =>
                        if email_domain d
                        then option_map (fun r => (r, [])) (domain_end u)
                        else None
                    | [] => None
                    end
               else None
           | [] => None
           end
      else None
  | [] => None
  end.
Proof.
  unfold match_at, email_pattern. cbn [seqs fold_right].
  change (Plus (Seq (Chr email_local) (Star ws)))
    with (Seq (spaced email_local) (Star (spaced email_local))).
  change (Plus (Seq (Chr email_domain) (Star ws)))
    with (Seq (spaced email_domain) (Star (spaced email_domain))).
  rewrite !SkillFacts.rmatch_seq. unfold spaced at 1.
  rewrite SkillFacts.rmatch_seq, SkillFacts.rmatch_chr.
  destruct s as [ | c s']; [reflexivity | ].
  destruct (email_local c); [ | reflexivity].
  rewrite rmatch_local_run.
  2:{ intros x v c1 Hx. unfold lit. rewrite SkillFacts.rmatch_seq, SkillFacts.rmatch_chr.
      destruct (Ascii.eqb "@"%char x) eqn:E; [ | reflexivity].
      apply at_not_local in E. congruence. }
  destruct (drop_while _ s') as [ | a s2]; [reflexivity | ].
  unfold lit at 1. rewrite SkillFacts.rmatch_seq, SkillFacts.rmatch_chr.
  destruct (Ascii.eqb "@"%char a); [ | reflexivity].
  rewrite SkillFacts.rmatch_seq. unfold ws at 1. rewrite star_chr_stop.
  2:{ intros x v Hx. rewrite !SkillFacts.rmatch_seq. unfold spaced at 1.
      rewrite SkillFacts.rmatch_seq, SkillFacts.rmatch_chr.
      destruct (email_domain x) eqn:E; [ | reflexivity].
      apply domain_solid in E. congruence. }
  rewrite !SkillFacts.rmatch_seq. unfold spaced at 1.
  rewrite SkillFacts.rmatch_seq, SkillFacts.rmatch_chr.
  destruct (drop_while is_space s2) as [ | d u]; [reflexivity | ].
  destruct (email_domain d); [ | reflexivity].
  apply rmatch_domain_run.
Qed.

(** *** The shape of what is matched *)

Lemma drop_while_app_stop p a b :
  drop_while p a <> [] -> drop_while p (a ++ b) = drop_while p a ++ b.
Proof.
  induction a as [ | c a IH]; [intros H; exfalso; now apply H | ].
  cbn [app drop_while]. destruct (p c); [exact IH | reflexivity].
Qed.

Lemma drop_while_app_all p a b :
  forallb p a = true -> drop_while p (a ++ b) = drop_while p b.
Proof. intros H. rewrite <- !behind_drop_while. now apply behind_app. Qed.

Lemma drop_while_split p s :
  exists run, s = run ++ drop_while p s /\ forallb p run = true.
Proof.
  exists (fst (leading p s)). rewrite <- behind_drop_while.
  split; [symmetry; apply leading_app | apply leading_all].
Qed.

Lemma drop_while_shorter p s : (length (drop_while p s) <= length s)%nat.
Proof. rewrite <- behind_drop_while. apply behind_length. Qed.

Lemma top_level_letters a b w :
  is_alpha_ascii a = true -> is_alpha_ascii b = true -> forallb is_alpha_ascii w = true ->
  top_level (a :: b :: w) = true.
Proof. intros Ha Hb Hw. unfold top_level. cbn [length forallb Nat.leb]. now rewrite Ha, Hb, Hw. Qed.

Lemma tld_end_sound s r :
  tld_end s = Some r ->
  exists w t,
    s = "."%char :: w ++ t ++ r /\ forallb is_space w = true /\ top_level t = true.
Proof.
  unfold tld_end. destruct s as [ | c v]; [discriminate | ].
  destruct (Ascii.eqb "."%char c) eqn:Ec; [ | discriminate].
  apply Ascii.eqb_eq in Ec as <-.
  destruct (drop_while_split is_space v) as (w & Ev & Hw).
  destruct (drop_while is_space v) as [ | a [ | b x]]; try discriminate.
  destruct (is_alpha_ascii a) eqn:Ha; [ | discriminate].
  destruct (is_alpha_ascii b) eqn:Hb; [ | discriminate].
  cbn [andb]. intros H. injection H as <-.
  destruct (drop_while_split is_alpha_ascii x) as (t & Ex & Ht).
  exists w, (a :: b :: t). split; [ | split; [exact Hw | now apply top_level_letters]].
  rewrite Ev at 1. cbn [app]. now rewrite Ex at 1.
Qed.

Lemma top_level_head t :
  top_level t = true ->
  exists a b w, t = a :: b :: w /\ is_alpha_ascii a = true /\ is_alpha_ascii b = true
                /\ forallb is_alpha_ascii w = true.
Proof.
  unfold top_level. destruct t as [ | a [ | b w]]; try discriminate.
  cbn [length Nat.leb forallb andb]. intros H.
  apply andb_true_iff in H as [Ha H]. apply andb_true_iff in H as [Hb Hw].
  now exists a, b, w.
Qed.

Lemma domain_rest_cons c u :
  domain_rest (c :: u) =
  (Ascii.eqb c "."%char && top_level (drop_while is_space u))
  || ((domain_char c || is_space c) && domain_rest u).
Proof. cbn [domain_rest]. now rewrite behind_drop_while. Qed.

Lemma domain_end_sound :
  forall u r, domain_end u = Some r -> exists mu, u = mu ++ r /\ domain_rest mu = true.
Proof.
  induction u as [ | c u IH]; intros r H; [discriminate | ].
  cbn [domain_end] in H.
  destruct (is_space c) eqn:Hs.
  - destruct (IH r H) as (mu & -> & Hmu). exists (c :: mu). split; [reflexivity | ].
    rewrite domain_rest_cons, Hs, Hmu, orb_true_r. apply orb_true_r.
  - destruct (email_domain c) eqn:Hd; [ | discriminate].
    destruct (domain_end u) as [r' | ] eqn:E.
    + injection H as ->. destruct (IH r eq_refl) as (mu & -> & Hmu).
      exists (c :: mu). split; [reflexivity | ].
      rewrite domain_rest_cons, <- domain_char_eq, Hd, Hmu. apply orb_true_r.
    + apply tld_end_sound in H as (w & t & Eu & Hw & Ht).
      injection Eu as -> ->.
      exists ("."%char :: w ++ t). split; [cbn [app]; now rewrite <- app_assoc | ].
      rewrite domain_rest_cons. cbn [Ascii.eqb].
      destruct (top_level_head t Ht) as (a & b & x & -> & Ha & _).
      rewrite (drop_while_app_all _ _ _ Hw). cbn [drop_while].
      rewrite (alpha_solid a Ha), Ht. reflexivity.
Qed.

Lemma domain_rest_nonempty mu : domain_rest mu = true -> mu <> [].
Proof. now destruct mu. Qed.

Lemma domain_end_shorter u r : domain_end u = Some r -> (length r < length u)%nat.
Proof.
  intros H. apply domain_end_sound in H as (mu & -> & Hmu).
  apply domain_rest_nonempty in Hmu. rewrite length_app.
  destruct mu; [congruence | cbn [length]; lia].
Qed.

(** Behind a text without a dot, the domain ends in what follows. *)
Lemma domain_end_dotless a :
  forallb (fun c => negb (Ascii.eqb "."%char c)) a = true ->
  forall b r, domain_end (a ++ b) = Some r -> (length r < length b)%nat.
Proof.
  induction a as [ | c a IH]; intros Ha b r H; [now apply domain_end_shorter | ].
  cbn [forallb] in Ha. apply andb_true_iff in Ha as [Hc Ha]. apply negb_true_iff in Hc.
  cbn [app domain_end] in H.
  destruct (is_space c); [now apply (IH Ha) | ].
  destruct (email_domain c); [ | discriminate].
  destruct (domain_end (a ++ b)) as [r' | ] eqn:E.
  - injection H as ->. now apply (IH Ha).
  - unfold tld_end in H. rewrite Hc in H. discriminate.
Qed.

Lemma letters_dotless w :
  forallb is_alpha_ascii w = true -> forallb (fun c => negb (Ascii.eqb "."%char c)) w = true.
Proof.
  intros H. apply forallb_forall. intros c Hc.
  apply (proj1 (forallb_forall _ _) H) in Hc.
  destruct (Ascii.eqb "."%char c) eqn:E; [ | reflexivity].
  apply Ascii.eqb_eq in E as <-. discriminate.
Qed.

Lemma blanks_dotless w :
  forallb is_space w = true -> forallb (fun c => negb (Ascii.eqb "."%char c)) w = true.
Proof.
  intros H. apply forallb_forall. intros c Hc.
  apply (proj1 (forallb_forall _ _) H) in Hc. now rewrite (space_not_dot c Hc).
Qed.

(** The matcher goes at least as far as any text of the shape. *)
Lemma domain_end_longest :
  forall u,
    domain_rest u = true ->
    forall rest, exists r, domain_end (u ++ rest) = Some r /\ (length r <= length rest)%nat.
Proof.
  induction u as [ | c u IH]; intros Hu rest; [discriminate | ].
  rewrite domain_rest_cons in Hu. cbn [app domain_end].
  destruct ((domain_char c || is_space c) && domain_rest u) eqn:Hrec.
  - apply andb_true_iff in Hrec as [Hc Hrest].
    destruct (IH Hrest rest) as (r & Er & Hr). rewrite Er.
    exists r. split; [ | exact Hr].
    destruct (is_space c); [reflexivity | ].
    rewrite orb_false_r in Hc. rewrite domain_char_eq, Hc. reflexivity.
  - rewrite orb_false_r in Hu. apply andb_true_iff in Hu as [Hdot Htop].
    apply Ascii.eqb_eq in Hdot as ->. cbn [is_space email_domain].
    change (is_space "."%char) with false. change (email_domain "."%char) with true.
    cbn match.
    destruct (drop_while_split is_space u) as (w & Eu & Hw).
    destruct (top_level_head _ Htop) as (a & b & x & Et & Ha & Hb & Hx).
    rewrite Et in Eu.
    destruct (domain_end (u ++ rest)) as [r | ] eqn:E.
    + exists r. split; [reflexivity | ].
      rewrite Eu in E.
      apply (domain_end_dotless (w ++ a :: b :: x)) in E; [lia | ].
      rewrite forallb_app, (blanks_dotless w Hw).
      apply (letters_dotless (a :: b :: x)). cbn [forallb]. now rewrite Ha, Hb, Hx.
    + unfold tld_end. cbn [Ascii.eqb].
      rewrite Eu, <- app_assoc, (drop_while_app_all _ _ _ Hw). cbn [app drop_while].
      rewrite (alpha_solid a Ha), Ha, Hb. cbn [andb].
      rewrite (drop_while_app_all _ _ _ Hx).
      eexists. split; [reflexivity | apply drop_while_shorter].
Qed.

Lemma email_shaped_unfold c m' :
  email_shaped (c :: m') =
  local_char c
  && match drop_while (fun x => local_char x || is_space x) m' with
     | a :: m2 =>
         Ascii.eqb a "@"%char
         && match drop_while is_space m2 with
            | d :: u => domain_char d && domain_rest u
            | [] => false
            end
     | [] => false
     end.
Proof.
  cbn [email_shaped]. rewrite behind_drop_while.
  destruct (drop_while _ m') as [ | a m2]; [reflexivity | ].
  now rewrite behind_drop_while.
Qed.

(** What the pattern matches has the shape. *)
Lemma match_at_email_shaped s rest cs :
  match_at email_pattern s = Some (rest, cs) ->
  cs = [] /\ exists m, s = m ++ rest /\ email_shaped m = true.
Proof.
  rewrite match_at_email.
  destruct s as [ | c s']; [discriminate | ].
  destruct (email_local c) eqn:Hc; [ | discriminate].
  destruct (drop_while_split (fun x => email_local x || is_space x) s') as (l & El & Hl).
  destruct (drop_while _ s') as [ | a s2] eqn:E1; [discriminate | ].
  destruct (Ascii.eqb "@"%char a) eqn:Ea; [ | discriminate].
  apply Ascii.eqb_eq in Ea as <-.
  destruct (drop_while_split is_space s2) as (w & Ew & Hw).
  destruct (drop_while is_space s2) as [ | d u] eqn:E2; [discriminate | ].
  destruct (email_domain d) eqn:Hd; [ | discriminate].
  destruct (domain_end u) as [r | ] eqn:E3; [ | discriminate].
  cbn [option_map]. intros H. injection H as <- <-. split; [reflexivity | ].
  apply domain_end_sound in E3 as (mu & -> & Hmu).
  exists (c :: l ++ "@"%char :: w ++ d :: mu). split.
  - rewrite El, Ew. cbn [app]. rewrite <- !app_assoc. cbn [app].
    now rewrite <- !app_assoc.
  - rewrite email_shaped_unfold, <- local_char_eq, Hc. cbn [andb].
    rewrite (drop_while_app_all _ _ _ Hl). cbn [drop_while].
    change (email_local "@"%char || is_space "@"%char) with false. cbn match.
    cbn [Ascii.eqb andb].
    rewrite (drop_while_app_all _ _ _ Hw). cbn [drop_while].
    rewrite (domain_solid d Hd), <- domain_char_eq, Hd, Hmu. reflexivity.
Qed.

(** The match of the pattern is at least as long as any text of the
    shape at the head of the text. *)
Lemma match_at_email_longest m :
  email_shaped m = true ->
  forall rest,
    exists r, match_at email_pattern (m ++ rest) = Some (r, [])
              /\ (length r <= length rest)%nat.
Proof.
  intros Hm rest. destruct m as [ | c m']; [discriminate | ].
  rewrite email_shaped_unfold in Hm. apply andb_true_iff in Hm as [Hc Hm].
  rewrite match_at_email. cbn [app]. rewrite local_char_eq, Hc.
  destruct (drop_while (fun x => local_char x || is_space x) m') as [ | a m2] eqn:E1;
    [discriminate | ].
  apply andb_true_iff in Hm as [Ha Hm]. apply Ascii.eqb_eq in Ha as ->.
  change (fun x => email_local x || is_space x) with (fun x => local_char x || is_space x).
  rewrite drop_while_app_stop by (rewrite E1; discriminate). rewrite E1. cbn [app Ascii.eqb].
  destruct (drop_while is_space m2) as [ | d u] eqn:E2; [discriminate | ].
  apply andb_true_iff in Hm as [Hd Hu].
  rewrite drop_while_app_stop by (rewrite E2; discriminate). rewrite E2. cbn [app].
  rewrite domain_char_eq, Hd.
  destruct (domain_end_longest u Hu rest) as (r & Er & Hr).
  rewrite Er. now exists r.
Qed.

(** *** The longest prefix *)

Lemma longest_prefix_none ok s :
  forall n,
    (forall i, (0 < i <= n)%nat -> ok (firstn i s) = false) ->
    longest_prefix ok s n = None.
Proof.
  induction n as [ | n IH]; intros H; [reflexivity | ].
  cbn [longest_prefix]. rewrite (H (S n)) by lia. apply IH. intros i Hi. apply H. lia.
Qed.

Lemma longest_prefix_some ok s j :
  forall n,
    (0 < j <= n)%nat ->
    ok (firstn j s) = true ->
    (forall i, (j < i <= n)%nat -> ok (firstn i s) = false) ->
    longest_prefix ok s n = Some (firstn j s).
Proof.
  induction n as [ | n IH]; intros Hj Hok Hno; [lia | ].
  cbn [longest_prefix].
  destruct (Nat.eq_dec j (S n)) as [-> | Hne]; [now rewrite Hok | ].
  rewrite (Hno (S n)) by lia. apply IH; [lia | exact Hok | ].
  intros i Hi. apply Hno. lia.
Qed.

(** The email pattern at the head of a text finds the longest
    email-shaped text there. *)
Lemma email_at_match s :
  email_at s =
  match match_at email_pattern s with
  | Some (rest, cs) => Some (fst (firstn (length s - length rest) s, cs), rest)
  | None => None
  end.
Proof.
  unfold email_at.
  destruct (match_at email_pattern s) as [[rest cs] | ] eqn:E.
  - destruct (match_at_email_shaped s rest cs E) as (-> & m & -> & Hm).
    rewrite EngineFacts.firstn_app_minus. cbn [fst].
    assert (Hpos : (0 < length m)%nat) by (destruct m; [discriminate | cbn [length]; lia]).
    rewrite (longest_prefix_some email_shaped (m ++ rest) (length m)).
    + rewrite firstn_app, Nat.sub_diag, firstn_all. cbn [firstn]. rewrite app_nil_r.
      rewrite skipn_app, skipn_all, Nat.sub_diag. reflexivity.
    + rewrite length_app. lia.
    + rewrite firstn_app, Nat.sub_diag, firstn_all. cbn [firstn]. now rewrite app_nil_r.
    + intros i Hi.
      destruct (email_shaped (firstn i (m ++ rest))) eqn:Hi'; [ | reflexivity].
      destruct (match_at_email_longest _ Hi' (skipn i (m ++ rest))) as (r & Er & Hr).
      rewrite firstn_skipn, E in Er. injection Er as <-.
      rewrite length_skipn in Hr. rewrite length_app in Hr, Hi. lia.
  - rewrite longest_prefix_none; [reflexivity | ].
    intros i Hi.
    destruct (email_shaped (firstn i s)) eqn:Hi'; [ | reflexivity].
    destruct (match_at_email_longest _ Hi' (skipn i s)) as (r & Er & _).
    rewrite firstn_skipn, E in Er. discriminate.
Qed.

Lemma match_at_email_progress s rest cs :
  match_at email_pattern s = Some (rest, cs) -> (length rest < length s)%nat.
Proof.
  intros E. destruct (match_at_email_shaped s rest cs E) as (_ & m & -> & Hm).
  rewrite length_app. destruct m; [discriminate | cbn [length]; lia].
Qed.

(** [extract_emails] returns the email-shaped pieces of the text. *)
Lemma extract_emails_spec text : extract_emails text = email_addresses text.
Proof.
  unfold extract_emails, email_addresses, findall0. cbv zeta.
  rewrite (finditer_scan email_pattern email_at fst email_at_match match_at_email_progress).
  reflexivity.
Qed.

End EmailFacts.

(** C8 (as amended): [extract_emails] returns the email-shaped pieces of
    the text in their order of occurrence, a repeated address once per
    occurrence, each with all its whitespace removed: reading from left
    to right, the longest email-shaped text that starts at a place is
    reported and the reading goes on behind it.  Every piece is a word
    of the pattern, the pieces lie one after the other in the text, and
    no address has a blank left; a text without an email gives the
    empty list; the text "john. doe @ example . com" gives
    "john.doe@example.com". *)
Theorem extract_emails_matches (text : string) :
  extract_emails text = email_addresses text
  /\ (exists ms : list chars,
        in_order ms (list_ascii_of_string text)
        /\ Forall (fun m => exists cs, matches email_pattern m cs) ms
        /\ extract_emails text = map (fun m => string_of_list_ascii (remove_ws m)) ms)
  /\ Forall (fun e => forallb (fun c => negb (is_space c)) (list_ascii_of_string e) = true)
            (extract_emails text)
  /\ extract_emails "john. doe @ example . com" = ["john.doe@example.com"]
  /\ extract_emails "Phone 555 0100, no address given" = []
  /\ extract_emails "jane@corp.io (work), jane@corp.io (home)"
     = ["jane@corp.io"; "jane@corp.io"]
  /\ extract_emails "a@b.io, c@d.io, e@f.co.uk" = ["a@b.io"; "c@d.io"; "e@f.co.uk"].
Proof.
  split; [apply EmailFacts.extract_emails_spec | ].
  split; [ | split; [ | repeat split]].
  - exists (findall0 email_pattern (list_ascii_of_string text)).
    split; [apply (EngineFacts.finditer_in_order _ _ 0%nat) | ].
    split; [ | reflexivity].
    apply List.Forall_forall. intros m Hin. unfold findall0 in Hin.
    apply in_map_iff in Hin as ([m' cs] & <- & Hin).
    apply EngineFacts.finditer_sound in Hin as [Hm _]. now exists cs.
  - apply List.Forall_forall. intros e Hin.
    unfold extract_emails in Hin. apply in_map_iff in Hin as (m & <- & _).
    rewrite list_ascii_of_string_of_list_ascii.
    apply forallb_forall. intros c Hc. unfold remove_ws in Hc.
    now apply filter_In in Hc as [_ Hc].
Qed.

(** C8, as stated, fails: the result is a list and an address that
    occurs twice is returned twice. *)
Lemma extract_emails_keeps_duplicates :
  ~ List.NoDup (extract_emails "jane@corp.io (work), jane@corp.io (home)").
Proof.
  assert (E : extract_emails "jane@corp.io (work), jane@corp.io (home)"
              = ["jane@corp.io"; "jane@corp.io"]) by reflexivity.
  rewrite E. intros H. apply List.NoDup_cons_iff in H as [H _]. apply H. now left.
Qed.

(** ** The experience extractor: the explicit statements *)

Module StatementFacts.
Import PyStr Re Py Utils Ref Inv GreedyFacts BacktrackFacts.

(** *** Characters *)

Lemma space_facts c :
  is_space c = true ->
  Ascii.eqb (lower_char c) "y"%char = false
  /\ Ascii.eqb (lower_char c) "e"%char = false
  /\ Ascii.eqb (lower_char c) "p"%char = false
  /\ is_digit c = false
  /\ is_alpha_ascii c = false
  /\ Ascii.eqb "."%char c = false
  /\ Ascii.eqb "+"%char c = false
  /\ Ascii.eqb "-"%char c = false
  /\ Ascii.eqb "226"%char c = false.
Proof.
  destruct c as [[] [] [] [] [] [] [] []]; vm_compute; intros H;
    first [discriminate | repeat split].
Qed.

Lemma digit_facts c :
  is_digit c = true ->
  Ascii.eqb (lower_char c) "y"%char = false
  /\ is_space c = false
  /\ is_alpha_ascii c = false
  /\ Ascii.eqb "."%char c = false
  /\ Ascii.eqb "+"%char c = false.
Proof.
  destruct c as [[] [] [] [] [] [] [] []]; vm_compute; intros H;
    first [discriminate | repeat split].
Qed.

Lemma alpha_facts c :
  is_alpha_ascii c = true ->
  is_space c = false
  /\ is_digit c = false
  /\ Ascii.eqb "."%char c = false.
Proof.
  destruct c as [[] [] [] [] [] [] [] []]; vm_compute; intros H;
    first [discriminate | repeat split].
Qed.

Lemma eqb_swap a b : Ascii.eqb a b = Ascii.eqb b a.
Proof. apply Ascii.eqb_sym. Qed.

(** *** Optional parts and runs before a continuation that accepts *)

Lemma rmatch_word w s cs k :
  rmatch (Word_i w) s cs k =
  match word_at w s with
  | Some rest => k rest cs
  | None => None
  end.
Proof. apply SkillFacts.rmatch_word_i. Qed.

Lemma rmatch_opt r s cs k :
  rmatch (Opt r) s cs k =
  match rmatch r s cs k with
  | Some x => Some x
  | None => k s cs
  end.
Proof. reflexivity. Qed.

Lemma rmatch_alt r1 r2 s cs k :
  rmatch (Alt r1 r2) s cs k =
  match rmatch r1 s cs k with
  | Some x => Some x
  | None => rmatch r2 s cs k
  end.
Proof. reflexivity. Qed.

Lemma rmatch_eps s cs k : rmatch Eps s cs k = k s cs.
Proof. reflexivity. Qed.

(** An optional character before a continuation that refuses a text
    starting with it. *)
Lemma rmatch_opt_chr p s cs k :
  (forall c s', p c = true -> k (c :: s') cs = None) ->
  rmatch (Opt (Chr p)) s cs k = k (snd (optional p s)) cs.
Proof.
  intros Hk. rewrite rmatch_opt, SkillFacts.rmatch_chr. unfold optional.
  destruct s as [ | c s']; [reflexivity | ].
  destruct (p c) eqn:E; [ | reflexivity]. cbn [snd].
  destruct (k s' cs) eqn:Ek; [reflexivity | ]. now apply Hk.
Qed.

(** An optional character before a continuation that accepts. *)
Lemma rmatch_opt_chr_total p s cs k (g : chars -> chars) :
  (forall t, k t cs = Some (g t, cs)) ->
  rmatch (Opt (Chr p)) s cs k = Some (g (snd (optional p s)), cs).
Proof.
  intros Hk. rewrite rmatch_opt, SkillFacts.rmatch_chr. unfold optional.
  destruct s as [ | c s']; [apply Hk | ].
  destruct (p c); cbn [snd]; now rewrite Hk.
Qed.

Lemma rmatch_star_total p s cs k (g : chars -> chars) :
  (forall t, k t cs = Some (g t, cs)) ->
  rmatch (Star (Chr p)) s cs k = Some (g (behind p s), cs).
Proof. intros Hk. apply star_chr_greedy. now rewrite Hk, behind_drop_while. Qed.

Lemma rmatch_star_stop p s cs k :
  (forall c s', p c = true -> k (c :: s') cs = None) ->
  rmatch (Star (Chr p)) s cs k = k (behind p s) cs.
Proof. intros Hk. rewrite behind_drop_while. now apply star_chr_stop. Qed.

Lemma word_at_space w a c s :
  is_space c = true ->
  (forall x, is_space x = true -> Ascii.eqb (lower_char x) (lower_char a) = false) ->
  strip_prefix_i (a :: w) (c :: s) = None.
Proof. intros Hc Ha. cbn [strip_prefix_i]. now rewrite (Ha c Hc). Qed.

(** *** The pattern, part by part *)

(** The optional suffix, of experience or exp. *)
Lemma rmatch_suffix s cs :
  rmatch (Seq (Opt (Alt (seqs [Word_i "of"; Star ws; Word_i "experience"]) (Word_i "exp"))) Eps)
    s cs final
  = Some (suffix_rest s, cs).
Proof.
  cbn [seqs fold_right]. rewrite SkillFacts.rmatch_seq, rmatch_opt, rmatch_alt.
  rewrite SkillFacts.rmatch_seq, !rmatch_word. unfold suffix_rest, suffix_at.
  destruct (word_at "of" s) as [r | ].
  - rewrite SkillFacts.rmatch_seq. unfold ws. rewrite rmatch_star_stop.
    2:{ intros c s' Hc. rewrite SkillFacts.rmatch_seq, rmatch_word. unfold word_at.
        cbn [list_ascii_of_string]. rewrite (word_at_space _ _ _ _ Hc); [reflexivity | ].
        intros x Hx. apply (space_facts x Hx). }
    rewrite SkillFacts.rmatch_seq, rmatch_word.
    destruct (word_at "experience" (behind is_space r)) as [r' | ]; [reflexivity | ].
    now destruct (word_at "exp" s).
  - now destruct (word_at "exp" s).
Qed.

Lemma rmatch_after_unit s cs :
  rmatch (seqs [Star ws;
                Opt (Alt (seqs [Word_i "of"; Star ws; Word_i "experience"]) (Word_i "exp"))])
    s cs final
  = Some (suffix_rest (behind is_space s), cs).
Proof.
  change (seqs [?a; ?b]) with (Seq a (Seq b Eps)).
  rewrite SkillFacts.rmatch_seq. unfold ws at 1.
  apply (rmatch_star_total _ _ _ _ suffix_rest). intros t. apply rmatch_suffix.
Qed.

(** The optional s of the unit. *)
Lemma rmatch_plural s cs :
  rmatch (Seq (Opt (lit_i "s"))
              (seqs [Star ws;
                     Opt (Alt (seqs [Word_i "of"; Star ws; Word_i "experience"])
                              (Word_i "exp"))]))
    s cs final
  = Some (suffix_rest (behind is_space (snd (optional is_s s))), cs).
Proof.
  rewrite SkillFacts.rmatch_seq. unfold lit_i.
  change (fun x => Ascii.eqb (lower_char x) (lower_char "s")) with is_s.
  apply (rmatch_opt_chr_total is_s s cs _ (fun t => suffix_rest (behind is_space t))).
  intros t. apply rmatch_after_unit.
Qed.

(** The unit and what follows it. *)
Lemma rmatch_unit s cs :
  rmatch (seqs [Alt (Seq (Word_i "year") (Opt (lit_i "s")))
                    (Seq (Word_i "yr") (Opt (lit_i "s")));
                Star ws;
                Opt (Alt (seqs [Word_i "of"; Star ws; Word_i "experience"]) (Word_i "exp"))])
    s cs final
  = option_map (fun r => (r, cs)) (unit_rest s).
Proof.
  change (seqs (?a :: ?l)) with (Seq a (seqs l)).
  rewrite SkillFacts.rmatch_seq, rmatch_alt, !SkillFacts.rmatch_seq, !rmatch_word.
  unfold unit_rest, unit_at.
  assert (Hp : forall t,
             rmatch (Opt (lit_i "s")) t cs
               (fun s1 c1 =>
                  rmatch (seqs [Star ws;
                                Opt (Alt (seqs [Word_i "of"; Star ws; Word_i "experience"])
                                         (Word_i "exp"))]) s1 c1 final)
             = Some (suffix_rest (behind is_space (snd (optional is_s t))), cs))
    by (intros t; exact (rmatch_plural t cs)).
  destruct (word_at "year" s) as [r | ].
  - now rewrite Hp.
  - destruct (word_at "yr" s) as [r | ]; [ | reflexivity]. now rewrite Hp.
Qed.

Lemma unit_rest_refuses c s :
  is_space c || is_digit c || Ascii.eqb "."%char c || Ascii.eqb "+"%char c = true ->
  unit_rest (c :: s) = None.
Proof.
  intros Hc. unfold unit_rest, unit_at, word_at. cbn [list_ascii_of_string strip_prefix_i].
  assert (E : Ascii.eqb (lower_char c) (lower_char "y") = false).
  { apply orb_true_iff in Hc as [Hc | Hc]; [ | now apply Ascii.eqb_eq in Hc as <-].
    apply orb_true_iff in Hc as [Hc | Hc]; [ | now apply Ascii.eqb_eq in Hc as <-].
    apply orb_true_iff in Hc as [Hc | Hc].
    - apply (space_facts c Hc).
    - apply (digit_facts c Hc). }
  now rewrite E.
Qed.

Lemma statement_end_unfold s :
  statement_end s = unit_rest (behind is_space (snd (optional (Ascii.eqb "+"%char) s))).
Proof. reflexivity. Qed.

(** All that follows the number. *)
Lemma rmatch_statement_end s cs :
  rmatch (seqs [Opt (lit "+"); Star ws;
                Alt (Seq (Word_i "year") (Opt (lit_i "s")))
                    (Seq (Word_i "yr") (Opt (lit_i "s")));
                Star ws;
                Opt (Alt (seqs [Word_i "of"; Star ws; Word_i "experience"]) (Word_i "exp"))])
    s cs final
  = option_map (fun r => (r, cs)) (statement_end s).
Proof.
  change (seqs (?a :: ?b :: ?l)) with (Seq a (Seq b (seqs l))).
  assert (Hstar : forall t, rmatch (Star ws) t cs
                              (fun s1 c1 => rmatch (seqs [Alt (Seq (Word_i "year") (Opt (lit_i "s")))
                    (Seq (Word_i "yr") (Opt (lit_i "s")));
                Star ws;
                Opt (Alt (seqs [Word_i "of"; Star ws; Word_i "experience"]) (Word_i "exp"))]) s1 c1 final)
                            = option_map (fun r => (r, cs)) (unit_rest (behind is_space t))).
  { intros t. unfold ws at 1. rewrite rmatch_star_stop.
    - apply rmatch_unit.
    - intros c s' Hc. rewrite rmatch_unit, unit_rest_refuses; [reflexivity | ].
      now rewrite Hc. }
  rewrite SkillFacts.rmatch_seq. unfold lit. rewrite rmatch_opt_chr.
  - rewrite SkillFacts.rmatch_seq. apply Hstar.
  - intros c s' Hc. rewrite SkillFacts.rmatch_seq, Hstar.
    apply Ascii.eqb_eq in Hc as <-. reflexivity.
Qed.

Lemma statement_end_refuses c s :
  is_digit c || Ascii.eqb "."%char c = true -> statement_end (c :: s) = None.
Proof.
  intros Hc. rewrite statement_end_unfold. unfold optional.
  assert (Hplus : Ascii.eqb "+"%char c = false).
  { apply orb_true_iff in Hc as [Hc | Hc]; [apply (digit_facts c Hc) | ].
    now apply Ascii.eqb_eq in Hc as <-. }
  assert (Hsp : is_space c = false).
  { apply orb_true_iff in Hc as [Hc | Hc]; [apply (digit_facts c Hc) | ].
    now apply Ascii.eqb_eq in Hc as <-. }
  rewrite Hplus. cbn [snd]. rewrite behind_stop by exact Hsp.
  apply unit_rest_refuses. apply orb_true_iff in Hc as [Hc | Hc]; rewrite Hc;
    rewrite ?orb_true_r; reflexivity.
Qed.

(** *** The number *)

Lemma leading_cons p c s :
  leading p (c :: s) = if p c then (c :: fst (leading p s), behind p s) else ([], c :: s).
Proof.
  cbn [leading]. destruct (p c); [ | reflexivity].
  unfold behind. now destruct (leading p s).
Qed.

Lemma leading_nil p s : fst (leading p s) = [] -> behind p s = s.
Proof.
  intros H. pose proof (leading_app p s) as E. now rewrite H in E.
Qed.

(** [\d+] before a continuation that refuses a text starting with a digit. *)
Lemma rmatch_digits s cs k :
  (forall c s', is_digit c = true -> k (c :: s') cs = None) ->
  rmatch (Plus digit) s cs k =
  match s with
  | c :: s' => if is_digit c then k (behind is_digit s') cs else None
  | [] => None
  end.
Proof.
  intros Hk. unfold Plus, digit. rewrite SkillFacts.rmatch_seq, SkillFacts.rmatch_chr.
  destruct s as [ | c s']; [reflexivity | ].
  destruct (is_digit c); [ | reflexivity]. now apply rmatch_star_stop.
Qed.

(** The number of a statement, before a continuation that refuses a
    text starting with a digit or a point. *)
Lemma rmatch_number s cs (k : cont) :
  (forall c s' c1, is_digit c || Ascii.eqb "."%char c = true -> k (c :: s') c1 = None) ->
  rmatch (Grp 1 (Seq (Plus digit) (Opt (Seq (lit ".") (Plus digit))))) s cs k =
  match number_at s with
  | Some (num, r) => k r ((1%nat, num) :: cs)
  | None => None
  end.
Proof.
  intros Hk. cbn [rmatch]. fold (rmatch (Plus digit)).
  set (kg := fun s1 cs1 => k s1 ((1%nat, firstn (length s - length s1) s) :: cs1)).
  assert (Hkg : forall c s' c1, is_digit c || Ascii.eqb "."%char c = true ->
                                kg (c :: s') c1 = None).
  { intros c s' c1 Hc. unfold kg. now apply Hk. }
  assert (Hcap : forall num r c1, s = num ++ r -> kg r c1 = k r ((1%nat, num) :: c1)).
  { intros num r c1 ->. unfold kg. now rewrite EngineFacts.firstn_app_minus. }
  change (rmatch (Plus digit) s cs
            (fun s1 cs1 => rmatch (Opt (Seq (lit ".") (Plus digit))) s1 cs1 kg)
          = match number_at s with
            | Some (num, r) => k r ((1%nat, num) :: cs)
            | None => None
            end).
  clearbody kg.
  rewrite rmatch_digits.
  2:{ intros c s' Hc. rewrite rmatch_opt, SkillFacts.rmatch_seq. unfold lit.
      rewrite SkillFacts.rmatch_chr.
      destruct (digit_facts c Hc) as (_ & _ & _ & Hdot & _). rewrite Hdot.
      apply Hkg. now rewrite Hc. }
  unfold number_at. destruct s as [ | d s']; [reflexivity | ].
  rewrite leading_cons. destruct (is_digit d) eqn:Hd; [ | reflexivity].
  pose proof (leading_app is_digit s') as Eip.
  set (ip := fst (leading is_digit s')) in *.
  destruct (behind is_digit s') as [ | c t] eqn:Et.
  - rewrite rmatch_opt, SkillFacts.rmatch_seq. unfold lit. rewrite SkillFacts.rmatch_chr.
    apply Hcap. rewrite <- Eip. reflexivity.
  - rewrite rmatch_opt, SkillFacts.rmatch_seq. unfold lit. rewrite SkillFacts.rmatch_chr.
    rewrite (eqb_swap c "."%char).
    destruct (Ascii.eqb "."%char c) eqn:Hc.
    + rewrite rmatch_digits by (intros x s2 Hx; apply Hkg; now rewrite Hx).
      destruct t as [ | e t'].
      * cbn [leading]. rewrite (Hcap (d :: ip) (c :: [])); [reflexivity | ].
        rewrite <- Eip. reflexivity.
      * rewrite leading_cons. destruct (is_digit e) eqn:He.
        -- pose proof (leading_app is_digit t') as Efp.
           set (fp := fst (leading is_digit t')) in *.
           rewrite (Hcap ((d :: ip) ++ c :: e :: fp) (behind is_digit t')).
           ++ destruct (k (behind is_digit t') _) eqn:Ek; [reflexivity | ].
              rewrite Hkg by (now rewrite Hc, orb_true_r).
              reflexivity.
           ++ rewrite <- Eip at 1. rewrite <- Efp at 1. cbn [app].
              rewrite <- app_assoc. reflexivity.
        -- rewrite (Hcap (d :: ip) (c :: e :: t')); [reflexivity | ].
           rewrite <- Eip. reflexivity.
    + rewrite (Hcap (d :: ip) (c :: t)); [ | rewrite <- Eip; reflexivity].
      destruct (leading is_digit t) as [[ | ? ?] ?]; reflexivity.
Qed.

(** The explicit pattern at the head of a text. *)
Lemma match_at_explicit s :
  match_at regex_explicit s =
  match statement_at s with
  | Some (num, rest) => Some (rest, [(1%nat, num)])
  | None => None
  end.
Proof.
  unfold match_at, regex_explicit.
  change (seqs (?a :: ?l)) with (Seq a (seqs l)).
  rewrite SkillFacts.rmatch_seq, rmatch_number.
  - unfold statement_at. destruct (number_at s) as [[num r] | ]; [ | reflexivity].
    rewrite rmatch_statement_end. unfold statement_end.
    now destruct (unit_at _).
  - intros c s' c1 Hc. rewrite rmatch_statement_end, statement_end_refuses; [reflexivity | exact Hc].
Qed.

Lemma statement_at_match s :
  statement_at s =
  match match_at regex_explicit s with
  | Some (rest, cs) => Some (group 1 (snd (firstn (length s - length rest) s, cs)), rest)
  | None => None
  end.
Proof.
  rewrite match_at_explicit. now destruct (statement_at s) as [[num rest] | ].
Qed.

Lemma match_at_explicit_progress s rest cs :
  match_at regex_explicit s = Some (rest, cs) -> (length rest < length s)%nat.
Proof.
  intros E. apply EngineFacts.match_at_sound in E as (pre & -> & Hm).
  rewrite length_app.
  assert (Hne : pre <> []); [ | destruct pre; [congruence | cbn [length]; lia]].
  unfold regex_explicit in Hm. cbn [seqs fold_right] in Hm.
  apply (matches_seq_nonempty _ _ _ _ Hm). intros a ca Ha.
  apply (matches_grp_nonempty _ _ _ _ Ha). intros b cb Hb.
  apply (matches_seq_nonempty _ _ _ _ Hb). intros d cd Hd.
  now apply (matches_plus_nonempty _ _ _ Hd).
Qed.

(** [findall] with the explicit pattern reports the numbers of the
    statements of years. *)
Lemma explicit_matches_spec text :
  explicit_matches text = explicit_numbers (list_ascii_of_string text).
Proof.
  unfold explicit_matches, explicit_numbers, findall1.
  apply (finditer_scan regex_explicit statement_at (fun m => group 1 (snd m))
           statement_at_match match_at_explicit_progress).
Qed.

End StatementFacts.

(** ** The experience extractor: the date ranges *)

Module RangeFacts.
Import PyStr Re Py Utils Ref Inv GreedyFacts BacktrackFacts StatementFacts.

(** *** A month and a year *)

Lemma month_year_at_unfold s :
  month_year_at s =
  let name := fst (leading is_alpha_ascii s) in
  let r1 := behind is_alpha_ascii s in
  let stop := fst (optional (Ascii.eqb "."%char) r1) in
  let r2 := snd (optional (Ascii.eqb "."%char) r1) in
  let blanks := fst (leading is_space r2) in
  match behind is_space r2 with
  | a :: b :: c :: d :: r4 =>
      if (3 <=? length name)%nat && (1 <=? length blanks)%nat
         && is_digit a && is_digit b && is_digit c && is_digit d
      then Some (name ++ stop ++ blanks ++ [a; b; c; d], r4)
      else None
  | _ => None
  end.
Proof.
  unfold month_year_at, behind. cbv zeta.
  destruct (leading is_alpha_ascii s) as [name r1]. cbn [fst snd].
  destruct (optional (Ascii.eqb "."%char) r1) as [stop r2]. cbn [fst snd].
  now destruct (leading is_space r2) as [blanks r3].
Qed.

Lemma optional_app p s : fst (optional p s) ++ snd (optional p s) = s.
Proof. destruct s as [ | c s]; [reflexivity | ]. cbn [optional]. now destruct (p c). Qed.

Lemma month_year_at_app s m r : month_year_at s = Some (m, r) -> s = m ++ r.
Proof.
  rewrite month_year_at_unfold. cbv zeta.
  pose proof (leading_app is_alpha_ascii s) as E1.
  pose proof (optional_app (Ascii.eqb "."%char) (behind is_alpha_ascii s)) as E2.
  pose proof (leading_app is_space (snd (optional (Ascii.eqb "."%char) (behind is_alpha_ascii s))))
    as E3.
  destruct (behind is_space _) as [ | a [ | b [ | c [ | d r4]]]]; try discriminate.
  destruct (_ && _); [ | discriminate].
  intros H. injection H as <- <-.
  rewrite <- E1 at 1. rewrite <- E2 at 1. rewrite <- E3 at 1.
  rewrite <- !app_assoc. reflexivity.
Qed.

Lemma month_year_at_refuses c s :
  is_alpha_ascii c = false -> month_year_at (c :: s) = None.
Proof.
  intros Hc. rewrite month_year_at_unfold. cbv zeta. rewrite leading_cons, Hc. cbn [fst length].
  now destruct (behind is_space _) as [ | a [ | b [ | x [ | d r4]]]].
Qed.

(** One more letter in front of a name. *)
Lemma month_year_at_short s :
  (length (fst (leading is_alpha_ascii s)) < 3)%nat -> month_year_at s = None.
Proof.
  intros H. rewrite month_year_at_unfold. cbv zeta.
  apply Nat.leb_gt in H. rewrite H.
  now destruct (behind is_space _) as [ | a [ | b [ | x [ | d r4]]]].
Qed.

Lemma rmatch_four_digits s cs k :
  rmatch (Rep 4 digit) s cs k =
  match s with
  | a :: b :: c :: d :: r =>
      if is_digit a && is_digit b && is_digit c && is_digit d then k r cs else None
  | _ => None
  end.
Proof.
  cbn [Rep]. unfold digit. rewrite !SkillFacts.rmatch_seq, SkillFacts.rmatch_chr.
  destruct s as [ | a s]; [reflexivity | ]. destruct (is_digit a); [ | now destruct s as [ | ? [ | ? [ | ? ?]]]].
  rewrite SkillFacts.rmatch_seq, SkillFacts.rmatch_chr.
  destruct s as [ | b s]; [reflexivity | ]. destruct (is_digit b); [ | now destruct s as [ | ? [ | ? ?]]].
  rewrite SkillFacts.rmatch_seq, SkillFacts.rmatch_chr.
  destruct s as [ | c s]; [reflexivity | ]. destruct (is_digit c); [ | now destruct s as [ | ? ?]].
  rewrite SkillFacts.rmatch_seq, SkillFacts.rmatch_chr.
  destruct s as [ | d s]; [reflexivity | ]. destruct (is_digit d); reflexivity.
Qed.

(** The month-year pattern, whatever follows it. *)
Lemma rmatch_month_year s cs k :
  rmatch month_year s cs k =
  match month_year_at s with
  | Some (m, r) => k r cs
  | None => None
  end.
Proof.
  assert (Hblank : forall t,
            rmatch (Plus ws) t cs (fun s1 c1 => rmatch (Seq (Rep 4 digit) Eps) s1 c1 k)
            = match t with
              | x :: t' =>
                  if is_space x
                  then rmatch (Rep 4 digit) (behind is_space t') cs k
                  else None
              | [] => None
              end).
  { intros t. unfold Plus, ws. rewrite SkillFacts.rmatch_seq, SkillFacts.rmatch_chr.
    destruct t as [ | x t']; [reflexivity | ].
    destruct (is_space x); [ | reflexivity].
    rewrite rmatch_star_stop; [reflexivity | ].
    intros c s' Hc. rewrite SkillFacts.rmatch_seq, rmatch_four_digits.
    destruct (space_facts c Hc) as (_ & _ & _ & Hd & _). rewrite Hd.
    now destruct s' as [ | ? [ | ? [ | ? ?]]]. }
  assert (Hstop : forall t,
            rmatch (Opt (lit ".")) t cs
              (fun s1 c1 => rmatch (Seq (Plus ws) (Seq (Rep 4 digit) Eps)) s1 c1 k)
            = match snd (optional (Ascii.eqb "."%char) t) with
              | x :: t' =>
                  if is_space x
                  then rmatch (Rep 4 digit) (behind is_space t') cs k
                  else None
              | [] => None
              end).
  { intros t. unfold lit. rewrite rmatch_opt_chr.
    - rewrite SkillFacts.rmatch_seq. apply Hblank.
    - intros c s' Hc. rewrite SkillFacts.rmatch_seq, Hblank.
      apply Ascii.eqb_eq in Hc as <-. reflexivity. }
  assert (Hname : forall t,
            rmatch (Star alpha) t cs
              (fun s1 c1 => rmatch (seqs [Opt (lit "."); Plus ws; Rep 4 digit]) s1 c1 k)
            = match snd (optional (Ascii.eqb "."%char) (behind is_alpha_ascii t)) with
              | x :: t' =>
                  if is_space x
                  then rmatch (Rep 4 digit) (behind is_space t') cs k
                  else None
              | [] => None
              end).
  { intros t. unfold alpha. rewrite rmatch_star_stop.
    - cbn [seqs fold_right]. rewrite SkillFacts.rmatch_seq. apply Hstop.
    - intros c s' Hc. cbn [seqs fold_right]. rewrite SkillFacts.rmatch_seq, Hstop.
      destruct (alpha_facts c Hc) as (Hs & _ & Hdot). cbn [optional].
      rewrite Hdot. cbn [snd]. now rewrite Hs. }
  assert (Hend : forall name t,
            (3 <=? length name)%nat = true ->
            fst (leading is_alpha_ascii s) = name -> behind is_alpha_ascii s = behind is_alpha_ascii t ->
            match snd (optional (Ascii.eqb "."%char) (behind is_alpha_ascii t)) with
            | x :: t' =>
                if is_space x
                then rmatch (Rep 4 digit) (behind is_space t') cs k
                else None
            | [] => None
            end
            = match month_year_at s with
              | Some (m, r) => k r cs
              | None => None
              end).
  { intros name t Hlen En Eb. rewrite month_year_at_unfold. cbv zeta.
    rewrite En, Hlen, Eb. cbn [andb].
    destruct (snd (optional _ (behind is_alpha_ascii t))) as [ | x t'].
    - reflexivity.
    - rewrite leading_cons. destruct (is_space x) eqn:Hx.
      + cbn [fst length Nat.leb andb]. rewrite rmatch_four_digits, behind_cons, Hx.
        destruct (behind is_space t') as [ | a [ | b [ | c [ | d r4]]]]; try reflexivity.
        now destruct (is_digit a && is_digit b && is_digit c && is_digit d).
      + cbn [fst length Nat.leb andb]. rewrite behind_stop by exact Hx.
        now destruct t' as [ | b [ | c [ | d r4]]]. }
  unfold month_year.
  change (seqs (?a :: ?l)) with (Seq a (seqs l)).
  unfold AtLeast. cbn [Rep]. rewrite !SkillFacts.rmatch_seq. unfold alpha at 1.
  rewrite SkillFacts.rmatch_chr.
  destruct s as [ | a1 s]; [reflexivity | ].
  destruct (is_alpha_ascii a1) eqn:H1; [ | now rewrite month_year_at_refuses].
  unfold alpha at 1. rewrite SkillFacts.rmatch_seq, SkillFacts.rmatch_chr.
  destruct s as [ | a2 s].
  { rewrite month_year_at_short; [reflexivity | ]. rewrite leading_cons, H1. cbn. lia. }
  destruct (is_alpha_ascii a2) eqn:H2.
  2:{ rewrite month_year_at_short; [reflexivity | ].
      rewrite !leading_cons, H1, H2. cbn. lia. }
  unfold alpha at 1. rewrite SkillFacts.rmatch_seq, SkillFacts.rmatch_chr.
  destruct s as [ | a3 s].
  { rewrite month_year_at_short; [reflexivity | ]. rewrite !leading_cons, H1, H2. cbn. lia. }
  destruct (is_alpha_ascii a3) eqn:H3.
  2:{ rewrite month_year_at_short; [reflexivity | ].
      rewrite !leading_cons, H1, H2, H3. cbn. lia. }
  rewrite rmatch_eps, Hname.
  apply (Hend (a1 :: a2 :: a3 :: fst (leading is_alpha_ascii s))).
  - reflexivity.
  - rewrite !leading_cons, H1, H2, H3. reflexivity.
  - rewrite !behind_cons, H1, H2, H3. reflexivity.
Qed.

(** *** The dash *)

Lemma rmatch_dash s cs k :
  rmatch (Alt en_dash (lit "-")) s cs k =
  match dash_at s with
  | Some r => k r cs
  | None => None
  end.
Proof.
  rewrite rmatch_alt. unfold en_dash, lit. cbn [seqs fold_right].
  rewrite !SkillFacts.rmatch_seq, !SkillFacts.rmatch_chr. unfold dash_at.
  destruct s as [ | a r]; [reflexivity | ].
  rewrite (eqb_swap a "-"%char), (eqb_swap a "226"%char).
  destruct (Ascii.eqb "226"%char a) eqn:Ea.
  - apply Ascii.eqb_eq in Ea as <-.
    change (Ascii.eqb "-"%char "226"%char) with false. cbn match. cbn [andb].
    rewrite SkillFacts.rmatch_seq, SkillFacts.rmatch_chr.
    destruct r as [ | b r]; [reflexivity | ].
    rewrite (eqb_swap b "128"%char).
    destruct (Ascii.eqb "128"%char b); [ | now destruct r].
    rewrite SkillFacts.rmatch_seq, SkillFacts.rmatch_chr.
    destruct r as [ | c r]; [reflexivity | ].
    rewrite (eqb_swap c "147"%char).
    destruct (Ascii.eqb "147"%char c); [ | reflexivity].
    cbn [andb]. rewrite rmatch_eps. now destruct (k r cs).
  - destruct (Ascii.eqb "-"%char a); [reflexivity | ].
    now destruct r as [ | b [ | c r]].
Qed.

Lemma dash_at_refuses c s : is_space c = true -> dash_at (c :: s) = None.
Proof.
  intros Hc. unfold dash_at.
  destruct (space_facts c Hc) as (_ & _ & _ & _ & _ & _ & _ & Hh & Hd).
  rewrite (eqb_swap c "-"%char), Hh, (eqb_swap c "226"%char), Hd.
  now destruct s as [ | b [ | x s]].
Qed.

(** *** Present *)

Lemma lower_char_idem c : lower_char (lower_char c) = lower_char c.
Proof. destruct c as [[] [] [] [] [] [] [] []]; reflexivity. Qed.

Lemma strip_prefix_i_lower w :
  forall s, strip_prefix_i (lower_chars w) s = strip_prefix_i w s.
Proof.
  induction w as [ | a w IH]; intros s; [reflexivity | ].
  cbn [lower_chars map strip_prefix_i]. destruct s as [ | b s]; [reflexivity | ].
  rewrite lower_char_idem. fold (lower_chars w). now rewrite IH.
Qed.

Lemma word_at_present s : word_at "Present" s = word_at "present" s.
Proof.
  unfold word_at.
  change (list_ascii_of_string "present") with (lower_chars (list_ascii_of_string "Present")).
  symmetry. apply strip_prefix_i_lower.
Qed.

Lemma strip_prefix_i_firstn w :
  forall s r, strip_prefix_i w s = Some r -> s = firstn (length w) s ++ r.
Proof.
  induction w as [ | a w IH]; intros s r H; cbn [strip_prefix_i] in H.
  - injection H as ->. reflexivity.
  - destruct s as [ | b s]; [discriminate | ].
    destruct (Ascii.eqb (lower_char b) (lower_char a)); [ | discriminate].
    cbn [length firstn app]. f_equal. now apply IH.
Qed.

Lemma strip_prefix_i_length w :
  forall s r, strip_prefix_i w s = Some r -> length s = (length w + length r)%nat.
Proof.
  induction w as [ | a w IH]; intros s r H; cbn [strip_prefix_i] in H.
  - injection H as ->. reflexivity.
  - destruct s as [ | b s]; [discriminate | ].
    destruct (Ascii.eqb (lower_char b) (lower_char a)); [ | discriminate].
    cbn [length]. rewrite (IH s r H). reflexivity.
Qed.

(** The second bound: Present, or a month and a year. *)
Lemma rmatch_end_bound s cs :
  rmatch (Seq (Grp 2 (Alt (Word_i "Present") month_year)) Eps) s cs final =
  match word_at "present" s with
  | Some r => Some (r, (2%nat, firstn 7 s) :: cs)
  | None =>
      match month_year_at s with
      | Some (e, r) => Some (r, (2%nat, e) :: cs)
      | None => None
      end
  end.
Proof.
  rewrite SkillFacts.rmatch_seq. cbn [rmatch]. fold (rmatch month_year).
  change (rmatch (Word_i "Present") s cs ?k) with (rmatch (Word_i "Present") s cs k).
  rewrite <- word_at_present.
  match goal with
  | |- match ?a with _ => _ end = _ =>
      assert (Hw : a = match word_at "Present" s with
                       | Some r => Some (r, (2%nat, firstn 7 s) :: cs)
                       | None => None
                       end)
  end.
  { pose proof (rmatch_word "Present" s cs) as Hr. unfold Word_i in Hr. cbn [list_ascii_of_string word_i] in Hr.
    unfold Word_i. cbn [list_ascii_of_string word_i]. rewrite Hr.
    destruct (word_at "Present" s) as [r | ] eqn:E; [ | reflexivity].
    unfold final. f_equal. f_equal. f_equal. f_equal.
    unfold word_at in E. pose proof (strip_prefix_i_length _ _ _ E) as Hl.
    cbn [list_ascii_of_string length] in Hl. rewrite Hl.
    replace (7 + length r - length r)%nat with 7%nat by lia. reflexivity. }
  rewrite Hw. destruct (word_at "Present" s) as [r | ]; [reflexivity | ].
  rewrite rmatch_month_year.
  destruct (month_year_at s) as [[e r] | ] eqn:E; [ | reflexivity].
  apply month_year_at_app in E as ->. unfold final.
  now rewrite EngineFacts.firstn_app_minus.
Qed.

Lemma end_bound_refuses c s :
  is_space c = true ->
  word_at "present" (c :: s) = None /\ month_year_at (c :: s) = None.
Proof.
  intros Hc. destruct (space_facts c Hc) as (_ & _ & Hp & _ & Ha & _). split.
  - unfold word_at. cbn [list_ascii_of_string strip_prefix_i].
    change (lower_char "p") with "p"%char. now rewrite Hp.
  - now apply month_year_at_refuses.
Qed.

(** *** The whole pattern *)

(** What follows the first bound. *)
Lemma rmatch_after_start s cs :
  rmatch (seqs [Star ws; Alt en_dash (lit "-"); Star ws;
                Grp 2 (Alt (Word_i "Present") month_year)]) s cs final
  = match dash_at (behind is_space s) with
    | Some r2 => end_bound (behind is_space r2) cs
    | None => None
    end.
Proof.
  change (seqs [?a; ?b; ?c; ?d]) with (Seq a (Seq b (Seq c (Seq d Eps)))).
  assert (Hend : forall t,
            rmatch (Star ws) t cs
              (fun s1 c1 => rmatch (Seq (Grp 2 (Alt (Word_i "Present") month_year)) Eps)
                              s1 c1 final)
            = end_bound (behind is_space t) cs).
  { intros t. unfold ws. rewrite rmatch_star_stop; [apply rmatch_end_bound | ].
    intros c s' Hc. rewrite rmatch_end_bound.
    destruct (end_bound_refuses c s' Hc) as [-> ->]. reflexivity. }
  assert (Hdash : forall t,
            rmatch (Alt en_dash (lit "-")) t cs
              (fun s1 c1 => rmatch (Seq (Star ws)
                                        (Seq (Grp 2 (Alt (Word_i "Present") month_year)) Eps))
                              s1 c1 final)
            = match dash_at t with
              | Some r2 => end_bound (behind is_space r2) cs
              | None => None
              end).
  { intros t. rewrite rmatch_dash. destruct (dash_at t) as [r2 | ]; [ | reflexivity].
    rewrite SkillFacts.rmatch_seq. apply Hend. }
  rewrite SkillFacts.rmatch_seq. unfold ws at 1. rewrite rmatch_star_stop.
  - rewrite SkillFacts.rmatch_seq. apply Hdash.
  - intros c s' Hc. rewrite SkillFacts.rmatch_seq, Hdash. now rewrite dash_at_refuses.
Qed.

Lemma match_at_date s :
  match_at regex_date s =
  match range_at s with
  | Some ((a, b), rest) => Some (rest, [(2%nat, b); (1%nat, a)])
  | None => None
  end.
Proof.
  unfold match_at, regex_date.
  change (seqs (?a :: ?l)) with (Seq a (seqs l)).
  rewrite SkillFacts.rmatch_seq.
  change (rmatch (Grp 1 month_year) s [] ?k)
    with (rmatch month_year s []
            (fun s1 cs1 => k s1 ((1%nat, firstn (length s - length s1) s) :: cs1))).
  rewrite rmatch_month_year. unfold range_at.
  destruct (month_year_at s) as [[start r1] | ] eqn:E; [ | reflexivity].
  apply month_year_at_app in E as ->. rewrite EngineFacts.firstn_app_minus.
  rewrite rmatch_after_start. unfold end_bound.
  destruct (dash_at (behind is_space r1)) as [r2 | ]; [ | reflexivity]. cbv zeta.
  destruct (word_at "present" (behind is_space r2)) as [r4 | ]; [reflexivity | ].
  now destruct (month_year_at (behind is_space r2)) as [[e r4] | ].
Qed.

Lemma range_at_match s :
  range_at s =
  match match_at regex_date s with
  | Some (rest, cs) =>
      Some ((fun m : chars * caps => (group 1 (snd m), group 2 (snd m)))
              (firstn (length s - length rest) s, cs), rest)
  | None => None
  end.
Proof.
  rewrite match_at_date. now destruct (range_at s) as [[[a b] rest] | ].
Qed.

Lemma matches_chr_nonempty p m cs : matches (Chr p) m cs -> m <> [].
Proof. intros H. inversion H; subst. discriminate. Qed.

Lemma match_at_date_progress s rest cs :
  match_at regex_date s = Some (rest, cs) -> (length rest < length s)%nat.
Proof.
  intros E. apply EngineFacts.match_at_sound in E as (pre & -> & Hm).
  rewrite length_app.
  assert (Hne : pre <> []); [ | destruct pre; [congruence | cbn [length]; lia]].
  unfold regex_date in Hm. cbn [seqs fold_right] in Hm.
  apply (matches_seq_nonempty _ _ _ _ Hm). intros a ca Ha.
  apply (matches_grp_nonempty _ _ _ _ Ha). intros b cb Hb.
  unfold month_year in Hb. cbn [seqs fold_right] in Hb.
  apply (matches_seq_nonempty _ _ _ _ Hb). intros d cd Hd.
  unfold AtLeast in Hd. cbn [Rep] in Hd.
  apply (matches_seq_nonempty _ _ _ _ Hd). intros e ce He.
  apply (matches_seq_nonempty _ _ _ _ He). intros f cf Hf.
  now apply (matches_chr_nonempty _ _ _ Hf).
Qed.

(** [findall] with the date pattern reports the bounds of the date
    ranges. *)
Lemma date_matches_spec text :
  date_matches text = date_ranges (list_ascii_of_string text).
Proof.
  unfold date_matches, date_ranges, findall2.
  apply (finditer_scan regex_date range_at
           (fun m : chars * caps => (group 1 (snd m), group 2 (snd m)))
           range_at_match match_at_date_progress).
Qed.

End RangeFacts.

(** ** The experience extractor against its two-tier definition *)

Module TierFacts.
Import PyStr Re Py Utils Ref Inv GreedyFacts BacktrackFacts.

(** *** Numbers *)

Lemma leading_span_digits s : leading is_digit s = span_digits s.
Proof.
  induction s as [ | c s IH]; [reflexivity | ].
  cbn [leading span_digits]. rewrite IH. reflexivity.
Qed.

Lemma natural_fold ds :
  forall acc,
    fold_left (fun a c => (10 * a + digit_value c)%Z) ds acc
    = (acc * 10 ^ Z.of_nat (length ds) + natural ds)%Z.
Proof.
  induction ds as [ | d ds IH]; intros acc; cbn [fold_left natural length].
  - cbn. lia.
  - rewrite IH. rewrite Nat2Z.inj_succ, Z.pow_succ_r by lia.
    unfold digit_of, digit_value, code. lia.
Qed.

Lemma natural_int ds : int_of_digits ds = natural ds.
Proof. unfold int_of_digits. rewrite natural_fold. lia. Qed.

Lemma pow10_pos n : (0 < 10 ^ Z.of_nat n)%Z.
Proof. apply Z.pow_pos_nonneg; lia. Qed.

Lemma fraction_ratio ds :
  (fraction ds == inject_Z (natural ds) / inject_Z (10 ^ Z.of_nat (length ds)))%Q.
Proof.
  induction ds as [ | d ds IH]; cbn [fraction natural length].
  - reflexivity.
  - rewrite IH. rewrite Nat2Z.inj_succ, Z.pow_succ_r by lia.
    rewrite inject_Z_plus, !inject_Z_mult.
    pose proof (pow10_pos (length ds)) as Hp.
    assert (Hne : ~ (inject_Z (10 ^ Z.of_nat (length ds)) == 0)%Q).
    { intros H. unfold Qeq, inject_Z in H. simpl in H. lia. }
    field. exact Hne.
Qed.

(** [float] of a decimal is the value of the number. *)
Lemma float_numeric m q : float_of_chars m = Ok q -> q = numeric_value m.
Proof.
  unfold float_of_chars, numeric_value. rewrite leading_span_digits.
  destruct (span_digits m) as [ip rest].
  destruct ip as [ | d ip]; [discriminate | ].
  destruct rest as [ | c fs].
  - intros H. injection H as <-. apply Qred_complete.
    rewrite natural_int. cbn [tl fraction]. ring.
  - pose proof (GreedyFacts.span_digits_app fs) as Efs.
    destruct (span_digits fs) as [fp rest'].
    destruct (Ascii.eqb c "."%char); [ | discriminate].
    destruct fp as [ | e fp]; [discriminate | ].
    destruct rest' as [ | ? ?]; [ | discriminate].
    cbn [fst snd] in Efs. rewrite app_nil_r in Efs. subst fs.
    intros H. injection H as <-. apply Qred_complete.
    cbn [tl]. rewrite fraction_ratio, !natural_int. reflexivity.
Qed.

Lemma float_value_numeric text :
  map float_value (explicit_matches text)
  = map numeric_value (explicit_numbers (list_ascii_of_string text)).
Proof.
  rewrite <- StatementFacts.explicit_matches_spec.
  apply map_ext_in. intros m Hm.
  pose proof (ExperienceFacts.explicit_matches_float text) as H.
  apply (proj1 (List.Forall_forall _ _) H) in Hm.
  now apply float_numeric.
Qed.

(** *** Present *)

Lemma starts_with_lower w :
  lower_chars w = w ->
  forall s,
    starts_with w (lower_chars s)
    = match strip_prefix_i w s with Some _ => true | None => false end.
Proof.
  induction w as [ | a w IH]; intros Hw s; [reflexivity | ].
  cbn [lower_chars map] in Hw. injection Hw as Ha Hw.
  destruct s as [ | b s]; [reflexivity | ].
  cbn [lower_chars map starts_with strip_prefix_i]. rewrite Ha.
  rewrite (Ascii.eqb_sym a (lower_char b)).
  destruct (Ascii.eqb (lower_char b) a); [ | reflexivity].
  apply (IH Hw).
Qed.

Lemma mentions_present_contains s :
  mentions_present s = contains_chars (list_ascii_of_string "present") (lower_chars s).
Proof.
  induction s as [ | c s IH].
  - reflexivity.
  - cbn [mentions_present]. cbn [lower_chars map contains_chars].
    fold (lower_chars s). fold (lower_chars (c :: s)).
    rewrite (starts_with_lower _ eq_refl (c :: s)). unfold word_at.
    destruct (strip_prefix_i (list_ascii_of_string "present") (c :: s)); [reflexivity | ].
    cbn [orb]. exact IH.
Qed.

(** *** The interval set *)

Lemma parse_range_bounds parse now m :
  match parse_range parse now m with
  | Ok iv => Some iv
  | Raise _ => None
  end = bounds parse now m.
Proof.
  unfold parse_range, bounds. destruct m as [a b]. cbn [fst snd].
  rewrite mentions_present_contains. unfold mbind, res_bind.
  destruct (parse (string_of_list_ascii a)) as [s | e]; cbn [bind]; [ | reflexivity].
  destruct (contains_chars _ _); cbn [bind]; [reflexivity | ].
  now destruct (parse (string_of_list_ascii b)).
Qed.

Lemma collect_intervals_parsed parse now ms :
  collect_intervals parse now ms = parsed_ranges parse now ms.
Proof.
  induction ms as [ | m ms IH]; [reflexivity | ].
  cbn [collect_intervals parsed_ranges]. rewrite <- parse_range_bounds.
  destruct (parse_range parse now m); now rewrite IH.
Qed.

(** *** Sorting by start *)

Ltac z_compare :=
  repeat match goal with
         | H : (_ <=? _)%Z = true |- _ => apply Z.leb_le in H
         | H : (_ <=? _)%Z = false |- _ => apply Z.leb_gt in H
         | H : (_ <? _)%Z = true |- _ => apply Z.ltb_lt in H
         | H : (_ <? _)%Z = false |- _ => apply Z.ltb_ge in H
         end.

Lemma insert_place (x y : interval) :
  forall S,
    insert_by fst Z.ltb y (place x S) = place x (insert_by fst Z.ltb y S).
Proof.
  induction S as [ | z S IH]; cbn [place insert_by]; unfold interval, datetime in *.
  - destruct (fst x <? fst y)%Z eqn:E1, (fst y <=? fst x)%Z eqn:E2; try reflexivity;
      z_compare; lia.
  - destruct (fst z <=? fst x)%Z eqn:Ezx, (fst z <? fst y)%Z eqn:Ezy;
      cbn [place insert_by]; unfold interval, datetime in *.
    + rewrite Ezy, Ezx. now rewrite IH.
    + rewrite Ezy.
      assert (E : (fst y <=? fst x)%Z = true) by (apply Z.leb_le; z_compare; lia).
      rewrite E. cbn [place]. unfold interval, datetime in *. now rewrite Ezx.
    + assert (E : (fst x <? fst y)%Z = true) by (apply Z.ltb_lt; z_compare; lia).
      rewrite E. cbn [insert_by]. unfold interval, datetime in *. now rewrite Ezy, Ezx.
    + destruct (fst x <? fst y)%Z eqn:E1, (fst y <=? fst x)%Z eqn:E2.
      * exfalso. z_compare. lia.
      * cbn [insert_by]. unfold interval, datetime in *. now rewrite Ezy.
      * cbn [place]. unfold interval, datetime in *. now rewrite Ezx.
      * exfalso. z_compare. lia.
Qed.

Lemma sort_by_snoc (x : interval) :
  forall l, sort_by fst Z.ltb (l ++ [x]) = place x (sort_by fst Z.ltb l).
Proof.
  induction l as [ | y l IH]; [reflexivity | ].
  cbn [app sort_by fold_right]. fold (sort_by fst Z.ltb (l ++ [x])).
  fold (sort_by fst Z.ltb l). rewrite IH. apply insert_place.
Qed.

(** Python's stable sort by start is the placing of the definition. *)
Lemma sorted_is_by_start (l : list interval) : sorted fst Z.ltb false l = by_start l.
Proof.
  unfold sorted, by_start.
  induction l as [ | x l IH] using rev_ind; [reflexivity | ].
  rewrite sort_by_snoc, fold_left_app, IH. reflexivity.
Qed.

(** *** The two tiers *)

Lemma years_unrolled_spec round1 parse now text :
  years_unrolled round1 parse now text = years_experience round1 parse now text.
Proof.
  unfold years_unrolled, years_experience, years_value. cbv zeta.
  rewrite float_value_numeric, RangeFacts.date_matches_spec, collect_intervals_parsed.
  destruct (map numeric_value _) as [ | y ys]; [ | reflexivity].
  destruct (parsed_ranges parse now _) as [ | iv ivs]; [reflexivity | ].
  cbn [option_map]. now rewrite sorted_is_by_start.
Qed.

Lemma extract_years_two_tier round1 parse now text :
  extract_years_experience round1 parse now text
  = Ok (years_experience round1 parse now text).
Proof.
  rewrite ExperienceFacts.extract_years_spec. f_equal. apply years_unrolled_spec.
Qed.

(** *** Rounding *)

Lemma py_round1_tenths : rounds_to_tenths py_round1.
Proof.
  intros x. unfold py_round1.
  set (t := (10 * Qnum x)%Z). set (b := Zpos (Qden x)).
  set (q := (t / b)%Z). set (r := (t mod b)%Z).
  assert (Hb : (0 < b)%Z) by (unfold b; lia).
  assert (Ht : t = (b * q + r)%Z) by (apply Z.div_mod; lia).
  assert (Hr : (0 <= r < b)%Z) by (apply Z.mod_pos_bound; exact Hb).
  set (n := if (2 * r <? b)%Z then q
            else if (b <? 2 * r)%Z then (q + 1)%Z
            else if Z.even q then q else (q + 1)%Z).
  assert (Hn : (2 * (n * b - t) <= b /\ - b <= 2 * (n * b - t))%Z).
  { unfold n. destruct (2 * r <? b)%Z eqn:E1; [nia | ].
    destruct (b <? 2 * r)%Z eqn:E2; [nia | ].
    destruct (Z.even q); nia. }
  exists n. split; [apply Qred_correct | ].
  rewrite Qred_correct. destruct x as [a d]. unfold t, b in *. cbn [Qnum Qden] in *.
  clear -Hn. unfold Qle, Qminus, Qplus, Qopp. cbn [Qnum Qden].
  rewrite !Pos2Z.inj_mul. split; nia.
Qed.

End TierFacts.

(** C4: [extract_years_experience] follows the two-tier definition: with
    at least one explicit statement of years it returns the greatest of
    the stated numbers, rounded to one decimal; otherwise the date
    ranges are parsed, sorted by start, merged into the running interval
    whenever the start is not after its end, the whole days of the
    merged intervals summed, divided by 365.25 and rounded; with no data
    in either tier it returns None.  With a [round1] that rounds to one
    decimal place, and Python's does, a number returned is a number of
    tenths at most 0.05 away from the value of the definition. *)
Theorem experience_two_tier
    (round1 : Q -> Q) (parse : string -> res datetime) (now : datetime) (text : string) :
  extract_years_experience round1 parse now text
  = Ok (years_experience round1 parse now text)
  /\ (rounds_to_tenths round1 ->
      forall y,
        extract_years_experience round1 parse now text = Ok (Some y) ->
        exists (v : Q) (n : Z),
          years_value parse now text = Some v
          /\ (y == n # 10)%Q /\ (- (1 # 20) <= y - v <= 1 # 20)%Q)
  /\ rounds_to_tenths py_round1
  /\ extract_years_experience py_round1 parse now "5 years of experience" = Ok (Some 5%Q)
  /\ extract_years_experience py_round1 parse now "3 years at A, then 7+ years at B"
     = Ok (Some 7%Q)
  /\ extract_years_experience py_round1 parse_month_year now
       "Mar 2010 - Jun 2012, Jan 2011 - Dec 2011, Jan 2015 - Feb 2015"
     = Ok (Some (23 # 10)%Q)
  /\ extract_years_experience py_round1 parse_month_year now
       (String.append "Jan 2019 "
          (String.append (string_of_list_ascii en_dash_text) " Jan 2020"))
     = Ok (Some 1%Q)
  /\ extract_years_experience py_round1 parse_month_year now "no dates, no durations"
     = Ok None.
Proof.
  split; [apply TierFacts.extract_years_two_tier | ].
  split; [ | split; [apply TierFacts.py_round1_tenths | repeat split]].
  intros Hround y Hy. rewrite TierFacts.extract_years_two_tier in Hy.
  injection Hy as Hy. unfold years_experience in Hy.
  destruct (years_value parse now text) as [v | ]; [ | discriminate].
  injection Hy as <-. destruct (Hround v) as (n & Hn & Hv).
  now exists v, n.
Qed.

Lemma experience_two_tier_witness :
  exists (v : Q) (n : Z),
    years_value parse_month_year 0%Z "Mar 2010 - Jun 2012, Jan 2015 - Feb 2015" = Some v
    /\ (23 # 10 == n # 10)%Q /\ (- (1 # 20) <= (23 # 10) - v <= 1 # 20)%Q.
Proof.
  destruct (experience_two_tier py_round1 parse_month_year 0%Z
              "Mar 2010 - Jun 2012, Jan 2015 - Feb 2015") as (_ & H & Hround & _).
  apply (H Hround). vm_compute. reflexivity.
Defined.

(** ** The summary line of an answer *)

Module SummaryFacts.
Import PyStr Re Py Utils Ref Chat Ai BacktrackFacts.

Lemma matches_star_chr_all p m : forallb p m = true -> matches (Star (Chr p)) m [].
Proof.
  induction m as [ | c m IH]; [constructor | ].
  cbn [forallb]. intros H. apply andb_true_iff in H as [Hc Hm].
  apply (M_star_cons (Chr p) [c] m [] []); [now constructor | now apply IH].
Qed.

Lemma matches_plus_chr_all p c m :
  p c = true -> forallb p m = true -> matches (Plus (Chr p)) (c :: m) [].
Proof.
  intros Hc Hm. apply (M_seq (Chr p) (Star (Chr p)) [c] m [] []);
    [now constructor | now apply matches_star_chr_all].
Qed.

(** A decimal as the summary pattern reads it, with its group. *)
Lemma decimal_summary num :
  matches decimal_pattern num [] ->
  exists cs,
    matches (Seq (Plus digit) (Opt (Grp 1 (Seq (lit ".") (Plus digit))))) num cs.
Proof.
  intros H. apply matches_seq_inv in H as (a & b & ca & cb & -> & _ & Ha & Hb).
  inversion Hb as [ | | | r1 r2 x cx Hfrac | r1 r2 x cx Heps | | | ]; subst.
  - eexists. constructor; [exact Ha | ]. apply M_alt_l. constructor. exact Hfrac.
  - eexists. constructor; [exact Ha | ]. apply M_alt_r. exact Heps.
Qed.

Lemma matches_seq_ex r1 r2 a b :
  (exists c1, matches r1 a c1) -> (exists c2, matches r2 b c2) ->
  exists c, matches (Seq r1 r2) (a ++ b) c.
Proof. intros [c1 H1] [c2 H2]. exists (c2 ++ c1). now constructor. Qed.

Lemma at_end_accepts tail c :
  tail = [] \/ tail = ["010"%char] -> at_end tail c <> None.
Proof. intros [-> | ->]; discriminate. Qed.

Lemma at_end_tail rest cs x :
  at_end rest cs = Some x -> rest = [] \/ rest = ["010"%char].
Proof.
  unfold at_end. destruct rest as [ | c [ | d rest]]; [now left | | discriminate].
  destruct (Ascii.eqb c "010"%char) eqn:E; [ | discriminate].
  apply Ascii.eqb_eq in E as ->. now right.
Qed.

(** The summary pattern accepts exactly the lines of the form
    number|text|rest. *)
Lemma is_summary_shaped line : is_summary line = true <-> summary_shaped line.
Proof.
  unfold is_summary. split.
  - destruct (rmatch summary_pattern line [] at_end) as [out | ] eqn:E; [ | discriminate].
    intros _. apply EngineFacts.rmatch_sound in E as (pre & added & s1 & -> & Hm & Hend).
    apply at_end_tail in Hend.
    unfold summary_pattern in Hm. cbn [seqs fold_right] in Hm.
    apply matches_seq_inv in Hm as (m1 & x1 & c1 & d1 & -> & _ & H1 & Hm).
    apply matches_seq_inv in Hm as (m2 & x2 & c2 & d2 & -> & _ & H2 & Hm).
    apply matches_seq_inv in Hm as (m3 & x3 & c3 & d3 & -> & _ & H3 & Hm).
    apply matches_seq_inv in Hm as (m4 & x4 & c4 & d4 & -> & _ & H4 & Hm).
    apply matches_seq_inv in Hm as (m5 & x5 & c5 & d5 & -> & _ & H5 & Hm).
    apply matches_seq_inv in Hm as (m6 & x6 & c6 & d6 & -> & _ & H6 & Hm).
    inversion Hm; subst.
    apply ShapeFacts.matches_lit in H3 as ->. apply ShapeFacts.matches_lit in H5 as ->.
    apply ExperienceFacts.matches_plus_chr in H4 as (c & x & -> & Hc & Hx).
    apply ExperienceFacts.matches_star_chr in H6.
    exists (m1 ++ m2), (c :: x), m6, s1.
    split; [ | split; [ | split; [discriminate | split; [ | split; [exact H6 | exact Hend]]]]].
    + rewrite app_nil_r. cbn [app]. rewrite <- !app_assoc. cbn [app].
      now rewrite <- !app_assoc.
    + unfold decimal_pattern.
      pose proof (ExperienceFacts.matches_groupless _ _ _ H1 eq_refl) as ->.
      change (@nil (nat * chars)) with (@nil (nat * chars) ++ []).
      constructor; [exact H1 | ].
      inversion H2 as [ | | | r1 r2 y cy Hfrac | r1 r2 y cy Heps | | | ]; subst.
      * inversion Hfrac as [ | | | | | | | i r y' cy' Hin ]; subst.
        pose proof (ExperienceFacts.matches_groupless _ _ _ Hin eq_refl) as ->.
        now apply M_alt_l.
      * inversion Heps; subst. apply M_alt_r. constructor.
    + cbn [forallb]. unfold no_newline. fold (no_newline c). unfold dot in Hc.
      unfold no_newline. now rewrite Hc.
  - intros (num & x & rest & tail & -> & Hnum & Hx & Hxn & Hrn & Htail).
    destruct (decimal_summary num Hnum) as (cs & Hd).
    destruct x as [ | c x]; [congruence | ]. cbn [forallb] in Hxn.
    apply andb_true_iff in Hxn as [Hc Hxn].
    assert (Hm : exists cw,
               matches summary_pattern (num ++ bar :: (c :: x) ++ bar :: rest) cw).
    { unfold summary_pattern. cbn [seqs fold_right].
      apply matches_seq_inv in Hd as (a & b & ca & cb & -> & -> & Ha & Hb).
      rewrite <- app_assoc.
      apply matches_seq_ex; [now exists ca | ].
      apply matches_seq_ex; [now exists cb | ].
      apply (matches_seq_ex (lit bar) _ [bar]);
        [exists []; constructor; apply Ascii.eqb_refl | ].
      apply matches_seq_ex; [exists []; now apply (matches_plus_chr_all _ c x) | ].
      apply (matches_seq_ex (lit bar) _ [bar]);
        [exists []; constructor; apply Ascii.eqb_refl | ].
      rewrite <- (app_nil_r rest).
      apply matches_seq_ex; [exists []; now apply matches_star_chr_all | ].
      exists []. constructor. }
    destruct Hm as (cw & Hm).
    pose proof (rmatch_complete _ _ _ Hm tail [] at_end
                  (fun c => at_end_accepts tail c Htail)) as Hne.
    replace (num ++ bar :: (c :: x) ++ bar :: rest ++ tail)
      with ((num ++ bar :: (c :: x) ++ bar :: rest) ++ tail).
    + now destruct (rmatch summary_pattern _ [] at_end).
    + rewrite <- !app_assoc. cbn [app]. now rewrite <- !app_assoc.
Qed.

Lemma find_app_skip {A : Type} (f : A -> bool) l1 l2 :
  forallb (fun x => negb (f x)) l1 = true -> find f (l1 ++ l2) = find f l2.
Proof.
  induction l1 as [ | x l1 IH]; [reflexivity | ].
  cbn [forallb app find]. intros H. apply andb_true_iff in H as [Hx H].
  apply negb_true_iff in Hx. rewrite Hx. now apply IH.
Qed.

Lemma not_shaped_all lines :
  Forall (fun l => ~ summary_shaped l) lines ->
  forallb (fun l => negb (is_summary l)) lines = true.
Proof.
  intros H. apply forallb_forall. intros l Hl.
  apply (proj1 (List.Forall_forall _ _) H) in Hl.
  destruct (is_summary l) eqn:E; [ | reflexivity].
  exfalso. now apply Hl, is_summary_shaped.
Qed.

(** The loop over the reversed lines stops at the last line of the form. *)
Lemma summary_line_last before line after :
  summary_shaped line ->
  Forall (fun l => ~ summary_shaped l) after ->
  summary_line (before ++ line :: after) = Some line.
Proof.
  intros Hl Ha. unfold summary_line.
  rewrite rev_app_distr. cbn [rev]. rewrite <- app_assoc. cbn [app].
  rewrite find_app_skip.
  - cbn [find]. now rewrite (proj2 (is_summary_shaped line) Hl).
  - apply not_shaped_all. now apply List.Forall_rev.
Qed.

Lemma summary_line_none lines :
  Forall (fun l => ~ summary_shaped l) lines -> summary_line lines = None.
Proof.
  intros H. unfold summary_line.
  rewrite <- (app_nil_r (rev lines)), find_app_skip; [reflexivity | ].
  apply not_shaped_all. now apply List.Forall_rev.
Qed.

End SummaryFacts.

(** X19: what [analyze_similarity] reads from an answer of the model.
    Of the lines of the answer, the last one of the form
    number|text|rest gives the result: it has at least three fields, the
    first is a decimal that [float] accepts, so the score is its value,
    not negative (and not cut down to 100), the category and the skill
    are the next two fields, trimmed, and the explanation is all lines
    but the last.  If no line has that form the result is 0, Worst and
    no skill.  The pattern of the code accepts exactly the lines of that
    form.  An answer with two such lines is read from the second. *)
Theorem answer_summary_is_parsed (result : PyStr.chars) :
  (forall before line after,
      Ai.lines_of result = before ++ line :: after ->
      Ai.summary_shaped line ->
      Forall (fun l => ~ Ai.summary_shaped l) after ->
      exists num p1 p2 more q,
        split_on Ai.is_bar line [] = num :: p1 :: p2 :: more
        /\ matches Ai.decimal_pattern num []
        /\ float_of_chars num = Ok q /\ (0 <= q)%Q
        /\ Ai.read_answer result
           = (q, strip p1,
              match strip p2 with [] => None | _ :: _ => Some (strip p2) end,
              join Ai.newline (removelast (Ai.lines_of result))))
  /\ (Forall (fun l => ~ Ai.summary_shaped l) (Ai.lines_of result) ->
      Ai.read_answer result
      = (0%Q, list_ascii_of_string "Worst", None, join Ai.newline (Ai.lines_of result)))
  /\ (forall line, Ai.is_summary line = true <-> Ai.summary_shaped line)
  /\ Ai.read_answer (list_ascii_of_string "10|Bad|Go" ++ "010"%char
                       :: list_ascii_of_string "why" ++ "010"%char
                       :: list_ascii_of_string "85.5|Good|Python")
     = ((171 # 2)%Q, list_ascii_of_string "Good", Some (list_ascii_of_string "Python"),
        list_ascii_of_string "10|Bad|Go" ++ "010"%char :: list_ascii_of_string "why").
Proof.
  pose proof (AiFacts.read_answer_cases result) as H.
  split; [ | split; [ | split; [ | vm_compute; reflexivity]]].
  - intros before line after E Hl Ha.
    rewrite E, (SummaryFacts.summary_line_last before line after Hl Ha) in H.
    rewrite E. exact H.
  - intros Hn. now rewrite (SummaryFacts.summary_line_none _ Hn) in H.
  - apply SummaryFacts.is_summary_shaped.
Qed.
